(** * Credentials: issuing and verifying HMAC-authenticated node credentials

    A shallow embedding of [credentials.go] (package [credentials]) together
    with the library functions it calls, and the properties of the
    specification proved about it.

    Layout:
    - bytes, SHA-256 and HMAC ([crypto/sha256], [crypto/hmac]);
    - [encoding/hex] and [encoding/base64] (URL alphabet, padded);
    - the protobuf wire format of the two messages of package [pb];
    - the JSON documents of [encoding/json], at the level of parsed values;
    - the store of Go objects (pointers to messages, managers), a small
      state-and-panic monad, and the functions of [credentials.go];
    - the theorems. *)

From Stdlib Require Import ZArith List Ascii String Lia Bool.
From Stdlib.Strings Require Import Byte.
From stdpp Require Import base option list gmap strings.

Local Open Scope Z_scope.
Set Warnings "-register-all".

(** ** Bytes *)

(** A Go [[]byte] is a [list byte]; a nil slice and an empty one are both
    [[]] (the program never tells them apart: it only takes [len] and
    copies). A Go [string] is a Rocq [string] (a sequence of 8-bit
    characters). *)

Definition byte_to_Z (b : byte) : Z := Z.of_N (Byte.to_N b).

Definition byte_of_Z (z : Z) : byte :=
  match Byte.of_N (Z.to_N (z mod 256)) with
  | Some b => b
  | None => x00
  end.

Definition bytes_of_string (s : string) : list byte := list_byte_of_string s.
Definition string_of_bytes (l : list byte) : string := string_of_list_byte l.

(** Big-endian encoding of [z] on [n] bytes. *)
Fixpoint be_bytes (n : nat) (z : Z) : list byte :=
  match n with
  | O => []
  | S n' => byte_of_Z (Z.shiftr z (8 * Z.of_nat n')) :: be_bytes n' z
  end.

(** Big-endian value of a byte string. *)
Definition be_value (l : list byte) : Z :=
  fold_left (fun acc b => acc * 256 + byte_to_Z b) l 0.

(** ** SHA-256 (FIPS 180-4), as [crypto/sha256] computes it *)

Module SHA256.

Definition mask32 : Z := 0xffffffff.
Definition add32 (a b : Z) : Z := (a + b) mod 2 ^ 32.
Definition rotr (n x : Z) : Z :=
  Z.lor (Z.shiftr x n) (Z.land (Z.shiftl x (32 - n)) mask32).
Definition shr (n x : Z) : Z := Z.shiftr x n.

Definition Ch (x y z : Z) : Z :=
  Z.lxor (Z.land x y) (Z.land (Z.lxor x mask32) z).
Definition Maj (x y z : Z) : Z :=
  Z.lxor (Z.lxor (Z.land x y) (Z.land x z)) (Z.land y z).
Definition bsig0 (x : Z) : Z := Z.lxor (Z.lxor (rotr 2 x) (rotr 13 x)) (rotr 22 x).
Definition bsig1 (x : Z) : Z := Z.lxor (Z.lxor (rotr 6 x) (rotr 11 x)) (rotr 25 x).
Definition ssig0 (x : Z) : Z := Z.lxor (Z.lxor (rotr 7 x) (rotr 18 x)) (shr 3 x).
Definition ssig1 (x : Z) : Z := Z.lxor (Z.lxor (rotr 17 x) (rotr 19 x)) (shr 10 x).

(** The constants of FIPS 180-4: the first 32 bits of the fractional parts
    of the cube roots of the first 64 primes, and of the square roots of the
    first 8 for the initial hash value. *)
Definition is_prime (n : nat) : bool :=
  forallb (fun d => negb (n mod d =? 0)%nat) (seq 2 (n - 2)).

Definition primes : list Z := map Z.of_nat (List.filter is_prime (seq 2 310)).

(** The integer cube root of [n] below [2 ^ bits], bit by bit. *)
Fixpoint cube_root (bits : nat) (n r : Z) : Z :=
  match bits with
  | O => r
  | S bits' =>
      let r' := r + 2 ^ Z.of_nat bits' in
      cube_root bits' n (if r' * r' * r' <=? n then r' else r)
  end.

Definition K : list Z :=
  Eval vm_compute in map (fun p => cube_root 40 (p * 2 ^ 96) 0 mod 2 ^ 32) primes.

Definition H0 : list Z :=
  Eval vm_compute in map (fun p => Z.sqrt (p * 2 ^ 64) mod 2 ^ 32) (take 8 primes).

(** The message, a [0x80] byte, zeros up to 56 modulo 64, and the length in
    bits on 8 bytes. *)
Definition pad (msg : list byte) : list byte :=
  let len := Z.of_nat (length msg) in
  msg ++ [x80] ++ repeat x00 (Z.to_nat ((55 - len) mod 64)) ++ be_bytes 8 (len * 8).

(** The sixteen big-endian words of a 64-byte block. *)
Fixpoint words (n : nat) (block : list byte) : list Z :=
  match n with
  | O => []
  | S n' => be_value (take 4 block) :: words n' (drop 4 block)
  end.

(** The message schedule, latest word first: [rev_w] holds W[t-1], W[t-2], ... *)
Fixpoint schedule (n : nat) (rev_w : list Z) : list Z :=
  match n with
  | O => rev_w
  | S n' =>
      let w i := nth i rev_w 0 in
      let x := add32 (add32 (ssig1 (w 1%nat)) (w 6%nat))
                     (add32 (ssig0 (w 14%nat)) (w 15%nat)) in
      schedule n' (x :: rev_w)
  end.

Record regs := Regs { ra : Z; rb : Z; rc : Z; rd : Z; re : Z; rf : Z; rg : Z; rh : Z }.

Definition round (r : regs) (kw : Z * Z) : regs :=
  let t1 := add32 (add32 (add32 (rh r) (bsig1 (re r))) (Ch (re r) (rf r) (rg r)))
                  (add32 (fst kw) (snd kw)) in
  let t2 := add32 (bsig0 (ra r)) (Maj (ra r) (rb r) (rc r)) in
  Regs (add32 t1 t2) (ra r) (rb r) (rc r) (add32 (rd r) t1) (re r) (rf r) (rg r).

Definition regs_of (h : list Z) : regs :=
  let x i := nth i h 0 in
  Regs (x 0%nat) (x 1%nat) (x 2%nat) (x 3%nat) (x 4%nat) (x 5%nat) (x 6%nat) (x 7%nat).

Definition regs_list (r : regs) : list Z :=
  [ra r; rb r; rc r; rd r; re r; rf r; rg r; rh r].

Definition compress (h : list Z) (block : list byte) : list Z :=
  let w := rev (schedule 48 (rev (words 16 block))) in
  let r := fold_left round (combine K w) (regs_of h) in
  zip_with add32 h (regs_list r).

Fixpoint blocks (n : nat) (h : list Z) (data : list byte) : list Z :=
  match n with
  | O => h
  | S n' => blocks n' (compress h (take 64 data)) (drop 64 data)
  end.

Definition sum256 (msg : list byte) : list byte :=
  let p := pad msg in
  flat_map (be_bytes 4) (blocks (length p / 64) H0 p).

End SHA256.

(** ** HMAC (RFC 2104), as [crypto/hmac] computes it over SHA-256 *)

Definition xor_byte (a b : byte) : byte := byte_of_Z (Z.lxor (byte_to_Z a) (byte_to_Z b)).

(** [hmac.New]: a key longer than the block size (64) is hashed first, then
    the key is padded with zeros to the block size. *)
Definition hmac_block_key (key : list byte) : list byte :=
  let k := if (64 <? length key)%nat then SHA256.sum256 key else key in
  k ++ repeat x00 (64 - length k)%nat.

Definition hmac_sha256 (key msg : list byte) : list byte :=
  let k := hmac_block_key key in
  let ipad := map (xor_byte x36) k in
  let opad := map (xor_byte x5c) k in
  SHA256.sum256 (opad ++ SHA256.sum256 (ipad ++ msg)).

(** [hmac.Equal] is [subtle.ConstantTimeCompare(x, y) == 1]: unequal lengths
    give 0 at once; otherwise the bytewise XORs are OR-ed together over the
    whole length and the accumulator is compared with 0. *)
Definition ConstantTimeCompare (x y : list byte) : Z :=
  if negb (length x =? length y)%nat then 0
  else
    let v := fold_left (fun v xy => Z.lor v (Z.lxor (byte_to_Z (fst xy)) (byte_to_Z (snd xy))))
                       (combine x y) 0 in
    if v =? 0 then 1 else 0.

Definition hmac_Equal (mac1 mac2 : list byte) : bool :=
  ConstantTimeCompare mac1 mac2 =? 1.

(** A [hash.Hash] made by [hmac.New(sha256.New, key)]: the key and the bytes
    written since the last [Reset]. *)
Record hmac_hash := HmacHash { hash_key : list byte; hash_written : list byte }.

Definition hmac_New (key : list byte) : hmac_hash := HmacHash key [].
Definition hash_Write (h : hmac_hash) (p : list byte) : hmac_hash :=
  HmacHash (hash_key h) (hash_written h ++ p).
Definition hash_Sum (h : hmac_hash) (b : list byte) : list byte :=
  b ++ hmac_sha256 (hash_key h) (hash_written h).
Definition hash_Reset (h : hmac_hash) : hmac_hash := HmacHash (hash_key h) [].

(** ** Errors *)

(** The error values the program and its libraries return. The offsets of
    [base64.CorruptInputError] and the texts of the protobuf and JSON errors
    are not modelled. *)
Inductive error : Type :=
  | hex_InvalidByteError (c : ascii)
  | hex_ErrLength
  | base64_CorruptInputError
  | io_ErrUnexpectedEOF
  | proto_errDecode
  | proto_Error (msg : string)
  | json_SyntaxError
  | json_UnmarshalTypeError (field : string)
  | fmt_Errorf (format : string) (arg : Z)
  | errors_New (msg : string)
  | errors_Wrap (cause : error) (msg : string).

(** The errors of the decoders: malformed hexadecimal, base64, protobuf or
    JSON input. *)
Definition decoding_error (e : error) : bool :=
  match e with
  | hex_InvalidByteError _ | hex_ErrLength
  | base64_CorruptInputError | io_ErrUnexpectedEOF
  | proto_errDecode | proto_Error _
  | json_SyntaxError | json_UnmarshalTypeError _ => true
  | fmt_Errorf _ _ | errors_New _ | errors_Wrap _ _ => false
  end.

(** A Go result pair [(v, err)] with [err == nil] or not. *)
Inductive result (A : Type) : Type :=
  | Ok (v : A)
  | Err (e : error).
Arguments Ok {A} v.
Arguments Err {A} e.

Global Instance result_ret : MRet result := fun A v => Ok v.
Global Instance result_bind : MBind result := fun A B f r =>
  match r with
  | Ok v => f v
  | Err e => Err e
  end.

(** ** [encoding/hex] *)

Definition ascii_to_Z (c : ascii) : Z := Z.of_N (N_of_ascii c).
Definition ascii_of_Z (z : Z) : ascii := ascii_of_N (Z.to_N z).

Definition hextable : string := "0123456789abcdef".

Definition hex_digit (n : Z) : ascii :=
  nth (Z.to_nat n) (list_ascii_of_string hextable) "0"%char.

Fixpoint hex_EncodeToString (src : list byte) : string :=
  match src with
  | [] => EmptyString
  | v :: rest =>
      String (hex_digit (Z.shiftr (byte_to_Z v) 4))
        (String (hex_digit (Z.land (byte_to_Z v) 0x0f)) (hex_EncodeToString rest))
  end.

(** [reverseHexTable]: the value of a hexadecimal digit of either case, or
    [None] where the table holds [0xff]. *)
Definition fromHexChar (c : ascii) : option Z :=
  let n := ascii_to_Z c in
  if (48 <=? n) && (n <=? 57) then Some (n - 48)
  else if (97 <=? n) && (n <=? 102) then Some (n - 97 + 10)
  else if (65 <=? n) && (n <=? 70) then Some (n - 65 + 10)
  else None.

(** [hex.DecodeString]: pairs of digits from the left; an invalid character
    is reported before an odd length. *)
Fixpoint hex_DecodeString (s : string) : result (list byte) :=
  match s with
  | EmptyString => Ok []
  | String p EmptyString =>
      match fromHexChar p with
      | None => Err (hex_InvalidByteError p)
      | Some _ => Err hex_ErrLength
      end
  | String p (String q rest) =>
      match fromHexChar p with
      | None => Err (hex_InvalidByteError p)
      | Some a =>
          match fromHexChar q with
          | None => Err (hex_InvalidByteError q)
          | Some b =>
              tl ← hex_DecodeString rest;
              Ok (byte_of_Z (Z.lor (Z.shiftl a 4) b) :: tl)
          end
      end
  end.

(** [strings.TrimPrefix(s, "0x")]. *)
Definition TrimPrefix_0x (s : string) : string :=
  match s with
  | String "0" (String "x" rest) => rest
  | _ => s
  end.

(** ** [encoding/base64], [base64.URLEncoding] (URL alphabet, [=] padding) *)

Definition encodeURL : string :=
  "ABCDEFGHIJKLMNOPQRSTUVWXYZabcdefghijklmnopqrstuvwxyz0123456789-_".

Definition base64_char (n : Z) : ascii :=
  nth (Z.to_nat n) (list_ascii_of_string encodeURL) "A"%char.

(** The encoder of [base64.NewEncoder] after [Write(src)] and [Close()]:
    three bytes give four characters; one or two trailing bytes give two or
    three characters and padding. Writing to a [bytes.Buffer] returns no
    error. *)
Fixpoint base64_encode (src : list byte) : list ascii :=
  match src with
  | [] => []
  | [a] =>
      let val := Z.shiftl (byte_to_Z a) 16 in
      [ base64_char (Z.land (Z.shiftr val 18) 0x3f);
        base64_char (Z.land (Z.shiftr val 12) 0x3f); "="; "=" ]%char
  | [a; b] =>
      let val := Z.lor (Z.shiftl (byte_to_Z a) 16) (Z.shiftl (byte_to_Z b) 8) in
      [ base64_char (Z.land (Z.shiftr val 18) 0x3f);
        base64_char (Z.land (Z.shiftr val 12) 0x3f);
        base64_char (Z.land (Z.shiftr val 6) 0x3f); "=" ]%char
  | a :: b :: c :: rest =>
      let val := Z.lor (Z.lor (Z.shiftl (byte_to_Z a) 16) (Z.shiftl (byte_to_Z b) 8))
                       (byte_to_Z c) in
      base64_char (Z.land (Z.shiftr val 18) 0x3f)
        :: base64_char (Z.land (Z.shiftr val 12) 0x3f)
        :: base64_char (Z.land (Z.shiftr val 6) 0x3f)
        :: base64_char (Z.land val 0x3f)
        :: base64_encode rest
  end.

Definition base64_URLEncoding_EncodeToString (src : list byte) : string :=
  string_of_list_ascii (base64_encode src).

(** [decodeMap]: the index of a character in the alphabet. *)
Definition base64_decodeMap (c : ascii) : option Z :=
  let n := ascii_to_Z c in
  if (65 <=? n) && (n <=? 90) then Some (n - 65)
  else if (97 <=? n) && (n <=? 122) then Some (n - 97 + 26)
  else if (48 <=? n) && (n <=? 57) then Some (n - 48 + 52)
  else if n =? 45 then Some 62
  else if n =? 95 then Some 63
  else None.

Definition is_pad (c : ascii) : bool := ascii_to_Z c =? 61.
Definition is_newline (c : ascii) : bool := (ascii_to_Z c =? 10) || (ascii_to_Z c =? 13).

Definition quantum_bytes (s0 s1 s2 s3 : Z) : list byte :=
  let val := Z.lor (Z.lor (Z.lor (Z.shiftl s0 18) (Z.shiftl s1 12)) (Z.shiftl s2 6)) s3 in
  [byte_of_Z (Z.shiftr val 16); byte_of_Z (Z.shiftr val 8); byte_of_Z val].

(** [Encoding.Decode] on input without newlines whose length is a multiple
    of four: whole quanta, then at most one padded quantum, which must end
    the input. The encoding is not strict: the unused low bits of a padded
    quantum are not checked. *)
Fixpoint base64_Decode (src : list ascii) : result (list byte) :=
  match src with
  | c0 :: c1 :: c2 :: c3 :: rest =>
      match base64_decodeMap c0, base64_decodeMap c1 with
      | Some s0, Some s1 =>
          match base64_decodeMap c2, base64_decodeMap c3 with
          | Some s2, Some s3 =>
              tl ← base64_Decode rest;
              Ok (quantum_bytes s0 s1 s2 s3 ++ tl)
          | Some s2, None =>
              if is_pad c3 && bool_decide (rest = [])
              then Ok (take 2 (quantum_bytes s0 s1 s2 0))
              else Err base64_CorruptInputError
          | None, _ =>
              if is_pad c2 && is_pad c3 && bool_decide (rest = [])
              then Ok (take 1 (quantum_bytes s0 s1 0 0))
              else Err base64_CorruptInputError
          end
      | _, _ => Err base64_CorruptInputError
      end
  | _ => Ok []
  end.

(** The text decoded as one chunk: line breaks dropped, the longest prefix
    whose length is a multiple of four decoded by [Encoding.Decode], and
    [io.ErrUnexpectedEOF] when one to three characters are left over. The
    stream decoder below does this for text of up to 680 characters. *)
Definition base64_decode_text (src : list ascii) : result (list byte) :=
  let n := (length src / 4 * 4)%nat in
  out ← base64_Decode (take n src);
  if (length src mod 4 =? 0)%nat then Ok out else Err io_ErrUnexpectedEOF.

Definition base64_decode_one_chunk (s : string) : result (list byte) :=
  base64_decode_text (List.filter (fun c => negb (is_newline c)) (list_ascii_of_string s)).

(** *** The stream decoder: [io.ReadAll] of [base64.NewDecoder] *)

(** The capacity [append] picks when it grows a full slice is the business
    of the Go runtime: [growslice c] is the new capacity of a slice of
    capacity [c], and [io.ReadAll] gets at least [c + 1]. *)
Class go_runtime := {
  growslice : nat -> nat
}.

(** A runtime to compute with: capacities double. *)
Definition runtime_doubling : go_runtime := {| growslice := fun c => (2 * c)%nat |}.

(** The state of a [base64.NewDecoder] over a [bytes.Reader]: the text not
    yet read, the characters left over in [d.buf], the decoded bytes not yet
    handed out ([d.out]), and whether the reader has reported [io.EOF]
    ([d.readErr]). *)
Record decoder := mkDecoder {
  dec_raw : list ascii;
  dec_buf : list ascii;
  dec_out : list byte;
  dec_eof : bool
}.

(** [newlineFilteringReader.Read] into a buffer of [k] characters: what the
    [bytes.Reader] gives, at most [k] characters, is stripped of line breaks,
    and the reader is read again when nothing is left of it. The result is
    the characters, whether the end was reported, and the text still unread.
    Every read takes at least one character, so [fuel] at the length of the
    text is enough. *)
Fixpoint filtered_Read (fuel k : nat) (raw : list ascii) : list ascii * bool * list ascii :=
  match fuel, raw with
  | _, [] => ([], true, [])
  | O, _ => ([], true, raw)
  | S fuel', _ =>
      match List.filter (fun c => negb (is_newline c)) (take k raw) with
      | [] => filtered_Read fuel' k (drop k raw)
      | got => (got, false, drop k raw)
      end
  end.

(** The loop of [decoder.Read] that refills [d.buf]: while fewer than four
    characters are there and the reader has not reported the end, it reads
    into [d.buf[d.nbuf:nn]]. Every read brings a character or the end, so
    four rounds are enough. *)
Fixpoint refill (fuel nn : nat) (d : decoder) : decoder :=
  match fuel with
  | O => d
  | S fuel' =>
      if (length (dec_buf d) <? 4)%nat && negb (dec_eof d) then
        let '(got, eof, raw') :=
          filtered_Read (length (dec_raw d)) (nn - length (dec_buf d)) (dec_raw d) in
        refill fuel' nn (mkDecoder raw' (dec_buf d ++ got) (dec_out d) eof)
      else d
  end.

(** What a [Read] returns: bytes and no error, [io.EOF], or another error
    (with which the caller drops the bytes). *)
Inductive read_result : Type :=
  | read_bytes (p : list byte)
  | read_EOF
  | read_error (e : error).

(** [decoder.Read(p)] with [len(p) = len_p]: bytes left over from the last
    call are handed out first; otherwise the buffer is refilled with up to
    [len_p / 3 * 4] characters (at least 4, at most the 1024 of [d.buf]), and
    its longest prefix of whole quanta is decoded on its own, as if the text
    ended there. Fewer than four characters at the end of the text are
    [io.ErrUnexpectedEOF]. *)
Definition decoder_Read (len_p : nat) (d : decoder) : read_result * decoder :=
  match dec_out d with
  | _ :: _ =>
      (read_bytes (take len_p (dec_out d)),
       mkDecoder (dec_raw d) (dec_buf d) (drop len_p (dec_out d)) (dec_eof d))
  | [] =>
      let nn := Nat.min 1024 (Nat.max 4 (len_p / 3 * 4)) in
      let d := refill 4 nn d in
      if (length (dec_buf d) <? 4)%nat then
        (match dec_buf d with
         | [] => read_EOF
         | _ => read_error io_ErrUnexpectedEOF
         end, d)
      else
        let nr := (length (dec_buf d) / 4 * 4)%nat in
        match base64_Decode (take nr (dec_buf d)) with
        | Err e => (read_error e, d)
        | Ok decoded =>
            (read_bytes (take len_p decoded),
             mkDecoder (dec_raw d) (drop nr (dec_buf d)) (drop len_p decoded) (dec_eof d))
        end
  end.

Section stream.
Context {Gr : go_runtime}.

(** The loop of [io.ReadAll]: [Read] into the free part of a buffer [b] of
    capacity [cap], which grows when it is full, until an error; [io.EOF] is
    no error of [ReadAll]. Every [Read] that returns no error takes a
    character of the text or hands out a byte decoded before, so [fuel] above
    the length of the text is enough. *)
Fixpoint ReadAll_loop (fuel : nat) (d : decoder) (b : list byte) (cap : nat)
  : result (list byte) :=
  match fuel with
  | O => Err io_ErrUnexpectedEOF
  | S fuel' =>
      match decoder_Read (cap - length b) d with
      | (read_bytes p, d') =>
          let b' := b ++ p in
          ReadAll_loop fuel' d' b'
            (if (length b' =? cap)%nat then Nat.max (S cap) (growslice cap) else cap)
      | (read_EOF, _) => Ok b
      | (read_error e, _) => Err e
      end
  end.

(** [io.ReadAll(base64.NewDecoder(base64.URLEncoding, bytes.NewReader([]byte(s))))]:
    the buffer of [io.ReadAll] starts with a capacity of 512, so the first
    [Read] takes up to 680 characters. *)
Definition base64_URLEncoding_decode_all (s : string) : result (list byte) :=
  let raw := list_ascii_of_string s in
  ReadAll_loop (S (length raw)) (mkDecoder raw [] [] false) [] 512.

End stream.

(** ** The protobuf wire format ([google.golang.org/protobuf]) *)

Definition uint64 (v : Z) : Z := v mod 2 ^ 64.
Definition int64 (v : Z) : Z := (v + 2 ^ 63) mod 2 ^ 64 - 2 ^ 63.
Definition int32 (v : Z) : Z := (v + 2 ^ 31) mod 2 ^ 32 - 2 ^ 31.

Module protowire.

Definition VarintType : Z := 0.
Definition Fixed64Type : Z := 1.
Definition BytesType : Z := 2.
Definition StartGroupType : Z := 3.
Definition EndGroupType : Z := 4.
Definition Fixed32Type : Z := 5.

Definition MinValidNumber : Z := 1.
Definition MaxValidNumber : Z := 2 ^ 29 - 1.
Definition DefaultRecursionLimit : Z := 10000.

(** [AppendVarint]: seven bits a byte, least significant first, the high bit
    set on every byte but the last; a [uint64] takes at most ten bytes. *)
Fixpoint AppendVarint_from (more : nat) (v : Z) : list byte :=
  match more with
  | O => [byte_of_Z v]
  | S more' =>
      if v <? 0x80 then [byte_of_Z v]
      else byte_of_Z (Z.lor (Z.land v 0x7f) 0x80) :: AppendVarint_from more' (Z.shiftr v 7)
  end.

Definition AppendVarint (v : Z) : list byte := AppendVarint_from 9 (uint64 v).

(** [ConsumeVarint]: the value and the bytes after it. The input is
    truncated when it ends inside the varint; the tenth byte must be 0 or 1. *)
Fixpoint ConsumeVarint_from (more : nat) (shift : Z) (b : list byte)
  : result (Z * list byte) :=
  match b with
  | [] => Err proto_errDecode
  | y :: rest =>
      let y := byte_to_Z y in
      match more with
      | O => if y <? 2 then Ok (Z.shiftl y shift, rest) else Err proto_errDecode
      | S more' =>
          if y <? 0x80 then Ok (Z.shiftl y shift, rest)
          else
            '(v, rest') ← ConsumeVarint_from more' (shift + 7) rest;
            Ok (Z.shiftl (y - 0x80) shift + v, rest')
      end
  end.

Definition ConsumeVarint (b : list byte) : result (Z * list byte) :=
  ConsumeVarint_from 9 0 b.

Definition EncodeTag (num typ : Z) : Z := Z.lor (Z.shiftl num 3) (Z.land typ 7).
Definition AppendTag (num typ : Z) : list byte := AppendVarint (EncodeTag num typ).

Definition AppendBytes (v : list byte) : list byte :=
  AppendVarint (Z.of_nat (length v)) ++ v.

(** [ConsumeBytes]: a length and that many bytes. *)
Definition ConsumeBytes (b : list byte) : result (list byte * list byte) :=
  '(m, rest) ← ConsumeVarint b;
  if Z.of_nat (length rest) <? m then Err proto_errDecode
  else Ok (take (Z.to_nat m) rest, drop (Z.to_nat m) rest).

Definition ConsumeFixed (n : nat) (b : list byte) : result (list byte) :=
  if (length b <? n)%nat then Err proto_errDecode else Ok (drop n b).

(** [ConsumeTag], as [ConsumeFieldValue] uses it inside a group: a field
    number of at least 1 that fits an [int32]. *)
Definition ConsumeTag (b : list byte) : result (Z * Z * list byte) :=
  '(v, rest) ← ConsumeVarint b;
  if (2 ^ 31 - 1 <? Z.shiftr v 3) || (Z.shiftr v 3 <? MinValidNumber)
  then Err proto_errDecode
  else Ok (Z.shiftr v 3, Z.land v 7, rest).

(** [consumeFieldValueD]: the bytes after the value of a field of wire type
    [typ]; a group runs to its matching end marker. Every call consumes a
    tag or ends, so [fuel] bounds the calls, not the input. *)
Fixpoint consumeFieldValueD (fuel : nat) (num typ : Z) (b : list byte) (depth : Z)
  : result (list byte) :=
  match fuel with
  | O => Err proto_errDecode
  | S fuel' =>
      if typ =? VarintType then '(_, rest) ← ConsumeVarint b; Ok rest
      else if typ =? Fixed32Type then ConsumeFixed 4 b
      else if typ =? Fixed64Type then ConsumeFixed 8 b
      else if typ =? BytesType then '(_, rest) ← ConsumeBytes b; Ok rest
      else if typ =? StartGroupType then
        if depth <? 0 then Err proto_errDecode
        else consumeGroup fuel' num b depth
      else Err proto_errDecode
  end
with consumeGroup (fuel : nat) (num : Z) (b : list byte) (depth : Z)
  : result (list byte) :=
  match fuel with
  | O => Err proto_errDecode
  | S fuel' =>
      '(num2, typ2, b1) ← ConsumeTag b;
      if typ2 =? EndGroupType then
        if num =? num2 then Ok b1 else Err proto_errDecode
      else
        b2 ← consumeFieldValueD fuel' num2 typ2 b1 (depth - 1);
        consumeGroup fuel' num b2 depth
  end.

Definition ConsumeFieldValue (num typ : Z) (b : list byte) : result (list byte) :=
  consumeFieldValueD (2 * length b + 2) num typ b DefaultRecursionLimit.

End protowire.

(** *** The messages of package [pb] *)

(** A pointer to a Go object. *)
Definition loc := positive.

Module pb.

(** [pb.Credential]. [OperatorType] is the [int32] of the enum
    [pb.OperatorType], [Timestamp] an [int64]; [unknownFields] holds the
    fields the decoder did not recognise, which [proto.Marshal] writes back. *)
Record Credential := mkCredential {
  NodeId : list byte;
  OperatorType : Z;
  Timestamp : Z;
  unknownFields : list byte
}.

Definition Credential_zero : Credential := mkCredential [] 0 0 [].

(** The field numbers of [pb.Credential] and [pb.AuthenticatedCredential].
    The generated file [pb/credential.pb.go] is not among the sources, so the
    numbers are parameters of the development. *)
Class schema := {
  num_node_id : Z;
  num_operator_type : Z;
  num_timestamp : Z;
  num_credential : Z;
  num_mac : Z
}.

Definition valid_number (n : Z) : bool :=
  (protowire.MinValidNumber <=? n) && (n <=? protowire.MaxValidNumber).

(** A numbering to compute with: the fields of each message in the order
    [node_id], [timestamp], [operator_type] and [credential], [mac]. *)
Definition schema_in_order : schema :=
  {| num_node_id := 1; num_timestamp := 2; num_operator_type := 3;
     num_credential := 1; num_mac := 2 |}.

(** Field numbers are valid and differ within a message. *)
Definition schema_ok (s : schema) : bool :=
  valid_number num_node_id && valid_number num_operator_type
  && valid_number num_timestamp && valid_number num_credential && valid_number num_mac
  && negb (num_node_id =? num_operator_type) && negb (num_node_id =? num_timestamp)
  && negb (num_operator_type =? num_timestamp) && negb (num_credential =? num_mac).

End pb.

(** [pb.AuthenticatedCredential] read through its pointer: the message
    [proto.Marshal] sees and [proto.Unmarshal] builds. *)
Record AuthenticatedCredential_message := mkMessage {
  msg_credential : option pb.Credential;
  msg_mac : list byte;
  msg_unknownFields : list byte
}.

Definition message_zero : AuthenticatedCredential_message := mkMessage None [] [].

(** The encoder writes the known fields in the order of their numbers. *)
Fixpoint insert_field (f : Z * list byte) (l : list (Z * list byte)) : list (Z * list byte) :=
  match l with
  | [] => [f]
  | g :: l' => if fst f <=? fst g then f :: l else g :: insert_field f l'
  end.

Definition ordered_fields (l : list (Z * list byte)) : list byte :=
  concat (map snd (fold_right insert_field [] l)).

Section wire.
Context {Sch : pb.schema}.

(** A field of a proto3 message without presence is written when it is not
    the zero value; a message field is written when its pointer is not nil,
    also when the message is empty. *)
Definition encode_bytes_field (num : Z) (v : list byte) : list byte :=
  if bool_decide (v = []) then []
  else protowire.AppendTag num protowire.BytesType ++ protowire.AppendBytes v.

Definition encode_varint_field (num : Z) (v : Z) : list byte :=
  if v =? 0 then []
  else protowire.AppendTag num protowire.VarintType ++ protowire.AppendVarint (uint64 v).

Definition encode_Credential (c : pb.Credential) : list byte :=
  ordered_fields
    [ (pb.num_node_id, encode_bytes_field pb.num_node_id (pb.NodeId c));
      (pb.num_operator_type, encode_varint_field pb.num_operator_type (pb.OperatorType c));
      (pb.num_timestamp, encode_varint_field pb.num_timestamp (pb.Timestamp c)) ]
  ++ pb.unknownFields c.

(** A nil [*pb.Credential] encodes as no bytes. *)
Definition encode_Credential_ptr (c : option pb.Credential) : list byte :=
  match c with
  | None => []
  | Some c => encode_Credential c
  end.

Definition encode_message_field (num : Z) (c : option pb.Credential) : list byte :=
  match c with
  | None => []
  | Some c =>
      protowire.AppendTag num protowire.BytesType ++ protowire.AppendBytes (encode_Credential c)
  end.

Definition encode_AuthenticatedCredential (m : AuthenticatedCredential_message) : list byte :=
  ordered_fields
    [ (pb.num_credential, encode_message_field pb.num_credential (msg_credential m));
      (pb.num_mac, encode_bytes_field pb.num_mac (msg_mac m)) ]
  ++ msg_unknownFields m.

(** The tag of the next field: its number must be valid, and an end-group
    marker outside a group is an error. *)
Definition consume_field_tag (b : list byte) : result (Z * Z * list byte) :=
  '(tag, b1) ← protowire.ConsumeVarint b;
  let num := Z.shiftr tag 3 in
  let wtyp := Z.land tag 7 in
  if negb (pb.valid_number num) then Err proto_errDecode
  else if wtyp =? protowire.EndGroupType then Err proto_errDecode
  else Ok (num, wtyp, b1).

(** A field the message does not know, or knows with another wire type, is
    kept: its tag re-encoded, its value as it stood. *)
Definition consume_unknown (num wtyp : Z) (b1 : list byte) : result (list byte * list byte) :=
  b2 ← protowire.ConsumeFieldValue num wtyp b1;
  Ok (protowire.AppendTag num wtyp ++ take (length b1 - length b2) b1, b2).

Definition unmarshal_Credential_field (b : list byte) (c : pb.Credential)
  : result (pb.Credential * list byte) :=
  '(num, wtyp, b1) ← consume_field_tag b;
  if (num =? pb.num_node_id) && (wtyp =? protowire.BytesType) then
    '(v, b2) ← protowire.ConsumeBytes b1;
    Ok (pb.mkCredential v (pb.OperatorType c) (pb.Timestamp c) (pb.unknownFields c), b2)
  else if (num =? pb.num_operator_type) && (wtyp =? protowire.VarintType) then
    '(v, b2) ← protowire.ConsumeVarint b1;
    Ok (pb.mkCredential (pb.NodeId c) (int32 v) (pb.Timestamp c) (pb.unknownFields c), b2)
  else if (num =? pb.num_timestamp) && (wtyp =? protowire.VarintType) then
    '(v, b2) ← protowire.ConsumeVarint b1;
    Ok (pb.mkCredential (pb.NodeId c) (pb.OperatorType c) (int64 v) (pb.unknownFields c), b2)
  else
    '(u, b2) ← consume_unknown num wtyp b1;
    Ok (pb.mkCredential (pb.NodeId c) (pb.OperatorType c) (pb.Timestamp c)
          (pb.unknownFields c ++ u), b2).

(** The decoding loop: fields until the input is used up. Every field takes
    at least one byte, so [fuel] at the input's length is enough. *)
Fixpoint unmarshal_Credential_fields (fuel : nat) (b : list byte) (c : pb.Credential)
  : result pb.Credential :=
  match b, fuel with
  | [], _ => Ok c
  | _, O => Err proto_errDecode
  | _, S fuel' =>
      '(c', rest) ← unmarshal_Credential_field b c;
      unmarshal_Credential_fields fuel' rest c'
  end.

Definition unmarshal_Credential (b : list byte) (c : pb.Credential) : result pb.Credential :=
  unmarshal_Credential_fields (length b) b c.

(** A [credential] field that comes again is merged into the message the
    first one made. *)
Definition unmarshal_AuthenticatedCredential_field (b : list byte)
    (m : AuthenticatedCredential_message)
  : result (AuthenticatedCredential_message * list byte) :=
  '(num, wtyp, b1) ← consume_field_tag b;
  if (num =? pb.num_credential) && (wtyp =? protowire.BytesType) then
    '(v, b2) ← protowire.ConsumeBytes b1;
    c ← unmarshal_Credential v (default pb.Credential_zero (msg_credential m));
    Ok (mkMessage (Some c) (msg_mac m) (msg_unknownFields m), b2)
  else if (num =? pb.num_mac) && (wtyp =? protowire.BytesType) then
    '(v, b2) ← protowire.ConsumeBytes b1;
    Ok (mkMessage (msg_credential m) v (msg_unknownFields m), b2)
  else
    '(u, b2) ← consume_unknown num wtyp b1;
    Ok (mkMessage (msg_credential m) (msg_mac m) (msg_unknownFields m ++ u), b2).

Fixpoint unmarshal_AuthenticatedCredential_fields (fuel : nat) (b : list byte)
    (m : AuthenticatedCredential_message) : result AuthenticatedCredential_message :=
  match b, fuel with
  | [], _ => Ok m
  | _, O => Err proto_errDecode
  | _, S fuel' =>
      '(m', rest) ← unmarshal_AuthenticatedCredential_field b m;
      unmarshal_AuthenticatedCredential_fields fuel' rest m'
  end.

(** [proto.Unmarshal] resets the message and decodes into it. *)
Definition decode_AuthenticatedCredential (b : list byte)
  : result AuthenticatedCredential_message :=
  unmarshal_AuthenticatedCredential_fields (length b) b message_zero.

End wire.

(** [proto.Marshal] returns the encoding or an error. Which messages the
    library rejects is left open: [Marshal_error] gives the error, if any,
    reported for the message with this encoding. *)
Class proto_runtime := {
  Marshal_error : list byte -> option error
}.

Definition proto_Marshal_bytes {Rt : proto_runtime} (wire : list byte) : result (list byte) :=
  match Marshal_error wire with
  | Some e => Err e
  | None => Ok wire
  end.

(** The runtime in which [proto.Marshal] accepts every message, and one in
    which it rejects every message with the error [e]. *)
Definition runtime_no_error : proto_runtime := {| Marshal_error := fun _ => None |}.
Definition runtime_error (e : error) : proto_runtime := {| Marshal_error := fun _ => Some e |}.

(** ** [encoding/json], on parsed documents *)

(** A JSON number is an integer literal or one with a fraction or an
    exponent, which no integer field accepts. *)
Inductive json_number : Type :=
  | JInt (z : Z)
  | JReal.

Inductive json : Type :=
  | JNull
  | JBool (b : bool)
  | JNumber (n : json_number)
  | JString (s : string)
  | JArray (items : list json)
  | JObject (members : list (string * json)).

(** [jsonAuthenticatedCredential]. *)
Record jsonAuthenticatedCredential := mkJson {
  json_NodeID : string;
  json_Timestamp : Z;
  json_OperatorType : Z;
  json_Mac : string
}.

Definition json_zero : jsonAuthenticatedCredential := mkJson "" 0 0 "".

(** [json.Marshal] of the struct: its fields in order under their tags. The
    strings the program passes are hexadecimal and base64 text, which the
    encoder writes unchanged. *)
Definition json_Marshal (j : jsonAuthenticatedCredential) : json :=
  JObject
    [ ("node_id", JString (json_NodeID j));
      ("timestamp", JNumber (JInt (json_Timestamp j)));
      ("operator_type", JNumber (JInt (json_OperatorType j)));
      ("mac", JString (json_Mac j)) ]%string.

Definition ascii_lower (c : ascii) : ascii :=
  let n := ascii_to_Z c in
  if (65 <=? n) && (n <=? 90) then ascii_of_Z (n + 32) else c.

(** The fold under which [encoding/json] compares a key with a field name:
    Unicode simple case folding. On the way to the lower-case ASCII names of
    this struct it takes an ASCII capital to its small letter, the long s
    (U+017F, the bytes [C5 BF]) to [s] and the Kelvin sign (U+212A, the bytes
    [E2 84 AA]) to [k]; every other character stays, and is no ASCII
    letter. *)
Fixpoint json_fold (s : string) : string :=
  match s with
  | EmptyString => EmptyString
  | String c rest =>
      match rest with
      | EmptyString => String (ascii_lower c) EmptyString
      | String c1 rest1 =>
          if (ascii_to_Z c =? 0xc5) && (ascii_to_Z c1 =? 0xbf)
          then String "s" (json_fold rest1)
          else
            match rest1 with
            | EmptyString => String (ascii_lower c) (json_fold rest)
            | String c2 rest2 =>
                if (ascii_to_Z c =? 0xe2) && (ascii_to_Z c1 =? 0x84)
                   && (ascii_to_Z c2 =? 0xaa)
                then String "k" (json_fold rest2)
                else String (ascii_lower c) (json_fold rest)
            end
      end
  end.

(** A key names a field when it folds to the field's name (the names are
    lower-case ASCII, so an exact match is one such). *)
Definition key_is (key name : string) : bool :=
  bool_decide (json_fold key = name).

Definition decode_string_field (name : string) (v : json) (old : string) : result string :=
  match v with
  | JString s => Ok s
  | JNull => Ok old
  | _ => Err (json_UnmarshalTypeError name)
  end.

Definition decode_int_field (name : string) (bits : Z) (v : json) (old : Z) : result Z :=
  match v with
  | JNumber (JInt z) =>
      if (- 2 ^ (bits - 1) <=? z) && (z <? 2 ^ (bits - 1)) then Ok z
      else Err (json_UnmarshalTypeError name)
  | JNull => Ok old
  | _ => Err (json_UnmarshalTypeError name)
  end.

(** One member of the object: a value of the wrong type leaves the field as
    it was and is remembered as the error, if it is the first. *)
Definition decode_member (st : jsonAuthenticatedCredential * option error)
    (kv : string * json) : jsonAuthenticatedCredential * option error :=
  let '(j, err) := st in
  let '(key, v) := kv in
  let keep {A} (r : result A) (old : A) : A * option error :=
    match r with
    | Ok x => (x, err)
    | Err e => (old, match err with Some e0 => Some e0 | None => Some e end)
    end in
  if key_is key "node_id" then
    let '(x, err') := keep (decode_string_field "node_id" v (json_NodeID j)) (json_NodeID j) in
    (mkJson x (json_Timestamp j) (json_OperatorType j) (json_Mac j), err')
  else if key_is key "timestamp" then
    let '(x, err') := keep (decode_int_field "timestamp" 64 v (json_Timestamp j)) (json_Timestamp j) in
    (mkJson (json_NodeID j) x (json_OperatorType j) (json_Mac j), err')
  else if key_is key "operator_type" then
    let '(x, err') := keep (decode_int_field "operator_type" 32 v (json_OperatorType j))
                           (json_OperatorType j) in
    (mkJson (json_NodeID j) (json_Timestamp j) x (json_Mac j), err')
  else if key_is key "mac" then
    let '(x, err') := keep (decode_string_field "mac" v (json_Mac j)) (json_Mac j) in
    (mkJson (json_NodeID j) (json_Timestamp j) (json_OperatorType j) x, err')
  else (j, err).

(** [json.Unmarshal(data, &j)] with [j] zero: [data] that is not JSON text
    ([None]) is a syntax error; [null] changes nothing; an object is decoded
    member by member; any other value is a type error. *)
Definition json_Unmarshal (data : option json) : result jsonAuthenticatedCredential :=
  match data with
  | None => Err json_SyntaxError
  | Some JNull => Ok json_zero
  | Some (JObject members) =>
      match fold_left decode_member members (json_zero, None) with
      | (j, None) => Ok j
      | (_, Some e) => Err e
      end
  | Some _ => Err (json_UnmarshalTypeError "")
  end.

(** ** The store of Go objects *)

(** [AuthenticatedCredential], the struct of [pb.AuthenticatedCredential]:
    [Credential] is a pointer, nil when [None]. *)
Record AuthenticatedCredential := mkAuthenticatedCredential {
  Credential : option loc;
  Mac : list byte;
  unknownFields : list byte
}.

Definition AuthenticatedCredential_zero : AuthenticatedCredential :=
  mkAuthenticatedCredential None [] [].

(** What a [sync.Pool] holds is of type [any]: a hash, or something else that
    a caller has [Put] there ([CredentialManager] embeds the pool, so its
    [Put] is exported). *)
Inductive any : Type :=
  | any_Hash (h : hmac_hash)
  | any_other.

(** [CredentialManager]: the key that the pool's [New] closes over, and the
    items in the pool. *)
Record CredentialManager := mkCredentialManager {
  key : list byte;
  pool : list any
}.

Record store := mkStore {
  credentials : gmap loc pb.Credential;
  envelopes : gmap loc AuthenticatedCredential;
  managers : gmap loc CredentialManager
}.

Definition store_empty : store := mkStore ∅ ∅ ∅.

(** A call returns a value and the store it leaves, or panics. *)
Inductive outcome (A : Type) : Type :=
  | Returns (v : A) (σ : store)
  | Panics.
Arguments Returns {A} v σ.
Arguments Panics {A}.

Definition go (A : Type) : Type := store -> outcome A.

Global Instance go_ret : MRet go := fun A v σ => Returns v σ.
Global Instance go_bind : MBind go := fun A B f m σ =>
  match m σ with
  | Returns v σ' => f v σ'
  | Panics => Panics
  end.

Definition panic {A} : go A := fun _ => Panics.

(** Reading through a pointer: a nil pointer, or one to no object, panics. *)
Definition load_Credential (p : option loc) : go pb.Credential := fun σ =>
  match p with
  | Some l =>
      match credentials σ !! l with
      | Some c => Returns c σ
      | None => Panics
      end
  | None => Panics
  end.

Definition store_Credential (p : option loc) (c : pb.Credential) : go unit := fun σ =>
  match p with
  | Some l =>
      match credentials σ !! l with
      | Some _ => Returns tt (mkStore (<[l := c]> (credentials σ)) (envelopes σ) (managers σ))
      | None => Panics
      end
  | None => Panics
  end.

(** [&pb.Credential{...}]: a new object at a pointer not in use. *)
Definition new_Credential (c : pb.Credential) : go loc := fun σ =>
  let l := fresh (dom (credentials σ)) in
  Returns l (mkStore (<[l := c]> (credentials σ)) (envelopes σ) (managers σ)).

Definition load_envelope (l : loc) : go AuthenticatedCredential := fun σ =>
  match envelopes σ !! l with
  | Some a => Returns a σ
  | None => Panics
  end.

Definition store_envelope (l : loc) (a : AuthenticatedCredential) : go unit := fun σ =>
  match envelopes σ !! l with
  | Some _ => Returns tt (mkStore (credentials σ) (<[l := a]> (envelopes σ)) (managers σ))
  | None => Panics
  end.

(** A local [AuthenticatedCredential{}] whose address is taken. *)
Definition new_envelope (a : AuthenticatedCredential) : go loc := fun σ =>
  let l := fresh (dom (envelopes σ)) in
  Returns l (mkStore (credentials σ) (<[l := a]> (envelopes σ)) (managers σ)).

(** The end of the life of a local that did not escape. *)
Definition drop_envelope (l : loc) : go unit := fun σ =>
  Returns tt (mkStore (credentials σ) (delete l (envelopes σ)) (managers σ)).

Definition load_manager (l : loc) : go CredentialManager := fun σ =>
  match managers σ !! l with
  | Some m => Returns m σ
  | None => Panics
  end.

Definition store_manager (l : loc) (m : CredentialManager) : go unit := fun σ =>
  match managers σ !! l with
  | Some _ => Returns tt (mkStore (credentials σ) (envelopes σ) (<[l := m]> (managers σ)))
  | None => Panics
  end.

Definition new_manager (m : CredentialManager) : go loc := fun σ =>
  let l := fresh (dom (managers σ)) in
  Returns l (mkStore (credentials σ) (envelopes σ) (<[l := m]> (managers σ))).

(** The message a pointer stands for in a store, when the pointer and the
    one inside it, if not nil, are to objects. *)
Definition read_envelope (σ : store) (l : loc) : option AuthenticatedCredential_message :=
  match envelopes σ !! l with
  | Some a =>
      match Credential a with
      | None => Some (mkMessage None (Mac a) (unknownFields a))
      | Some p =>
          match credentials σ !! p with
          | Some c => Some (mkMessage (Some c) (Mac a) (unknownFields a))
          | None => None
          end
      end
  | None => None
  end.

(** A pool that only [authenticateCredential] has used holds hashes that
    [New] made and [Reset] cleared. *)
Definition pool_ok (m : CredentialManager) : Prop :=
  Forall (fun x => x = any_Hash (hmac_New (key m))) (pool m).

(** [time.Time], of which the program reads [Unix()]: the seconds since the
    epoch, an [int64]. *)
Record Time := mkTime { seconds : Z; nanoseconds : Z }.
Definition Time_Unix (t : Time) : Z := int64 (seconds t).

(** ** The protobuf library on objects of the store *)

Section credentials.
Context {Sch : pb.schema} {Rt : proto_runtime} {Gr : go_runtime}.

(** The message a pointer to an [AuthenticatedCredential] stands for. *)
Definition read_message (a : AuthenticatedCredential)
  : go AuthenticatedCredential_message :=
  match Credential a with
  | None => mret (mkMessage None (Mac a) (unknownFields a))
  | Some l =>
      c ← load_Credential (Some l);
      mret (mkMessage (Some c) (Mac a) (unknownFields a))
  end.

(** [proto.Marshal(credential.Credential)]: a nil pointer is an empty
    message. *)
Definition proto_Marshal_Credential (p : option loc) : go (result (list byte)) :=
  match p with
  | None => mret (proto_Marshal_bytes [])
  | Some l =>
      c ← load_Credential (Some l);
      mret (proto_Marshal_bytes (encode_Credential c))
  end.

(** [proto.Marshal(ac.Pb())]. *)
Definition proto_Marshal (ac : loc) : go (result (list byte)) :=
  a ← load_envelope ac;
  m ← read_message a;
  mret (proto_Marshal_bytes (encode_AuthenticatedCredential m)).

(** [ac.Pb().Reset()]: the struct becomes the zero value; the credential it
    pointed to is left as it is. *)
Definition Reset (ac : loc) : go unit :=
  _ ← load_envelope ac;
  store_envelope ac AuthenticatedCredential_zero.

(** [proto.Unmarshal(b, m)]: the message is reset, then filled from the
    wire; the inner message, when the wire has one, is a new object. On an
    error the message is left reset (the program drops it). *)
Definition proto_Unmarshal (b : list byte) (ac : loc) : go (option error) :=
  _ ← Reset ac;
  match decode_AuthenticatedCredential b with
  | Err e => mret (Some e)
  | Ok m =>
      p ← match msg_credential m with
          | None => mret None
          | Some c => l ← new_Credential c; mret (Some l)
          end;
      _ ← store_envelope ac (mkAuthenticatedCredential p (msg_mac m) (msg_unknownFields m));
      mret None
  end.

(** Merging a proto3 message without presence: a field of the source that is
    not zero replaces the destination's; unknown fields are appended. *)
Definition merge_Credential (dst src : pb.Credential) : pb.Credential :=
  pb.mkCredential
    (if bool_decide (pb.NodeId src = []) then pb.NodeId dst else pb.NodeId src)
    (if pb.OperatorType src =? 0 then pb.OperatorType dst else pb.OperatorType src)
    (if pb.Timestamp src =? 0 then pb.Timestamp dst else pb.Timestamp src)
    (pb.unknownFields dst ++ pb.unknownFields src).

(** [proto.Merge(dst, src)]: the inner message of the source is merged into
    the destination's, which is made when the destination has none; nothing
    of the source is shared. *)
Definition proto_Merge (dst src : loc) : go unit :=
  s ← load_envelope src;
  d ← load_envelope dst;
  p ← match Credential s with
      | None => mret (Credential d)
      | Some sl =>
          sc ← load_Credential (Some sl);
          dl ← match Credential d with
               | Some dl => mret dl
               | None => new_Credential pb.Credential_zero
               end;
          dc ← load_Credential (Some dl);
          _ ← store_Credential (Some dl) (merge_Credential dc sc);
          mret (Some dl)
      end;
  store_envelope dst
    (mkAuthenticatedCredential p
       (if bool_decide (Mac s = []) then Mac d else Mac s)
       (unknownFields d ++ unknownFields s)).

(** Assignments to the fields of a message through its pointer:
    [ac.Mac = v], [ac.Credential = p] and [ac.Credential.NodeId = v] (which
    panics when [ac.Credential] is nil), and so on. *)
Definition set_Mac (ac : loc) (v : list byte) : go unit :=
  a ← load_envelope ac;
  store_envelope ac (mkAuthenticatedCredential (Credential a) v (unknownFields a)).

Definition set_Credential (ac : loc) (p : option loc) : go unit :=
  a ← load_envelope ac;
  store_envelope ac (mkAuthenticatedCredential p (Mac a) (unknownFields a)).

Definition set_NodeId (ac : loc) (v : list byte) : go unit :=
  a ← load_envelope ac;
  c ← load_Credential (Credential a);
  store_Credential (Credential a)
    (pb.mkCredential v (pb.OperatorType c) (pb.Timestamp c) (pb.unknownFields c)).

Definition set_OperatorType (ac : loc) (v : Z) : go unit :=
  a ← load_envelope ac;
  c ← load_Credential (Credential a);
  store_Credential (Credential a)
    (pb.mkCredential (pb.NodeId c) v (pb.Timestamp c) (pb.unknownFields c)).

Definition set_Timestamp (ac : loc) (v : Z) : go unit :=
  a ← load_envelope ac;
  c ← load_Credential (Credential a);
  store_Credential (Credential a)
    (pb.mkCredential (pb.NodeId c) (pb.OperatorType c) v (pb.unknownFields c)).

(** ** [credentials.go] *)

(** [MarshalJSON]. The write of the MAC into the base64 encoder cannot fail
    (the encoder writes to a [bytes.Buffer]), so that branch is left out. *)
Definition MarshalJSON (ac : loc) : go (result json) :=
  a ← load_envelope ac;
  c ← load_Credential (Credential a);
  let nodeID := ("0x" ++ hex_EncodeToString (pb.NodeId c))%string in
  let mac := base64_URLEncoding_EncodeToString (Mac a) in
  mret (Ok (json_Marshal
              {| json_NodeID := nodeID;
                 json_Timestamp := pb.Timestamp c;
                 json_OperatorType := pb.OperatorType c;
                 json_Mac := mac |})).

(** [UnmarshalJSON]. [data] is the parsed document, [None] when the bytes
    are not JSON. *)
Definition UnmarshalJSON (ac : loc) (data : option json) : go (option error) :=
  _ ← Reset ac;
  match json_Unmarshal data with
  | Err err => mret (Some err)
  | Ok j =>
      p ← new_Credential pb.Credential_zero;
      _ ← set_Credential ac (Some p);
      match base64_URLEncoding_decode_all (json_Mac j) with
      | Err err => mret (Some err)
      | Ok decoded =>
          match hex_DecodeString (TrimPrefix_0x (json_NodeID j)) with
          | Err err => mret (Some err)
          | Ok nodeID =>
              _ ← set_NodeId ac nodeID;
              _ ← set_OperatorType ac (json_OperatorType j);
              _ ← set_Timestamp ac (json_Timestamp j);
              _ ← set_Mac ac decoded;
              mret None
          end
      end
  end.

(** [Base64URLEncodeUsername]. *)
Definition Base64URLEncodeUsername (ac : loc) : go string :=
  a ← load_envelope ac;
  c ← load_Credential (Credential a);
  mret (base64_URLEncoding_EncodeToString (pb.NodeId c)).

(** [Base64URLEncodePassword]: the node id is saved and set to nil, the
    message is marshaled, and the node id is put back; when [proto.Marshal]
    fails the function returns before that. *)
Definition Base64URLEncodePassword (ac : loc) : go (result string) :=
  a ← load_envelope ac;
  c ← load_Credential (Credential a);
  let nodeID := pb.NodeId c in
  _ ← set_NodeId ac [];
  r ← proto_Marshal ac;
  match r with
  | Err err => mret (Err err)
  | Ok marshaled =>
      _ ← set_NodeId ac nodeID;
      mret (Ok (base64_URLEncoding_EncodeToString marshaled))
  end.

(** [Base64URLDecode]. [newCred] is a local that does not outlive the call. *)
Definition Base64URLDecode (ac : loc) (username password : string) : go (option error) :=
  match base64_URLEncoding_decode_all username with
  | Err err => mret (Some err)
  | Ok nodeID =>
      match base64_URLEncoding_decode_all password with
      | Err err => mret (Some err)
      | Ok decoded =>
          newCred ← new_envelope AuthenticatedCredential_zero;
          err ← proto_Unmarshal decoded newCred;
          match err with
          | Some err => _ ← drop_envelope newCred; mret (Some err)
          | None =>
              _ ← Reset ac;
              _ ← proto_Merge ac newCred;
              _ ← set_NodeId ac nodeID;
              _ ← drop_envelope newCred;
              mret None
          end
      end
  end.

(** [NewCredentialManager]: a pool with no item yet, whose [New] makes
    [hmac.New(sha256.New, key)]. *)
Definition NewCredentialManager (k : list byte) : go loc :=
  new_manager (mkCredentialManager k []).

(** [c.Get()]: an item of the pool, or what [New] makes when it is empty.
    [sync.Pool] may hand out any item or none; the model takes the first. *)
Definition Pool_Get (c : loc) : go any :=
  m ← load_manager c;
  match pool m with
  | [] => mret (any_Hash (hmac_New (key m)))
  | x :: rest =>
      _ ← store_manager c (mkCredentialManager (key m) rest);
      mret x
  end.

Definition Pool_Put (c : loc) (x : any) : go unit :=
  m ← load_manager c;
  store_manager c (mkCredentialManager (key m) (x :: pool m)).

(** [authenticateCredential]. *)
Definition authenticateCredential (c : loc) (credential : loc) : go (option error) :=
  a ← load_envelope credential;
  r ← proto_Marshal_Credential (Credential a);
  match r with
  | Err err => mret (Some (errors_Wrap err "Error serializing HMAC protobuf body"))
  | Ok bytes =>
      x ← Pool_Get c;
      match x with
      | any_Hash h =>
          let h := hash_Write h bytes in
          _ ← set_Mac credential (hash_Sum h []);
          let h := hash_Reset h in
          _ ← Pool_Put c (any_Hash h);
          mret None
      | any_other => mret (Some (errors_New "Couldn't retrieve available hash from pool"))
      end
  end.

(** [Create]. *)
Definition Create (c : loc) (timestamp : Time) (nodeID : list byte) (OperatorType : Z)
  : go (result loc) :=
  if negb (length nodeID =? 20)%nat then
    mret (Err (fmt_Errorf "invalid nodeID length. Expected 20, got %d"
                 (Z.of_nat (length nodeID))))
  else
    message ← new_envelope AuthenticatedCredential_zero;
    p ← new_Credential pb.Credential_zero;
    _ ← set_Credential message (Some p);
    _ ← set_NodeId message nodeID;
    _ ← set_OperatorType message OperatorType;
    _ ← set_Timestamp message (Time_Unix timestamp);
    err ← authenticateCredential c message;
    match err with
    | Some err => mret (Err err)
    | None => mret (Ok message)
    end.

(** [Verify]. [tmp] is a local that borrows the inner message of the
    argument and does not outlive the call. *)
Definition Verify (c : loc) (authenticatedCredential : loc) : go (option error) :=
  tmp ← new_envelope AuthenticatedCredential_zero;
  a ← load_envelope authenticatedCredential;
  _ ← set_Credential tmp (Credential a);
  err ← authenticateCredential c tmp;
  match err with
  | Some err =>
      _ ← drop_envelope tmp;
      mret (Some (errors_Wrap err "Error while re-creating the MAC"))
  | None =>
      t ← load_envelope tmp;
      a ← load_envelope authenticatedCredential;
      _ ← drop_envelope tmp;
      if negb (hmac_Equal (Mac t) (Mac a))
      then mret (Some (errors_New "credential MAC mismatch"))
      else mret None
  end.

End credentials.

(** ** A scenario to compute with *)

(** A key of 32 bytes, the node id [0x01 .. 0x14], the operator type 0 and
    the timestamp 1700000000; a store with one manager; and the store after
    the manager issued the credential, with a second, empty message for the
    decoders to fill. *)
Definition example_key : list byte := map (fun n => byte_of_Z (Z.of_nat n)) (seq 0 32).
Definition example_node_id : list byte := map (fun n => byte_of_Z (Z.of_nat n)) (seq 1 20).
Definition example_time : Time := mkTime 1700000000 0.
Definition example_manager : CredentialManager := mkCredentialManager example_key [].

Definition example_credential : pb.Credential :=
  pb.mkCredential example_node_id 0 1700000000 [].
Definition example_mac : list byte :=
  hmac_sha256 example_key (encode_Credential (Sch := pb.schema_in_order) example_credential).
Definition example_message : AuthenticatedCredential_message :=
  mkMessage (Some example_credential) example_mac [].

Definition example_store : store :=
  mkStore ∅ ∅ {[1%positive := example_manager]}.
Definition issued_store : store :=
  mkStore {[1%positive := example_credential]}
    {[1%positive := mkAuthenticatedCredential (Some 1%positive) example_mac [];
      2%positive := AuthenticatedCredential_zero]}
    {[1%positive := example_manager]}.


(** ** Well-formed values and the notions of the statements *)

(** The values a Go program can hold in a [pb.Credential]: a slice has an
    [int] length, the enum is an [int32], the timestamp an [int64]. *)
Definition wf_Credential (c : pb.Credential) : Prop :=
  Z.of_nat (length (pb.NodeId c)) < 2 ^ 63
  /\ - 2 ^ 31 <= pb.OperatorType c < 2 ^ 31
  /\ - 2 ^ 63 <= pb.Timestamp c < 2 ^ 63.

(** The messages whose encoding is read back as it was: well-formed values
    and no unknown fields. *)
Definition wf_message (m : AuthenticatedCredential_message) : Prop :=
  (forall c, msg_credential m = Some c -> wf_Credential c /\ pb.unknownFields c = [])
  /\ Z.of_nat (length (msg_mac m)) < 2 ^ 63
  /\ msg_unknownFields m = [].

(** The inner message with its node id set to nil, as
    [Base64URLEncodePassword] marshals it. *)
Definition blank (c : pb.Credential) : pb.Credential :=
  pb.mkCredential [] (pb.OperatorType c) (pb.Timestamp c) (pb.unknownFields c).

(** What [c.Get()] hands out, and what it leaves in the pool. *)
Definition pool_take (m : CredentialManager) : any * list any :=
  match pool m with
  | [] => (any_Hash (hmac_New (key m)), [])
  | x :: rest => (x, rest)
  end.



(** Text the base64 decoder rejects: a character that is neither of the URL
    alphabet, nor padding, nor a line break, or a length, line breaks aside,
    that is no multiple of four. *)
Definition malformed_base64 (s : string) : Prop :=
  (exists c, In c (list_ascii_of_string s)
             /\ base64_decodeMap c = None /\ is_pad c = false /\ is_newline c = false)
  \/ (length (List.filter (fun c => negb (is_newline c)) (list_ascii_of_string s)) mod 4
      <> 0)%nat.

(** What a decoder called on the receiver [ac] leaves alone: the managers,
    every other message, and every inner message that was there before the
    call, the one the receiver pointed to among them. *)
Definition others_kept (ac : loc) (σ σ' : store) : Prop :=
  managers σ' = managers σ
  /\ (forall l, l <> ac -> envelopes σ' !! l = envelopes σ !! l)
  /\ (forall l x, credentials σ !! l = Some x -> credentials σ' !! l = Some x).

(** The characters of a token: the URL alphabet and the padding. *)
Definition url_safe (c : ascii) : bool :=
  match base64_decodeMap c with
  | Some _ => true
  | None => is_pad c
  end.

(** The issued credential with its timestamp moved by a second, under the
    MAC it was issued with. *)
Definition example_modified : pb.Credential :=
  pb.mkCredential example_node_id 0 1700000001 [].
Definition modified_store : store :=
  mkStore {[1%positive := example_modified]}
    {[1%positive := mkAuthenticatedCredential (Some 1%positive) example_mac []]}
    {[1%positive := example_manager]}.

(** The store [Create] leaves when the manager of [example_store] issues the
    credential: the message, its inner message, and the hash back in the
    pool. *)
Definition created_store : store :=
  mkStore {[1%positive := example_credential]}
    {[1%positive := mkAuthenticatedCredential (Some 1%positive) example_mac []]}
    {[1%positive := mkCredentialManager example_key [any_Hash (hmac_New example_key)]]}.

(** A store with the issued credential, a message for another node, and an
    empty message for the decoder to fill. *)
Definition example_other_node_id : list byte :=
  map (fun n => byte_of_Z (Z.of_nat n)) (seq 21 20).
Definition example_other : pb.Credential :=
  pb.mkCredential example_other_node_id 0 1700000000 [].
Definition two_store : store :=
  mkStore {[1%positive := example_credential; 2%positive := example_other]}
    {[1%positive := mkAuthenticatedCredential (Some 1%positive) example_mac [];
      2%positive := mkAuthenticatedCredential (Some 2%positive) [] [];
      3%positive := AuthenticatedCredential_zero]}
    {[1%positive := example_manager]}.

(** Padding that does not end the text: a padding character with a
    character after it that is no padding. *)
Definition misplaced_padding (src : list ascii) : Prop :=
  exists pre c post,
    src = pre ++ c :: post /\ is_pad c = true
    /\ exists c', In c' post /\ is_pad c' = false.

(** The text of a string without its line breaks. *)
Definition text_of (s : string) : list ascii :=
  List.filter (fun c => negb (is_newline c)) (list_ascii_of_string s).

(** The stream of characters a decoder has still to decode, and the invariant
    and the measure of its state: after the reader has reported the end no
    text is left, and every [Read] that returns bytes makes the state
    smaller. *)
Definition stream_rest (d : decoder) : list ascii :=
  dec_buf d ++ List.filter (fun c => negb (is_newline c)) (dec_raw d).

Definition decoder_ok (d : decoder) : Prop := dec_eof d = true -> dec_raw d = [].

Definition decoder_size (d : decoder) : nat :=
  (length (dec_raw d) + length (dec_buf d) + length (dec_out d))%nat.

(** Text of 684 characters with padding at the end of the first 680, where
    the first [Read] of the stream decoder ends, and a quantum after it. *)
Definition padded_chunk_text : string :=
  string_of_list_ascii
    (repeat "A"%char 676 ++ ["A"; "A"; "="; "="]%char ++ ["A"; "A"; "="; "="]%char).

(** ** Devices of the proofs *)

(** Linear arithmetic with division and remainder by constants. *)
Ltac dlia := Z.div_mod_to_equations; lia.

(** Both decoding loops are instances of one loop over a step function. The
    encoder writes a message as the concatenation of its fields, each empty
    or one field on the wire; [processes step e u] says the decoder turns the
    bytes [e] into the update [u] of the message. *)
Section decode_loop.
Context {M : Type} (step : list byte -> M -> result (M * list byte)).

Fixpoint decode_loop (fuel : nat) (b : list byte) (m : M) : result M :=
  match b, fuel with
  | [], _ => Ok m
  | _, O => Err proto_errDecode
  | _, S fuel' => '(m', rest) ← step b m; decode_loop fuel' rest m'
  end.

Definition processes (e : list byte) (u : M -> option M) : Prop :=
  (e = [] /\ forall m, u m = Some m)
  \/ (e <> [] /\ forall rest m m', u m = Some m' -> step (e ++ rest) m = Ok (m', rest)).

Fixpoint apply_all (us : list (M -> option M)) (m : M) : option M :=
  match us with
  | [] => Some m
  | u :: us' => u m ≫= apply_all us'
  end.

End decode_loop.

(** The updates the fields of a [pb.Credential] stand for: a zero value is
    not on the wire and leaves the field as it is. *)
Definition put_NodeId (v : list byte) (c : pb.Credential) : option pb.Credential :=
  Some (pb.mkCredential (if bool_decide (v = []) then pb.NodeId c else v)
          (pb.OperatorType c) (pb.Timestamp c) (pb.unknownFields c)).
Definition put_OperatorType (v : Z) (c : pb.Credential) : option pb.Credential :=
  Some (pb.mkCredential (pb.NodeId c) (if v =? 0 then pb.OperatorType c else v)
          (pb.Timestamp c) (pb.unknownFields c)).
Definition put_Timestamp (v : Z) (c : pb.Credential) : option pb.Credential :=
  Some (pb.mkCredential (pb.NodeId c) (pb.OperatorType c)
          (if v =? 0 then pb.Timestamp c else v) (pb.unknownFields c)).

(** The updates the fields of a [pb.AuthenticatedCredential] stand for. A
    second [credential] field would be merged into the first, which the
    encoder never writes. *)
Definition put_credential (c : option pb.Credential) (m : AuthenticatedCredential_message)
  : option AuthenticatedCredential_message :=
  match c, msg_credential m with
  | None, _ => Some m
  | Some c, None => Some (mkMessage (Some c) (msg_mac m) (msg_unknownFields m))
  | Some _, Some _ => None
  end.
Definition put_mac (v : list byte) (m : AuthenticatedCredential_message)
  : option AuthenticatedCredential_message :=
  Some (mkMessage (msg_credential m) (if bool_decide (v = []) then msg_mac m else v)
          (msg_unknownFields m)).

(** The cases of the order in which [ordered_fields] writes the fields. *)
Ltac order_fields :=
  unfold ordered_fields; cbn [fold_right insert_field fst snd];
  repeat (match goal with
          | |- context [Z.leb ?a ?b] => destruct (Z.leb a b)
          end;
          cbn [fold_right insert_field fst snd]);
  cbn [map snd].

(** Unfolds the monad and the accesses to the store, and rewrites the
    lookups that the context or the shape of the store decides. *)
Ltac go_simpl :=
  repeat first
    [ progress change (@mbind go _) with go_bind
    | progress change (@mret go _) with go_ret
    | progress unfold go_bind, go_ret, panic,
        load_Credential, store_Credential, new_Credential,
        load_envelope, store_envelope, new_envelope, drop_envelope,
        load_manager, store_manager, new_manager,
        set_Mac, set_Credential, set_NodeId, set_OperatorType, set_Timestamp,
        AuthenticatedCredential_zero
    | progress cbn beta iota
    | progress cbn [credentials envelopes managers
                    Credential Mac unknownFields key pool
                    pb.NodeId pb.OperatorType pb.Timestamp pb.unknownFields]
    | rewrite lookup_insert_eq
    | rewrite lookup_insert_ne by done
    | match goal with
      | H : ?m !! ?l = _ |- context [?m !! ?l] => rewrite H
      end ].


(** Inverts an equation saying that a decoder returned an error: the cases
    of its binds, conditionals and pairs. *)
Ltac err_cases H :=
  repeat first
    [ discriminate H
    | match type of H with
      | Err _ = Err _ => fail 1
      | mbind _ ?r = Err _ =>
          let E := fresh "E" in
          destruct r as [?|?] eqn:E;
          [ change (mbind ?f (Ok ?v)) with (f v) in H; cbn beta in H
          | change (mbind ?f (Err ?e)) with (@Err _ e) in H ]
      | (if ?c then _ else _) = Err _ => let E := fresh "E" in destruct c eqn:E
      | (let '(_, _) := ?p in _) = Err _ => destruct p
      | match ?p with (_, _) => _ end = Err _ => destruct p
      end ].


(** * Properties of the libraries *)

(** ** Bytes and bit operations *)

Lemma byte_to_Z_range (b : byte) : 0 <= byte_to_Z b < 256.
Proof.
  unfold byte_to_Z. pose proof (Byte.to_N_bounded b). lia.
Qed.

Lemma byte_of_to_Z (b : byte) : byte_of_Z (byte_to_Z b) = b.
Proof.
  unfold byte_of_Z. rewrite Z.mod_small by apply byte_to_Z_range.
  unfold byte_to_Z. by rewrite N2Z.id, Byte.of_to_N.
Qed.

Lemma byte_to_of_Z (z : Z) : byte_to_Z (byte_of_Z z) = z mod 256.
Proof.
  unfold byte_of_Z, byte_to_Z.
  assert (0 <= z mod 256 < 256) as Hr by (apply Z.mod_pos_bound; lia).
  destruct (Byte.of_N (Z.to_N (z mod 256))) as [b|] eqn:E.
  - apply Byte.to_of_N in E. rewrite E. lia.
  - apply Byte.of_N_None_iff in E. lia.
Qed.

Lemma byte_of_Z_eq (z : Z) (b : byte) : z mod 256 = byte_to_Z b -> byte_of_Z z = b.
Proof.
  intros E. rewrite <- (byte_of_to_Z b), <- E.
  unfold byte_of_Z. by rewrite Z.mod_mod by lia.
Qed.

Lemma byte_to_Z_inj (a b : byte) : byte_to_Z a = byte_to_Z b -> a = b.
Proof.
  intros E. by rewrite <- (byte_of_to_Z a), E, byte_of_to_Z.
Qed.

Lemma land_shiftl_small (x y n : Z) :
  0 <= n -> 0 <= y < 2 ^ n -> Z.land (Z.shiftl x n) y = 0.
Proof.
  intros Hn Hy. apply Z.bits_inj'. intros i Hi.
  rewrite Z.land_spec, Z.bits_0.
  destruct (Z.lt_ge_cases i n) as [Hlt|Hge].
  - by rewrite Z.shiftl_spec_low.
  - rewrite <- (Z.mod_small y (2 ^ n)) by lia.
    rewrite Z.mod_pow2_bits_high by lia. apply andb_false_r.
Qed.

(** Shifting left by [n] and OR-ing a value below [2 ^ n] is adding it. *)
Lemma lor_shiftl_add (x y n : Z) :
  0 <= n -> 0 <= y < 2 ^ n -> Z.lor (Z.shiftl x n) y = x * 2 ^ n + y.
Proof.
  intros Hn Hy.
  rewrite <- Z.lxor_lor by (by apply land_shiftl_small).
  rewrite <- Z.add_nocarry_lxor by (by apply land_shiftl_small).
  by rewrite Z.shiftl_mul_pow2.
Qed.

Lemma land_ones_mod (x n : Z) : 0 <= n -> Z.land x (Z.ones n) = x mod 2 ^ n.
Proof. apply Z.land_ones. Qed.

(** ** [hmac.Equal] decides equality *)

Lemma ConstantTimeCompare_fold_zero (l : list (byte * byte)) (v : Z) :
  0 <= v ->
  fold_left (fun v xy => Z.lor v (Z.lxor (byte_to_Z (fst xy)) (byte_to_Z (snd xy)))) l v = 0
  <-> v = 0 /\ Forall (fun xy => fst xy = snd xy) l.
Proof.
  revert v. induction l as [|[a b] l IH]; intros v Hv; simpl.
  - split; [intros ->; split; [done | constructor] | by intros [-> _]].
  - pose proof (byte_to_Z_range a). pose proof (byte_to_Z_range b).
    assert (0 <= Z.lxor (byte_to_Z a) (byte_to_Z b)) by (apply Z.lxor_nonneg; lia).
    rewrite IH by (apply Z.lor_nonneg; lia).
    rewrite Z.lor_eq_0_iff, Z.lxor_eq_0_iff, Forall_cons. cbn [fst snd].
    split.
    + intros [[-> E] F]. by rewrite (byte_to_Z_inj _ _ E).
    + intros [-> [E F]]. by subst.
Qed.

Lemma combine_eq_Forall {A} (x y : list A) :
  length x = length y -> Forall (fun xy => fst xy = snd xy) (combine x y) -> x = y.
Proof.
  revert y. induction x as [|a x IH]; intros [|b y]; simpl; try done.
  intros [= E] F. apply Forall_cons in F as [E' F]. cbn [fst snd] in E'. subst b.
  f_equal. by apply IH.
Qed.

Lemma Forall_combine_same {A} (x : list A) :
  Forall (fun xy => fst xy = snd xy) (combine x x).
Proof. induction x; simpl; constructor; done. Qed.

Lemma hmac_Equal_true (x y : list byte) : hmac_Equal x y = true <-> x = y.
Proof.
  unfold hmac_Equal, ConstantTimeCompare.
  destruct (Nat.eqb_spec (length x) (length y)) as [E|E]; simpl.
  - match goal with |- context [fold_left ?f ?l ?v] =>
      pose proof (ConstantTimeCompare_fold_zero l v (Z.le_refl 0)) as F;
      destruct (Z.eqb_spec (fold_left f l v) 0) as [Z0|Z0] end.
    + split; [intros _|done]. apply combine_eq_Forall; [done|]. by apply F.
    + split; [done|]. intros ->. exfalso. apply Z0, F. split; [done|].
      apply Forall_combine_same.
  - split; [done|]. by intros ->.
Qed.

Lemma hmac_Equal_refl (x : list byte) : hmac_Equal x x = true.
Proof. by apply hmac_Equal_true. Qed.

Lemma hmac_Equal_false (x y : list byte) : hmac_Equal x y = false <-> x <> y.
Proof.
  rewrite <- hmac_Equal_true. destruct (hmac_Equal x y); split; congruence.
Qed.

(** ** [encoding/hex] *)

Lemma fromHexChar_hex_digit (n : Z) :
  0 <= n < 16 -> fromHexChar (hex_digit n) = Some n.
Proof.
  intros Hn.
  assert (forallb (fun k => bool_decide (fromHexChar (hex_digit (Z.of_nat k)) = Some (Z.of_nat k)))
            (seq 0 16) = true) as F by (by vm_compute).
  rewrite forallb_forall in F.
  assert (In (Z.to_nat n) (seq 0 16)) as Hin by (apply in_seq; lia).
  apply F in Hin. apply bool_decide_eq_true in Hin.
  by rewrite Z2Nat.id in Hin by lia.
Qed.

Lemma hex_nibbles (b : byte) :
  0 <= Z.shiftr (byte_to_Z b) 4 < 16 /\ 0 <= Z.land (byte_to_Z b) 0x0f < 16
  /\ byte_of_Z (Z.lor (Z.shiftl (Z.shiftr (byte_to_Z b) 4) 4) (Z.land (byte_to_Z b) 0x0f)) = b.
Proof.
  pose proof (byte_to_Z_range b) as Hb.
  change 0x0f with (Z.ones 4). rewrite land_ones_mod, Z.shiftr_div_pow2 by lia.
  change (2 ^ 4) with 16.
  split; [|split]; [dlia..|].
  rewrite lor_shiftl_add by (change (2 ^ 4) with 16; dlia).
  apply byte_of_Z_eq. change (2 ^ 4) with 16. dlia.
Qed.

(** Decoding what [hex.EncodeToString] wrote gives the bytes back. *)
Lemma hex_DecodeString_EncodeToString (l : list byte) :
  hex_DecodeString (hex_EncodeToString l) = Ok l.
Proof.
  induction l as [|b l IH]; [done|].
  destruct (hex_nibbles b) as (H1 & H2 & H3).
  cbn [hex_EncodeToString hex_DecodeString].
  rewrite !fromHexChar_hex_digit by done.
  rewrite IH. cbn. by rewrite H3.
Qed.

Lemma TrimPrefix_0x_prefixed (s : string) : TrimPrefix_0x ("0x" ++ s) = s.
Proof. done. Qed.


Lemma hex_DecodeString_Err (s : string) (e : error) :
  hex_DecodeString s = Err e -> decoding_error e = true.
Proof.
  assert (forall n s, (String.length s <= n)%nat ->
            hex_DecodeString s = Err e -> decoding_error e = true) as G;
    [|by apply (G (String.length s))].
  clear s. induction n as [|n IH]; intros s Hlen.
  - by destruct s; [|simpl in Hlen; lia].
  - destruct s as [|p [|q rest]]; cbn [hex_DecodeString]; [done|..].
    + destruct (fromHexChar p); by intros [= <-].
    + destruct (fromHexChar p); [|by intros [= <-]].
      destruct (fromHexChar q); [|by intros [= <-]].
      specialize (IH rest ltac:(simpl in Hlen; lia)).
      destruct (hex_DecodeString rest); [done|]. intros [= <-]. by apply IH.
Qed.




(** ** [encoding/base64] *)

Lemma lor_add (a b n : Z) :
  0 <= n -> a mod 2 ^ n = 0 -> 0 <= b < 2 ^ n -> Z.lor a b = a + b.
Proof.
  intros Hn Ha Hb.
  assert (a = Z.shiftl (a / 2 ^ n) n) as ->.
  { rewrite Z.shiftl_mul_pow2 by done. pose proof (Z.div_mod a (2 ^ n)). lia. }
  rewrite lor_shiftl_add by done. by rewrite Z.shiftl_mul_pow2.
Qed.

Lemma base64_char_props (n : Z) :
  0 <= n < 64 ->
  base64_decodeMap (base64_char n) = Some n
  /\ is_newline (base64_char n) = false /\ is_pad (base64_char n) = false.
Proof.
  intros Hn.
  assert (forallb (fun k =>
            bool_decide (base64_decodeMap (base64_char (Z.of_nat k)) = Some (Z.of_nat k))
            && negb (is_newline (base64_char (Z.of_nat k)))
            && negb (is_pad (base64_char (Z.of_nat k))))
            (seq 0 64) = true) as F by (by vm_compute).
  rewrite forallb_forall in F.
  assert (In (Z.to_nat n) (seq 0 64)) as Hin by (apply in_seq; lia).
  apply F in Hin. rewrite Z2Nat.id in Hin by lia.
  apply andb_prop in Hin as [Hin H3]. apply andb_prop in Hin as [H1 H2].
  apply bool_decide_eq_true in H1. apply negb_true_iff in H2, H3. done.
Qed.

Lemma sextet_range (x : Z) : 0 <= Z.land x 0x3f < 64.
Proof. change 0x3f with (Z.ones 6). rewrite land_ones_mod by lia. dlia. Qed.

Lemma base64_decodeMap_char (x : Z) :
  base64_decodeMap (base64_char (Z.land x 0x3f)) = Some (Z.land x 0x3f).
Proof. apply base64_char_props, sextet_range. Qed.

(** The value the encoder forms from three bytes, and the bytes the decoder
    takes from the value it forms from four sextets. *)
Lemma quantum_value (x y z : Z) :
  0 <= x < 256 -> 0 <= y < 256 -> 0 <= z < 256 ->
  Z.lor (Z.lor (Z.shiftl x 16) (Z.shiftl y 8)) z = x * 65536 + y * 256 + z.
Proof.
  intros Hx Hy Hz. rewrite !Z.shiftl_mul_pow2 by lia.
  rewrite (lor_add (x * 2 ^ 16) _ 16), (lor_add _ z 8); lia || dlia.
Qed.

Lemma quantum_bytes_sextets (v : Z) :
  0 <= v < 2 ^ 24 ->
  quantum_bytes (Z.land (Z.shiftr v 18) 0x3f) (Z.land (Z.shiftr v 12) 0x3f)
                (Z.land (Z.shiftr v 6) 0x3f) (Z.land v 0x3f)
  = [byte_of_Z (Z.shiftr v 16); byte_of_Z (Z.shiftr v 8); byte_of_Z v].
Proof.
  intros Hv. unfold quantum_bytes.
  replace (Z.lor (Z.lor (Z.lor (Z.shiftl (Z.land (Z.shiftr v 18) 0x3f) 18)
                               (Z.shiftl (Z.land (Z.shiftr v 12) 0x3f) 12))
                        (Z.shiftl (Z.land (Z.shiftr v 6) 0x3f) 6))
                 (Z.land v 0x3f)) with v; [done|].
  change 0x3f with (Z.ones 6).
  rewrite !land_ones_mod, !Z.shiftr_div_pow2, !Z.shiftl_mul_pow2 by lia.
  rewrite (lor_add (_ * 2 ^ 18) _ 18), (lor_add (_ + _) (_ * 2 ^ 6) 12), (lor_add _ _ 6);
    lia || dlia.
Qed.

(** Only the high sextets matter for the bytes of a padded quantum. *)
Lemma quantum_bytes_take2 (v : Z) :
  0 <= v < 2 ^ 24 ->
  take 2 (quantum_bytes (Z.land (Z.shiftr v 18) 0x3f) (Z.land (Z.shiftr v 12) 0x3f)
                        (Z.land (Z.shiftr v 6) 0x3f) 0)
  = [byte_of_Z (Z.shiftr v 16); byte_of_Z (Z.shiftr v 8)].
Proof.
  intros Hv. unfold quantum_bytes. cbn [take].
  change 0x3f with (Z.ones 6).
  rewrite !land_ones_mod, !Z.shiftr_div_pow2, !Z.shiftl_mul_pow2 by lia.
  rewrite (lor_add (_ * 2 ^ 18) _ 18), (lor_add (_ + _) (_ * 2 ^ 6) 12), (lor_add _ _ 6);
    [|lia || dlia..].
  f_equal; [|f_equal]; apply byte_of_Z_eq; rewrite byte_to_of_Z; dlia.
Qed.

Lemma quantum_bytes_take1 (v : Z) :
  0 <= v < 2 ^ 24 ->
  take 1 (quantum_bytes (Z.land (Z.shiftr v 18) 0x3f) (Z.land (Z.shiftr v 12) 0x3f) 0 0)
  = [byte_of_Z (Z.shiftr v 16)].
Proof.
  intros Hv. unfold quantum_bytes. cbn [take].
  change 0x3f with (Z.ones 6).
  rewrite !land_ones_mod, !Z.shiftr_div_pow2, !Z.shiftl_mul_pow2 by lia.
  rewrite (lor_add (_ * 2 ^ 18) _ 18), (lor_add (_ + _) (_ * 2 ^ 6) 12), (lor_add _ _ 6);
    [|lia || dlia..].
  f_equal. apply byte_of_Z_eq; rewrite byte_to_of_Z; dlia.
Qed.

Lemma base64_pad_char :
  base64_decodeMap "="%char = None /\ is_pad "="%char = true /\ is_newline "="%char = false.
Proof. by vm_compute. Qed.

(** Decoding what the encoder wrote gives the bytes back. *)
Lemma base64_Decode_encode (l : list byte) : base64_Decode (base64_encode l) = Ok l.
Proof.
  assert (forall n (l : list byte), (length l <= n)%nat ->
            base64_Decode (base64_encode l) = Ok l) as G; [|by apply (G (length l))].
  clear l. destruct base64_pad_char as (P1 & P2 & _).
  induction n as [|n IH]; intros l Hl.
  { destruct l; [done | simpl in Hl; lia]. }
  destruct l as [|a [|b [|c rest]]]; [done|..].
  - pose proof (byte_to_Z_range a) as Ha.
    cbn [base64_encode base64_Decode].
    rewrite !base64_decodeMap_char, P1, P2. cbn [andb].
    rewrite bool_decide_true by done.
    rewrite quantum_bytes_take1 by (rewrite Z.shiftl_mul_pow2; lia).
    f_equal. f_equal. apply byte_of_Z_eq.
    rewrite Z.shiftr_div_pow2, Z.shiftl_mul_pow2 by lia. dlia.
  - pose proof (byte_to_Z_range a) as Ha. pose proof (byte_to_Z_range b) as Hb.
    cbn [base64_encode base64_Decode].
    rewrite !base64_decodeMap_char, P1, P2. cbn [andb].
    rewrite bool_decide_true by done.
    assert (Z.lor (Z.shiftl (byte_to_Z a) 16) (Z.shiftl (byte_to_Z b) 8)
            = byte_to_Z a * 65536 + byte_to_Z b * 256) as ->.
    { rewrite !Z.shiftl_mul_pow2 by lia. rewrite (lor_add _ _ 16); lia || dlia. }
    rewrite quantum_bytes_take2 by lia.
    rewrite !Z.shiftr_div_pow2 by lia.
    f_equal. f_equal; [|f_equal]; apply byte_of_Z_eq; dlia.
  - pose proof (byte_to_Z_range a) as Ha. pose proof (byte_to_Z_range b) as Hb.
    pose proof (byte_to_Z_range c) as Hc.
    cbn [base64_encode base64_Decode].
    rewrite !base64_decodeMap_char.
    rewrite IH by (simpl in Hl; lia).
    rewrite quantum_value by done.
    rewrite quantum_bytes_sextets by lia.
    rewrite !Z.shiftr_div_pow2 by lia.
    cbn. f_equal. f_equal; [|f_equal; [|f_equal]]; apply byte_of_Z_eq; dlia.
Qed.

Lemma base64_encode_length (l : list byte) : (length (base64_encode l) mod 4 = 0)%nat.
Proof.
  assert (forall n (l : list byte), (length l <= n)%nat ->
            (length (base64_encode l) mod 4 = 0)%nat) as G; [|by apply (G (length l))].
  clear l. induction n as [|n IH]; intros l Hl.
  { destruct l; [done | simpl in Hl; lia]. }
  destruct l as [|a [|b [|c rest]]]; [done..|].
  cbn [base64_encode length].
  specialize (IH rest ltac:(simpl in Hl; lia)).
  change (S (S (S (S ?x)))) with (4 + x)%nat.
  rewrite <- Nat.Div0.add_mod_idemp_l. simpl. done.
Qed.

Lemma base64_encode_no_newline (l : list byte) :
  List.filter (fun c => negb (is_newline c)) (base64_encode l) = base64_encode l.
Proof.
  assert (forall n (l : list byte), (length l <= n)%nat ->
    List.filter (fun c => negb (is_newline c)) (base64_encode l) = base64_encode l) as G;
    [|by apply (G (length l))].
  clear l. destruct base64_pad_char as (_ & _ & P3).
  assert (forall x, negb (is_newline (base64_char (Z.land x 0x3f))) = true) as C.
  { intros x. destruct (base64_char_props _ (sextet_range x)) as (_ & -> & _). done. }
  induction n as [|n IH]; intros l Hl.
  { destruct l; [done | simpl in Hl; lia]. }
  destruct l as [|a [|b [|c rest]]]; [done|..];
    cbn [base64_encode List.filter]; rewrite ?C, ?P3; cbn [negb]; try done.
  by rewrite IH by (simpl in Hl; lia).
Qed.

(** Decoding as one chunk gives back what the stream encoder was given. *)
Lemma base64_one_chunk_EncodeToString (l : list byte) :
  base64_decode_one_chunk (base64_URLEncoding_EncodeToString l) = Ok l.
Proof.
  unfold base64_decode_one_chunk, base64_decode_text, base64_URLEncoding_EncodeToString.
  rewrite list_ascii_of_string_of_list_ascii, base64_encode_no_newline.
  pose proof (base64_encode_length l) as Hm.
  assert ((length (base64_encode l) / 4 * 4)%nat = length (base64_encode l)) as ->.
  { pose proof (Nat.div_mod_eq (length (base64_encode l)) 4). lia. }
  rewrite firstn_all, base64_Decode_encode, Hm. done.
Qed.

(** A character that is neither of the alphabet nor padding makes
    [Encoding.Decode] fail. *)
Lemma base64_Decode_invalid (src : list ascii) :
  (length src mod 4 = 0)%nat ->
  (exists c, In c src /\ base64_decodeMap c = None /\ is_pad c = false) ->
  exists e, base64_Decode src = Err e.
Proof.
  assert (forall n (src : list ascii), (length src <= n)%nat ->
    (length src mod 4 = 0)%nat ->
    (exists c, In c src /\ base64_decodeMap c = None /\ is_pad c = false) ->
    exists e, base64_Decode src = Err e) as G; [|by apply (G (length src))].
  clear src. induction n as [|n IH]; intros src Hl Hm (c & Hin & Hc & Hp).
  { destruct src; [destruct Hin | simpl in Hl; lia]. }
  destruct src as [|c0 [|c1 [|c2 [|c3 rest]]]]; [destruct Hin|done..|].
  assert (rest <> [] -> bool_decide (rest = []) = false) as Hne
    by (intros ?; by apply bool_decide_false).
  cbn [base64_Decode].
  destruct (base64_decodeMap c0) as [s0|] eqn:E0; [|eauto].
  destruct (base64_decodeMap c1) as [s1|] eqn:E1; [|eauto].
  destruct (in_dec ascii_dec c rest) as [Hr|Hr].
  - assert (rest <> []) as Hrest by (intros ->; destruct Hr).
    destruct (base64_decodeMap c2) as [s2|] eqn:E2;
      [destruct (base64_decodeMap c3) as [s3|] eqn:E3|];
      rewrite ?(Hne Hrest), ?andb_false_r; eauto.
    destruct (IH rest) as [e He].
    + simpl in Hl. lia.
    + change (length (c0 :: c1 :: c2 :: c3 :: rest)) with (4 + length rest)%nat in Hm.
      by rewrite <- Nat.Div0.add_mod_idemp_l in Hm.
    + eauto.
    + rewrite He. eauto.
  - assert (c = c0 \/ c = c1 \/ c = c2 \/ c = c3) as Hc4.
    { simpl in Hin. destruct Hin as [<- | [<- | [<- | [<- | ?]]]]; tauto. }
    destruct Hc4 as [-> | [-> | [-> | ->]]]; [congruence..| |].
    + rewrite Hc, Hp. eauto.
    + rewrite Hc, Hp. destruct (base64_decodeMap c2); rewrite ?andb_false_r; eauto.
Qed.

(** Decoding as one chunk fails on text with a character that is neither of
    the alphabet, nor padding, nor a line break, and on text whose length,
    line breaks aside, is not a multiple of four. *)
Lemma base64_one_chunk_invalid (s : string) :
  (exists c, In c (list_ascii_of_string s)
             /\ base64_decodeMap c = None /\ is_pad c = false /\ is_newline c = false)
  \/ (length (List.filter (fun c => negb (is_newline c)) (list_ascii_of_string s)) mod 4 <> 0)%nat ->
  exists e, base64_decode_one_chunk s = Err e.
Proof.
  unfold base64_decode_one_chunk, base64_decode_text.
  set (src := List.filter (fun c => negb (is_newline c)) (list_ascii_of_string s)).
  set (n := (length src / 4 * 4)%nat).
  intros Hbad.
  destruct (Nat.eqb_spec (length src mod 4) 0) as [Hm|Hm].
  - destruct Hbad as [(c & Hin & Hc & Hp & Hn)|Hbad]; [|done].
    assert (n = length src) as Hn4
      by (pose proof (Nat.div_mod_eq (length src) 4); unfold n; lia).
    rewrite Hn4, firstn_all.
    destruct (base64_Decode_invalid src Hm) as [e He].
    + exists c. split; [|done]. apply filter_In. split; [done|]. by rewrite Hn.
    + rewrite He. eauto.
  - destruct (base64_Decode (take n src)); cbn; eauto.
Qed.

Lemma base64_Decode_Err (src : list ascii) (e : error) :
  base64_Decode src = Err e -> e = base64_CorruptInputError.
Proof.
  assert (forall n (src : list ascii), (length src <= n)%nat ->
            base64_Decode src = Err e -> e = base64_CorruptInputError) as G;
    [|by apply (G (length src))].
  clear src. induction n as [|n IH]; intros src Hl.
  { by destruct src; [|simpl in Hl; lia]. }
  destruct src as [|c0 [|c1 [|c2 [|c3 rest]]]]; [done..|].
  cbn [base64_Decode].
  destruct (base64_decodeMap c0); [|by intros [= <-]].
  destruct (base64_decodeMap c1); [|by intros [= <-]].
  destruct (base64_decodeMap c2).
  - destruct (base64_decodeMap c3).
    + specialize (IH rest ltac:(simpl in Hl; lia)).
      destruct (base64_Decode rest); [done|]. intros [= <-]. by apply IH.
    + destruct (_ && _); [done|]. by intros [= <-].
  - destruct (_ && _); [done|]. by intros [= <-].
Qed.

Lemma base64_one_chunk_Err (s : string) (e : error) :
  base64_decode_one_chunk s = Err e -> decoding_error e = true.
Proof.
  unfold base64_decode_one_chunk, base64_decode_text.
  destruct (base64_Decode _) as [out|e'] eqn:E.
  - cbn. destruct (_ =? _)%nat; [done|]. by intros [= <-].
  - apply base64_Decode_Err in E as ->. by intros [= <-].
Qed.


(** ** The protobuf wire format *)

Lemma result_bind_Ok {A B} (v : A) (f : A -> result B) : (Ok v ≫= f) = f v.
Proof. done. Qed.

Lemma result_bind_Err {A B} (e : error) (f : A -> result B) : (Err e ≫= f) = Err e.
Proof. done. Qed.

Lemma varint_continuation_byte (v : Z) :
  0 <= v -> byte_to_Z (byte_of_Z (Z.lor (Z.land v 0x7f) 0x80)) = v mod 128 + 128.
Proof.
  intros Hv. rewrite byte_to_of_Z.
  change 0x7f with (Z.ones 7). rewrite land_ones_mod by lia.
  rewrite Z.lor_comm.
  change (Z.lor 128 (v mod 2 ^ 7)) with (Z.lor (Z.shiftl 1 7) (v mod 2 ^ 7)).
  rewrite (lor_shiftl_add 1 (v mod 2 ^ 7) 7 ltac:(lia)) by dlia.
  change (2 ^ 7) with 128. dlia.
Qed.

(** A varint is read back, whatever follows it. *)
Lemma ConsumeVarint_from_Append (more : nat) (shift v : Z) (rest : list byte) :
  0 <= shift -> 0 <= v < 2 ^ (7 * Z.of_nat more + 1) ->
  protowire.ConsumeVarint_from more shift (protowire.AppendVarint_from more v ++ rest)
  = Ok (Z.shiftl v shift, rest).
Proof.
  revert shift v. induction more as [|more IH]; intros shift v Hs Hv.
  - change (2 ^ (7 * Z.of_nat 0 + 1)) with 2 in Hv.
    cbn [protowire.AppendVarint_from protowire.ConsumeVarint_from app].
    rewrite byte_to_of_Z, Z.mod_small by lia.
    by destruct (Z.ltb_spec v 2); [|lia].
  - cbn [protowire.AppendVarint_from].
    destruct (Z.ltb_spec v 0x80) as [Hlt|Hge].
    + cbn [protowire.ConsumeVarint_from app].
      rewrite byte_to_of_Z, Z.mod_small by lia.
      by destruct (Z.ltb_spec v 0x80); [|lia].
    + cbn [protowire.ConsumeVarint_from app].
      rewrite varint_continuation_byte by lia.
      destruct (Z.ltb_spec (v mod 128 + 128) 0x80) as [?|_]; [dlia|].
      rewrite IH; [|lia|].
      * rewrite result_bind_Ok. f_equal. f_equal.
        rewrite !Z.shiftl_mul_pow2, Z.shiftr_div_pow2 by lia.
        rewrite Z.pow_add_r by lia.
        replace (v mod 128 + 128 - 128) with (v mod 128) by lia.
        pose proof (Z.div_mod v 128). change (2 ^ 7) with 128. nia.
      * rewrite Z.shiftr_div_pow2 by lia.
        replace (7 * Z.of_nat (S more) + 1) with (7 + (7 * Z.of_nat more + 1)) in Hv by lia.
        rewrite Z.pow_add_r in Hv by lia.
        change (2 ^ 7) with 128 in *.
        assert (0 < 2 ^ (7 * Z.of_nat more + 1)) by (apply Z.pow_pos_nonneg; lia).
        split; [dlia|]. apply Z.div_lt_upper_bound; lia.
Qed.

Lemma ConsumeVarint_Append (v : Z) (rest : list byte) :
  protowire.ConsumeVarint (protowire.AppendVarint v ++ rest) = Ok (uint64 v, rest).
Proof.
  unfold protowire.ConsumeVarint, protowire.AppendVarint.
  rewrite ConsumeVarint_from_Append; [by rewrite Z.shiftl_0_r|done|].
  unfold uint64. change (2 ^ (7 * Z.of_nat 9 + 1)) with (2 ^ 64). dlia.
Qed.

Lemma AppendVarint_nonempty (v : Z) : protowire.AppendVarint v <> [].
Proof.
  unfold protowire.AppendVarint. cbn [protowire.AppendVarint_from].
  by destruct (_ <? _).
Qed.

Lemma uint64_small (v : Z) : 0 <= v < 2 ^ 64 -> uint64 v = v.
Proof. intros. unfold uint64. by rewrite Z.mod_small. Qed.

Lemma uint64_idem (v : Z) : uint64 (uint64 v) = uint64 v.
Proof. unfold uint64. by rewrite Z.mod_mod by lia. Qed.

Lemma int64_uint64 (v : Z) : - 2 ^ 63 <= v < 2 ^ 63 -> int64 (uint64 v) = v.
Proof. intros. unfold int64, uint64. dlia. Qed.

Lemma int32_uint64 (v : Z) : - 2 ^ 31 <= v < 2 ^ 31 -> int32 (uint64 v) = v.
Proof. intros. unfold int32, uint64. dlia. Qed.

Lemma int64_range (v : Z) : - 2 ^ 63 <= int64 v < 2 ^ 63.
Proof. unfold int64. dlia. Qed.

(** The tag of a field: its number and wire type are read back. *)
Lemma EncodeTag_decode (num typ : Z) :
  pb.valid_number num = true -> 0 <= typ < 8 ->
  let tag := uint64 (protowire.EncodeTag num typ) in
  Z.shiftr tag 3 = num /\ Z.land tag 7 = typ.
Proof.
  intros Hnum Htyp. unfold pb.valid_number, protowire.MinValidNumber,
    protowire.MaxValidNumber in Hnum.
  apply andb_prop in Hnum as [H1 H2]. apply Z.leb_le in H1, H2.
  assert (protowire.EncodeTag num typ = num * 8 + typ) as E.
  { unfold protowire.EncodeTag. change 7 with (Z.ones 3).
    rewrite land_ones_mod by lia.
    rewrite lor_shiftl_add by (change (2 ^ 3) with 8; dlia).
    change (2 ^ 3) with 8. dlia. }
  cbn zeta. rewrite E, uint64_small by lia.
  change 7 with (Z.ones 3). rewrite land_ones_mod, Z.shiftr_div_pow2 by lia.
  change (2 ^ 3) with 8. dlia.
Qed.

Lemma ConsumeBytes_Append (v rest : list byte) :
  Z.of_nat (length v) < 2 ^ 64 ->
  protowire.ConsumeBytes (protowire.AppendBytes v ++ rest) = Ok (v, rest).
Proof.
  intros Hv. unfold protowire.ConsumeBytes, protowire.AppendBytes.
  rewrite <- app_assoc, ConsumeVarint_Append, result_bind_Ok.
  rewrite uint64_small by lia.
  rewrite length_app.
  destruct (Z.ltb_spec (Z.of_nat (length v + length rest)) (Z.of_nat (length v)));
    [lia|].
  rewrite Nat2Z.id. by rewrite take_app_length, drop_app_length.
Qed.


(** *** Decoding what the encoder wrote *)

Section decode_loop.
Context {M : Type} (step : list byte -> M -> result (M * list byte)).

Lemma decode_loop_processes (L : list (list byte * (M -> option M)))
    (fuel : nat) (rest : list byte) (m m' : M) :
  Forall (fun eu => processes step eu.1 eu.2) L ->
  apply_all (map snd L) m = Some m' ->
  (length (concat (map fst L) ++ rest) <= fuel)%nat ->
  exists fuel', (length rest <= fuel')%nat
    /\ decode_loop step fuel (concat (map fst L) ++ rest) m = decode_loop step fuel' rest m'.
Proof.
  revert fuel m. induction L as [|[e u] L IH]; intros fuel m HL Hu Hfuel.
  - simpl in *. injection Hu as <-. eauto.
  - apply Forall_cons in HL as [He HL]. cbn [map fst snd concat apply_all] in *.
    destruct (u m) as [m1|] eqn:Eu; [|done]. cbn in Hu.
    rewrite <- app_assoc in *.
    destruct He as [[-> Hid]|[Hne Hstep]].
    + rewrite Hid in Eu. injection Eu as <-. by apply IH.
    + destruct fuel as [|fuel].
      { destruct e; [done|]. simpl in Hfuel. lia. }
      destruct e as [|x e]; [done|].
      cbn [decode_loop app]. change (x :: e ++ ?r) with ((x :: e) ++ r).
      rewrite (Hstep _ _ _ Eu), result_bind_Ok.
      apply IH; [done..|]. simpl in Hfuel. rewrite !length_app in *. lia.
Qed.

Lemma decode_loop_encoded (L : list (list byte * (M -> option M))) (m m' : M) :
  Forall (fun eu => processes step eu.1 eu.2) L ->
  apply_all (map snd L) m = Some m' ->
  decode_loop step (length (concat (map fst L))) (concat (map fst L)) m = Ok m'.
Proof.
  intros HL Hu.
  destruct (decode_loop_processes L (length (concat (map fst L))) [] m m' HL Hu)
    as (fuel' & _ & E).
  - by rewrite app_nil_r.
  - rewrite app_nil_r in E. rewrite E. by destruct fuel'.
Qed.

End decode_loop.

Section wire_facts.
Context {Sch : pb.schema}.

Lemma unmarshal_Credential_fields_loop (fuel : nat) (b : list byte) (c : pb.Credential) :
  unmarshal_Credential_fields fuel b c = decode_loop unmarshal_Credential_field fuel b c.
Proof.
  revert b c. induction fuel as [|fuel IH]; intros [|x b] c; [done..|].
  cbn [unmarshal_Credential_fields decode_loop].
  destruct (unmarshal_Credential_field (x :: b) c) as [[c' rest]|e]; [|done].
  apply IH.
Qed.

Lemma unmarshal_AuthenticatedCredential_fields_loop (fuel : nat) (b : list byte)
    (m : AuthenticatedCredential_message) :
  unmarshal_AuthenticatedCredential_fields fuel b m
  = decode_loop unmarshal_AuthenticatedCredential_field fuel b m.
Proof.
  revert b m. induction fuel as [|fuel IH]; intros [|x b] m; [done..|].
  cbn [unmarshal_AuthenticatedCredential_fields decode_loop].
  destruct (unmarshal_AuthenticatedCredential_field (x :: b) m) as [[m' rest]|e]; [|done].
  apply IH.
Qed.

Lemma consume_field_tag_Append (num typ : Z) (rest : list byte) :
  pb.valid_number num = true -> 0 <= typ < 8 -> typ <> protowire.EndGroupType ->
  consume_field_tag (protowire.AppendTag num typ ++ rest) = Ok (num, typ, rest).
Proof.
  intros Hnum Htyp Hend. unfold consume_field_tag, protowire.AppendTag.
  rewrite ConsumeVarint_Append, result_bind_Ok.
  destruct (EncodeTag_decode num typ Hnum Htyp) as [-> ->].
  rewrite Hnum. cbn [negb].
  by destruct (Z.eqb_spec typ protowire.EndGroupType).
Qed.

Lemma AppendTag_nonempty (num typ : Z) (l : list byte) :
  protowire.AppendTag num typ ++ l <> [].
Proof.
  pose proof (AppendVarint_nonempty (protowire.EncodeTag num typ)).
  unfold protowire.AppendTag. by destruct (protowire.AppendVarint _).
Qed.

Hypothesis schema_ok : pb.schema_ok _ = true.

Lemma schema_ok_facts :
  pb.valid_number pb.num_node_id = true /\ pb.valid_number pb.num_operator_type = true
  /\ pb.valid_number pb.num_timestamp = true /\ pb.valid_number pb.num_credential = true
  /\ pb.valid_number pb.num_mac = true
  /\ pb.num_node_id <> pb.num_operator_type /\ pb.num_node_id <> pb.num_timestamp
  /\ pb.num_operator_type <> pb.num_timestamp /\ pb.num_credential <> pb.num_mac.
Proof.
  pose proof schema_ok as Hok. unfold pb.schema_ok in Hok.
  repeat (apply andb_prop in Hok as [Hok ?]).
  repeat match goal with
         | H : negb (_ =? _) = true |- _ => apply negb_true_iff, Z.eqb_neq in H
         end.
  split; [|done]. unfold pb.valid_number. by rewrite Hok.
Qed.

Lemma processes_NodeId (v : list byte) :
  Z.of_nat (length v) < 2 ^ 64 ->
  processes unmarshal_Credential_field
    (encode_bytes_field pb.num_node_id v) (put_NodeId v).
Proof.
  intros Hv. destruct schema_ok_facts as (V1 & _).
  unfold processes, encode_bytes_field, put_NodeId.
  case_bool_decide as E; [left; split; [done|by intros []]|right].
  split; [apply AppendTag_nonempty|]. intros rest c c' [= <-].
  unfold unmarshal_Credential_field.
  rewrite <- app_assoc, consume_field_tag_Append by done.
  rewrite result_bind_Ok. cbn beta iota.
  rewrite !Z.eqb_refl. cbn [andb].
  by rewrite ConsumeBytes_Append, result_bind_Ok.
Qed.

Lemma processes_OperatorType (v : Z) :
  - 2 ^ 31 <= v < 2 ^ 31 ->
  processes unmarshal_Credential_field
    (encode_varint_field pb.num_operator_type v) (put_OperatorType v).
Proof.
  intros Hv. destruct schema_ok_facts as (_ & V2 & _).
  unfold processes, encode_varint_field, put_OperatorType.
  destruct (Z.eqb_spec v 0) as [E|E]; [left; split; [done|by intros []]|right].
  split; [apply AppendTag_nonempty|]. intros rest c c' [= <-].
  unfold unmarshal_Credential_field.
  rewrite <- app_assoc, consume_field_tag_Append by done.
  rewrite result_bind_Ok. cbn beta iota.
  change (protowire.VarintType =? protowire.BytesType) with false.
  rewrite andb_false_r, !Z.eqb_refl. cbn [andb].
  rewrite ConsumeVarint_Append, result_bind_Ok.
  rewrite uint64_idem.
  by rewrite int32_uint64.
Qed.

Lemma processes_Timestamp (v : Z) :
  - 2 ^ 63 <= v < 2 ^ 63 ->
  processes unmarshal_Credential_field
    (encode_varint_field pb.num_timestamp v) (put_Timestamp v).
Proof.
  intros Hv. destruct schema_ok_facts as (_ & _ & V3 & _ & _ & _ & _ & N & _).
  unfold processes, encode_varint_field, put_Timestamp.
  destruct (Z.eqb_spec v 0) as [E|E]; [left; split; [done|by intros []]|right].
  split; [apply AppendTag_nonempty|]. intros rest c c' [= <-].
  unfold unmarshal_Credential_field.
  rewrite <- app_assoc, consume_field_tag_Append by done.
  rewrite result_bind_Ok. cbn beta iota.
  change (protowire.VarintType =? protowire.BytesType) with false.
  rewrite andb_false_r.
  destruct (Z.eqb_spec pb.num_timestamp pb.num_operator_type) as [?|_]; [congruence|].
  rewrite !Z.eqb_refl. cbn [andb].
  rewrite ConsumeVarint_Append, result_bind_Ok.
  rewrite uint64_idem.
  by rewrite int64_uint64.
Qed.

Lemma AppendVarint_length (v : Z) : (length (protowire.AppendVarint v) <= 10)%nat.
Proof.
  unfold protowire.AppendVarint. generalize (uint64 v). generalize 9%nat.
  induction n as [|n IH]; intros z; cbn [protowire.AppendVarint_from].
  - simpl. lia.
  - destruct (_ <? _); simpl; [lia|]. specialize (IH (Z.shiftr z 7)). lia.
Qed.

Lemma encode_bytes_field_length (num : Z) (v : list byte) :
  (length (encode_bytes_field num v) <= 20 + length v)%nat.
Proof.
  unfold encode_bytes_field, protowire.AppendTag, protowire.AppendBytes.
  case_bool_decide; [simpl; lia|]. rewrite !length_app.
  pose proof (AppendVarint_length (protowire.EncodeTag num protowire.BytesType)).
  pose proof (AppendVarint_length (Z.of_nat (length v))). lia.
Qed.

Lemma encode_varint_field_length (num v : Z) :
  (length (encode_varint_field num v) <= 20)%nat.
Proof.
  unfold encode_varint_field, protowire.AppendTag.
  destruct (_ =? _); [simpl; lia|]. rewrite !length_app.
  pose proof (AppendVarint_length (protowire.EncodeTag num protowire.VarintType)).
  pose proof (AppendVarint_length (uint64 v)). lia.
Qed.

Lemma encode_Credential_length (c : pb.Credential) :
  pb.unknownFields c = [] ->
  (length (encode_Credential c) <= 60 + length (pb.NodeId c))%nat.
Proof.
  intros Hu. unfold encode_Credential. rewrite Hu, app_nil_r.
  pose proof (encode_bytes_field_length pb.num_node_id (pb.NodeId c)).
  pose proof (encode_varint_field_length pb.num_operator_type (pb.OperatorType c)).
  pose proof (encode_varint_field_length pb.num_timestamp (pb.Timestamp c)).
  order_fields; rewrite !length_concat; cbn [map list_sum fold_right]; lia.
Qed.

(** [proto.Unmarshal] of what [proto.Marshal] wrote for a credential with no
    unknown fields gives the credential back. *)
Lemma unmarshal_encode_Credential (c : pb.Credential) :
  wf_Credential c -> pb.unknownFields c = [] ->
  unmarshal_Credential (encode_Credential c) pb.Credential_zero = Ok c.
Proof.
  intros (Hn & Ho & Ht) Hu.
  unfold unmarshal_Credential, encode_Credential.
  rewrite unmarshal_Credential_fields_loop, Hu, app_nil_r.
  order_fields;
    (eapply (decode_loop_encoded _ [(_, _); (_, _); (_, _)]);
     [ repeat apply Forall_cons_2; try apply Forall_nil_2; lazy beta iota delta [fst snd];
       lazymatch goal with
       | |- context [pb.NodeId] => apply processes_NodeId; lia
       | |- context [pb.OperatorType] => by apply processes_OperatorType
       | |- context [pb.Timestamp] => by apply processes_Timestamp
       end
     | destruct c as [n o t u]; cbn [pb.unknownFields] in Hu; subst u; clear;
       unfold put_NodeId, put_OperatorType, put_Timestamp, pb.Credential_zero; cbn;
       destruct (Z.eqb_spec o 0); destruct (Z.eqb_spec t 0); case_bool_decide;
       by subst ]).
Qed.

Lemma processes_credential (c : option pb.Credential) :
  (forall c', c = Some c' -> wf_Credential c' /\ pb.unknownFields c' = []) ->
  processes unmarshal_AuthenticatedCredential_field
    (encode_message_field pb.num_credential c) (put_credential c).
Proof.
  intros Hc. destruct schema_ok_facts as (_ & _ & _ & V4 & _).
  unfold processes, encode_message_field, put_credential.
  destruct c as [c|]; [right|left; by split].
  destruct (Hc c eq_refl) as [Hwf Hu].
  split; [apply AppendTag_nonempty|]. intros rest m m' Hm.
  destruct (msg_credential m) eqn:Em; [done|]. injection Hm as <-.
  unfold unmarshal_AuthenticatedCredential_field.
  rewrite <- app_assoc, consume_field_tag_Append by done.
  rewrite result_bind_Ok. cbn beta iota.
  rewrite !Z.eqb_refl. cbn [andb].
  rewrite ConsumeBytes_Append, result_bind_Ok.
  - cbn beta iota. rewrite Em. cbn [default].
    by rewrite unmarshal_encode_Credential.
  - pose proof (encode_Credential_length c Hu). destruct Hwf as (Hn & _). lia.
Qed.

Lemma processes_mac (v : list byte) :
  Z.of_nat (length v) < 2 ^ 64 ->
  processes unmarshal_AuthenticatedCredential_field
    (encode_bytes_field pb.num_mac v) (put_mac v).
Proof.
  intros Hv. destruct schema_ok_facts as (_ & _ & _ & _ & V5 & _ & _ & _ & N).
  unfold processes, encode_bytes_field, put_mac.
  case_bool_decide as E; [left; split; [done|by intros []]|right].
  split; [apply AppendTag_nonempty|]. intros rest m m' [= <-].
  unfold unmarshal_AuthenticatedCredential_field.
  rewrite <- app_assoc, consume_field_tag_Append by done.
  rewrite result_bind_Ok. cbn beta iota.
  destruct (Z.eqb_spec pb.num_mac pb.num_credential) as [?|_]; [congruence|].
  rewrite !Z.eqb_refl. cbn [andb].
  by rewrite ConsumeBytes_Append, result_bind_Ok.
Qed.

Lemma decode_encode_AuthenticatedCredential (m : AuthenticatedCredential_message) :
  wf_message m ->
  decode_AuthenticatedCredential (encode_AuthenticatedCredential m) = Ok m.
Proof.
  intros (Hc & Hm & Hu).
  unfold decode_AuthenticatedCredential, encode_AuthenticatedCredential.
  rewrite unmarshal_AuthenticatedCredential_fields_loop, Hu, app_nil_r.
  order_fields;
    (eapply (decode_loop_encoded _ [(_, _); (_, _)]);
     [ repeat apply Forall_cons_2; try apply Forall_nil_2; lazy beta iota delta [fst snd];
       lazymatch goal with
       | |- context [msg_credential] => by apply processes_credential
       | |- context [msg_mac] => apply processes_mac; lia
       end
     | destruct m as [c mac u]; cbn [msg_unknownFields] in Hu; subst u; clear;
       unfold put_credential, put_mac, message_zero; destruct c; cbn;
       by case_bool_decide; subst ]).
Qed.

End wire_facts.


(** ** The stream decoder *)

(** *** [Encoding.Decode] on a chunk and on what follows it *)

Lemma is_pad_decodeMap (c : ascii) : is_pad c = true -> base64_decodeMap c = None.
Proof.
  unfold is_pad, base64_decodeMap. intros H. apply Z.eqb_eq in H. by rewrite H.
Qed.

Lemma base64_Decode_app (c x : list ascii) (out : list byte) :
  (length c mod 4 = 0)%nat ->
  base64_Decode (c ++ x) = Ok out ->
  exists o1 o2, base64_Decode c = Ok o1 /\ base64_Decode x = Ok o2 /\ out = o1 ++ o2.
Proof.
  assert (forall n (c : list ascii) out, (length c <= n)%nat -> (length c mod 4 = 0)%nat ->
            base64_Decode (c ++ x) = Ok out ->
            exists o1 o2, base64_Decode c = Ok o1 /\ base64_Decode x = Ok o2
                          /\ out = o1 ++ o2) as G; [|by apply (G (length c))].
  clear c out. induction n as [|n IH]; intros c out Hl Hm H.
  { destruct c; [|simpl in Hl; lia]. exists [], out. by rewrite app_nil_l in H. }
  destruct c as [|c0 [|c1 [|c2 [|c3 rest]]]]; [by exists [], out|done..|].
  assert (length rest mod 4 = 0)%nat as Hm'.
  { change (length (c0 :: c1 :: c2 :: c3 :: rest)) with (4 + length rest)%nat in Hm.
    by rewrite <- Nat.Div0.add_mod_idemp_l in Hm. }
  cbn [app base64_Decode] in *.
  destruct (base64_decodeMap c0) as [s0|]; [|done].
  destruct (base64_decodeMap c1) as [s1|]; [|done].
  assert (forall b : bool, b && bool_decide (rest ++ x = []) = true ->
            rest = [] /\ x = [] /\ b && bool_decide (rest = []) = true) as Hend.
  { intros b Hb. apply andb_prop in Hb as [-> Hb]. apply bool_decide_eq_true in Hb.
    apply app_eq_nil in Hb as [-> ->]. done. }
  destruct (base64_decodeMap c2) as [s2|].
  - destruct (base64_decodeMap c3) as [s3|].
    + destruct (base64_Decode (rest ++ x)) as [tl|e] eqn:E; [|done].
      rewrite result_bind_Ok in H. injection H as <-.
      destruct (IH rest tl ltac:(simpl in Hl; lia) Hm' E) as (o1 & o2 & -> & Hx & ->).
      exists (quantum_bytes s0 s1 s2 s3 ++ o1), o2.
      rewrite result_bind_Ok. split; [done|]. split; [done|]. reflexivity.
    + destruct (is_pad c3 && bool_decide (rest ++ x = [])) eqn:Eb; [|done].
      apply Hend in Eb as (-> & -> & ->). injection H as <-.
      eexists _, []. by rewrite app_nil_r.
  - destruct (is_pad c2 && is_pad c3 && bool_decide (rest ++ x = [])) eqn:Eb; [|done].
    apply Hend in Eb as (-> & -> & ->). injection H as <-.
    eexists _, []. by rewrite app_nil_r.
Qed.

Lemma base64_Decode_Ok_chars (c : list ascii) (out : list byte) :
  (length c mod 4 = 0)%nat -> base64_Decode c = Ok out ->
  Forall (fun x => url_safe x = true) c.
Proof.
  assert (forall n (c : list ascii) out, (length c <= n)%nat -> (length c mod 4 = 0)%nat ->
            base64_Decode c = Ok out -> Forall (fun x => url_safe x = true) c) as G;
    [|by apply (G (length c))].
  clear c out. induction n as [|n IH]; intros c out Hl Hm H.
  { destruct c; [constructor|simpl in Hl; lia]. }
  destruct c as [|c0 [|c1 [|c2 [|c3 rest]]]]; [constructor|done..|].
  assert (length rest mod 4 = 0)%nat as Hm'.
  { change (length (c0 :: c1 :: c2 :: c3 :: rest)) with (4 + length rest)%nat in Hm.
    by rewrite <- Nat.Div0.add_mod_idemp_l in Hm. }
  cbn [base64_Decode] in H. unfold url_safe.
  destruct (base64_decodeMap c0) as [s0|] eqn:E0; [|done].
  destruct (base64_decodeMap c1) as [s1|] eqn:E1; [|done].
  destruct (base64_decodeMap c2) as [s2|] eqn:E2.
  - destruct (base64_decodeMap c3) as [s3|] eqn:E3.
    + destruct (base64_Decode rest) as [tl|e] eqn:E; [|done].
      repeat (apply Forall_cons_2; [by rewrite ?E0, ?E1, ?E2, ?E3|]).
      by apply (IH rest tl); [simpl in Hl; lia|..].
    + destruct (is_pad c3) eqn:P3; [|done].
      destruct (bool_decide (rest = [])) eqn:Er; [|done].
      apply bool_decide_eq_true in Er as ->.
      repeat (apply Forall_cons_2; [by rewrite ?E0, ?E1, ?E2, ?E3|]). constructor.
  - destruct (is_pad c2) eqn:P2; [|done]. destruct (is_pad c3) eqn:P3; [|done].
    destruct (bool_decide (rest = [])) eqn:Er; [|done].
    apply bool_decide_eq_true in Er as ->.
    repeat (apply Forall_cons_2; [by rewrite ?E0, ?E1, ?E2, ?(is_pad_decodeMap c3)|]).
    constructor.
Qed.

Lemma base64_Decode_length (c : list ascii) (out : list byte) :
  (length c mod 4 = 0)%nat ->
  base64_Decode c = Ok out -> (length out <= length c / 4 * 3)%nat.
Proof.
  assert (forall n (c : list ascii) out, (length c <= n)%nat ->
            base64_Decode c = Ok out -> (4 * length out <= 3 * length c)%nat) as G.
  { induction n as [|n IH]; intros c' out' Hl H.
    { destruct c'; [by injection H as <-|simpl in Hl; lia]. }
    destruct c' as [|c0 [|c1 [|c2 [|c3 rest]]]]; try (by injection H as <-; simpl; lia).
    cbn [base64_Decode] in H.
    destruct (base64_decodeMap c0) as [s0|]; [|done].
    destruct (base64_decodeMap c1) as [s1|]; [|done].
    destruct (base64_decodeMap c2) as [s2|].
    - destruct (base64_decodeMap c3) as [s3|].
      + destruct (base64_Decode rest) as [tl|e] eqn:E; [|done].
        rewrite result_bind_Ok in H. injection H as <-.
        specialize (IH rest tl ltac:(simpl in Hl; lia) E).
        cbn [quantum_bytes app length]. lia.
      + destruct (_ && _); [|done]. injection H as <-. cbn [quantum_bytes take length]. lia.
    - destruct (_ && _); [|done]. injection H as <-. cbn [quantum_bytes take length]. lia. }
  intros Hm H. specialize (G (length c) c out ltac:(done) H).
  pose proof (Nat.div_mod_eq (length c) 4) as D. lia.
Qed.

(** A padding character with a character after it that is no padding makes
    [Encoding.Decode] fail. *)
Lemma base64_Decode_misplaced_padding (src : list ascii) :
  (length src mod 4 = 0)%nat -> misplaced_padding src ->
  exists e, base64_Decode src = Err e.
Proof.
  assert (forall n (src : list ascii), (length src <= n)%nat ->
            (length src mod 4 = 0)%nat -> misplaced_padding src ->
            exists e, base64_Decode src = Err e) as G; [|by apply (G (length src))].
  clear src. induction n as [|n IH]; intros src Hl Hm (pre & c & post & E & Hp & c' & Hin & Hp').
  { destruct src; [by destruct pre|simpl in Hl; lia]. }
  destruct src as [|c0 [|c1 [|c2 [|c3 rest]]]]; [by destruct pre|done..|].
  assert (length rest mod 4 = 0)%nat as Hm'.
  { change (length (c0 :: c1 :: c2 :: c3 :: rest)) with (4 + length rest)%nat in Hm.
    by rewrite <- Nat.Div0.add_mod_idemp_l in Hm. }
  assert (forall l : list ascii, In c' l -> bool_decide (l = []) = false) as Hne.
  { intros l Hl'. apply bool_decide_false. by intros ->. }
  pose proof (is_pad_decodeMap c Hp) as Hc.
  cbn [base64_Decode].
  destruct pre as [|p0 [|p1 [|p2 [|p3 pre]]]]; cbn [app] in E.
  - injection E as <- _. rewrite Hc. eauto.
  - injection E as _ <- _. rewrite Hc. destruct (base64_decodeMap c0); eauto.
  - injection E as _ _ <- E. subst post. rewrite Hc.
    destruct (base64_decodeMap c0); [|eauto]. destruct (base64_decodeMap c1); [|eauto].
    destruct Hin as [<-|Hin].
    + rewrite Hp'. rewrite andb_false_r. eauto.
    + rewrite (Hne _ Hin), andb_false_r. eauto.
  - injection E as _ _ _ <- E. subst post. rewrite Hc, (Hne _ Hin), !andb_false_r.
    destruct (base64_decodeMap c0); [|eauto]. destruct (base64_decodeMap c1); [|eauto].
    destruct (base64_decodeMap c2); eauto.
  - injection E as _ _ _ _ E.
    assert (In c' rest) as Hin' by (rewrite E; apply in_or_app; right; by right).
    rewrite (Hne _ Hin'), !andb_false_r.
    destruct (base64_decodeMap c0); [|eauto]. destruct (base64_decodeMap c1); [|eauto].
    destruct (base64_decodeMap c2); [|eauto]. destruct (base64_decodeMap c3); [|eauto].
    destruct (IH rest ltac:(simpl in Hl; lia) Hm') as [e He].
    { exists pre, c, post. eauto. }
    rewrite He. eauto.
Qed.

(** *** The text decoded as a whole *)

Lemma base64_decode_text_app (c r : list ascii) (out : list byte) :
  (length c mod 4 = 0)%nat ->
  base64_decode_text (c ++ r) = Ok out ->
  exists o1 o2, base64_Decode c = Ok o1 /\ base64_decode_text r = Ok o2 /\ out = o1 ++ o2.
Proof.
  intros Hm. unfold base64_decode_text.
  pose proof (Nat.div_mod_eq (length c) 4) as Dc.
  assert ((length (c ++ r) / 4 * 4)%nat = (length c + length r / 4 * 4)%nat) as ->.
  { rewrite length_app.
    replace (length c + length r)%nat with (length c / 4 * 4 + length r)%nat by lia.
    rewrite Nat.div_add_l by done. lia. }
  assert ((length (c ++ r) mod 4)%nat = (length r mod 4)%nat) as ->.
  { rewrite length_app.
    replace (length c + length r)%nat with (length r + length c / 4 * 4)%nat by lia.
    by rewrite Nat.Div0.mod_add. }
  rewrite take_app_add'  by done.
  destruct (base64_Decode (c ++ take _ r)) as [o|e] eqn:E; [|done].
  rewrite result_bind_Ok.
  destruct (base64_Decode_app _ _ _ Hm E) as (o1 & o2 & -> & Hr & ->).
  rewrite Hr, result_bind_Ok.
  destruct (_ =? _)%nat; [|done]. intros [= <-]. eauto.
Qed.

Lemma base64_decode_text_Err (src : list ascii) (e : error) :
  base64_decode_text src = Err e -> decoding_error e = true.
Proof.
  unfold base64_decode_text.
  destruct (base64_Decode _) as [out|e'] eqn:E.
  - cbn. destruct (_ =? _)%nat; [done|]. by intros [= <-].
  - apply base64_Decode_Err in E as ->. by intros [= <-].
Qed.

(** *** The reader and the refill loop *)

Lemma filtered_Read_spec (fuel k : nat) (raw got raw' : list ascii) (eof : bool) :
  (1 <= k)%nat -> (length raw <= fuel)%nat ->
  filtered_Read fuel k raw = (got, eof, raw') ->
  List.filter (fun c => negb (is_newline c)) raw
  = got ++ List.filter (fun c => negb (is_newline c)) raw'
  /\ (length got + length raw' <= length raw)%nat
  /\ (eof = true -> got = [] /\ raw' = [])
  /\ (eof = false -> got <> [] /\ (length got <= k)%nat).
Proof.
  intros Hk. revert raw. induction fuel as [|fuel IH]; intros raw Hl H.
  { destruct raw; [|simpl in Hl; lia]. by injection H as <- <- <-. }
  destruct raw as [|x raw]; [by injection H as <- <- <-|].
  cbn [filtered_Read] in H.
  assert (List.filter (fun c => negb (is_newline c)) (x :: raw)
          = List.filter (fun c => negb (is_newline c)) (take k (x :: raw))
            ++ List.filter (fun c => negb (is_newline c)) (drop k (x :: raw))) as Hf.
  { by rewrite <- List.filter_app, take_drop. }
  pose proof (length_take (x :: raw) k) as Lt.
  pose proof (length_drop (x :: raw) k) as Ld.
  destruct (List.filter _ (take k (x :: raw))) as [|g got'] eqn:Eg.
  - apply IH in H as (H1 & H2 & H3 & H4); [|simpl in *; lia].
    rewrite Hf, H1. split; [done|]. split; [lia|]. done.
  - injection H as <- <- <-. split; [done|]. split.
    + pose proof (List.filter_length_le (fun c => negb (is_newline c)) (take k (x :: raw))) as Lf.
      rewrite Eg in Lf. lia.
    + split; [done|]. intros _. split; [done|].
      pose proof (List.filter_length_le (fun c => negb (is_newline c)) (take k (x :: raw))) as Lf.
      rewrite Eg in Lf. lia.
Qed.

Lemma refill_eof (fuel nn : nat) (d : decoder) :
  dec_eof d = true -> refill fuel nn d = d.
Proof. intros H. destruct fuel; [done|]. cbn [refill]. by rewrite H, andb_false_r. Qed.

Lemma refill_spec (fuel nn : nat) (d : decoder) :
  (4 <= nn)%nat -> decoder_ok d ->
  decoder_ok (refill fuel nn d)
  /\ stream_rest (refill fuel nn d) = stream_rest d
  /\ dec_out (refill fuel nn d) = dec_out d
  /\ (length (dec_raw (refill fuel nn d)) + length (dec_buf (refill fuel nn d))
      <= length (dec_raw d) + length (dec_buf d))%nat
  /\ ((4 <= fuel + length (dec_buf d))%nat ->
      (4 <= length (dec_buf (refill fuel nn d)))%nat \/ dec_eof (refill fuel nn d) = true).
Proof.
  intros Hnn. revert d. induction fuel as [|fuel IH]; intros d Hok.
  { cbn [refill]. split; [done|]. split; [done|]. split; [done|]. split; [done|].
    intros H. left. simpl in H. lia. }
  cbn [refill].
  destruct (Nat.ltb_spec (length (dec_buf d)) 4) as [Hlt|Hge]; cbn [andb];
    [|split; [done|]; split; [done|]; split; [done|]; split; [done|]; by left].
  destruct (dec_eof d) eqn:Ee; cbn [negb];
    [split; [done|]; split; [done|]; split; [done|]; split; [done|]; by right|].
  destruct (filtered_Read _ _ _) as [[got eof] raw'] eqn:Er.
  apply filtered_Read_spec in Er as (H1 & H2 & H3 & H4); [|lia|done].
  set (d1 := mkDecoder raw' (dec_buf d ++ got) (dec_out d) eof).
  assert (decoder_ok d1) as Hok1.
  { unfold decoder_ok, d1. cbn. intros ->. by destruct (H3 eq_refl). }
  destruct (IH d1 Hok1) as (I1 & I2 & I3 & I4 & I5).
  split; [done|]. split.
  { rewrite I2. unfold stream_rest, d1. cbn [dec_buf dec_raw]. by rewrite H1, app_assoc. }
  split; [done|]. split.
  { etrans; [apply I4|]. unfold d1. cbn [dec_buf dec_raw]. rewrite length_app. lia. }
  intros Hf. destruct eof.
  - right. by rewrite refill_eof.
  - apply I5. unfold d1. cbn [dec_buf]. rewrite length_app.
    destruct (H4 eq_refl) as [Hg _]. destruct got; [done|]. simpl. lia.
Qed.

(** *** One [Read] *)

(** What a [Read] into a buffer of at least one byte does to a decoder:
    it hands out bytes decoded before, or decodes a chunk of whole quanta at
    the head of the stream on its own, or reports the end of the stream, or
    fails, on fewer than four characters left at the end or on a chunk that
    does not decode. *)
Lemma decoder_Read_cases (L : nat) (d : decoder) :
  (1 <= L)%nat -> decoder_ok d ->
  match decoder_Read L d with
  | (read_bytes p, d') =>
      decoder_ok d' /\ (decoder_size d' < decoder_size d)%nat /\ (length p <= L)%nat
      /\ ((dec_out d <> [] /\ stream_rest d' = stream_rest d /\ p ++ dec_out d' = dec_out d)
          \/ (dec_out d = []
              /\ exists chunk decoded,
                   stream_rest d = chunk ++ stream_rest d'
                   /\ (length chunk mod 4 = 0)%nat
                   /\ base64_Decode chunk = Ok decoded
                   /\ p ++ dec_out d' = decoded))
  | (read_EOF, _) => dec_out d = [] /\ stream_rest d = []
  | (read_error e, _) =>
      dec_out d = []
      /\ ((e = io_ErrUnexpectedEOF /\ stream_rest d <> []
           /\ (length (stream_rest d) < 4)%nat)
          \/ exists chunk rest,
               stream_rest d = chunk ++ rest
               /\ (length chunk mod 4 = 0)%nat /\ base64_Decode chunk = Err e)
  end.
Proof.
  intros HL Hok. unfold decoder_Read.
  destruct (dec_out d) as [|o out] eqn:Eo.
  - set (nn := Nat.min 1024 (Nat.max 4 (L / 3 * 4))).
    destruct (refill_spec 4 nn d ltac:(unfold nn; lia) Hok) as (R1 & R2 & R3 & R4 & R5).
    set (d1 := refill 4 nn d) in *. cbn zeta.
    destruct (Nat.ltb_spec (length (dec_buf d1)) 4) as [Hlt|Hge].
    + destruct (R5 ltac:(lia)) as [?|Heof]; [lia|].
      assert (stream_rest d = dec_buf d1) as Hrest.
      { rewrite <- R2. unfold stream_rest. rewrite (R1 Heof). apply app_nil_r. }
      destruct (dec_buf d1) as [|x buf] eqn:Eb.
      * done.
      * split; [done|]. left. rewrite Hrest. done.
    + set (nr := (length (dec_buf d1) / 4 * 4)%nat).
      pose proof (Nat.div_mod_eq (length (dec_buf d1)) 4) as D.
      pose proof (Nat.mod_upper_bound (length (dec_buf d1)) 4 ltac:(done)) as U.
      assert (length (take nr (dec_buf d1)) = nr) as Lc
        by (rewrite length_take; unfold nr; lia).
      assert (length (take nr (dec_buf d1)) mod 4 = 0)%nat as Mc
        by (rewrite Lc; apply Nat.Div0.mod_mul).
      assert (stream_rest d
              = take nr (dec_buf d1)
                ++ (drop nr (dec_buf d1)
                    ++ List.filter (fun c => negb (is_newline c)) (dec_raw d1))) as Hrest.
      { rewrite <- R2. unfold stream_rest. by rewrite app_assoc, take_drop. }
      destruct (base64_Decode (take nr (dec_buf d1))) as [decoded|e] eqn:Ed.
      * pose proof (base64_Decode_length _ _ Mc Ed) as Ldec.
        rewrite Lc in Ldec. unfold nr in Ldec. rewrite Nat.div_mul in Ldec by done.
        split; [exact R1|]. split.
        { unfold decoder_size. cbn [dec_raw dec_buf dec_out].
          rewrite Eo, !length_drop. cbn [length]. unfold nr. lia. }
        split; [rewrite length_take; lia|].
        right. split; [done|]. exists (take nr (dec_buf d1)), decoded.
        split; [exact Hrest|]. split; [done|]. split; [done|]. apply take_drop.
      * split; [done|]. right. eexists _, _. split; [exact Hrest|]. done.
  - split; [exact Hok|]. split.
    { unfold decoder_size. cbn [dec_raw dec_buf dec_out].
      rewrite Eo, length_drop. cbn [length]. lia. }
    split; [rewrite length_take; lia|].
    left. split; [done|]. split; [done|]. apply take_drop.
Qed.

(** *** [io.ReadAll] *)

Section ReadAll.
Context {Gr : go_runtime}.

(** The free part of the buffer of [io.ReadAll] is never empty. *)
Lemma ReadAll_capacity (b p : list byte) (cap : nat) :
  (length b < cap)%nat -> (length p <= cap - length b)%nat ->
  (length (b ++ p)
   < (if (length (b ++ p) =? cap)%nat then Nat.max (S cap) (growslice cap) else cap))%nat.
Proof.
  intros Hb Hp. rewrite length_app.
  destruct (Nat.eqb_spec (length b + length p) cap); lia.
Qed.

(** Text that decodes as a whole decodes chunk by chunk, to the same
    bytes. *)
Lemma ReadAll_loop_whole (fuel : nat) (d : decoder) (b : list byte) (cap : nat)
    (out : list byte) :
  decoder_ok d -> (length b < cap)%nat -> (decoder_size d < fuel)%nat ->
  base64_decode_text (stream_rest d) = Ok out ->
  ReadAll_loop fuel d b cap = Ok (b ++ dec_out d ++ out).
Proof.
  revert d b cap out. induction fuel as [|fuel IH]; intros d b cap out Hok Hb Hf Hd; [lia|].
  cbn [ReadAll_loop].
  pose proof (decoder_Read_cases (cap - length b) d ltac:(lia) Hok) as Hc.
  destruct (decoder_Read (cap - length b) d) as [[p| |e] d'].
  - destruct Hc as (Hok' & Hs & Hp & [(Ho & Hr & Hpo)|(Ho & chunk & decoded & Hr & Hm & Hdec & Hpo)]).
    + rewrite (IH d' (b ++ p) _ out Hok' (ReadAll_capacity b p cap Hb Hp) ltac:(lia));
        [|by rewrite Hr].
      by rewrite <- Hpo, <- !app_assoc.
    + rewrite Hr in Hd.
      destruct (base64_decode_text_app _ _ _ Hm Hd) as (o1 & o2 & Ho1 & Ho2 & ->).
      assert (o1 = decoded) as -> by congruence.
      rewrite (IH d' (b ++ p) _ o2 Hok' (ReadAll_capacity b p cap Hb Hp) ltac:(lia) Ho2).
      by rewrite Ho, <- Hpo, <- !app_assoc.
  - destruct Hc as [Ho Hr]. rewrite Hr in Hd. injection Hd as <-.
    by rewrite Ho, !app_nil_r.
  - destruct Hc as [Ho [(-> & Hne & Hlt)|(chunk & rest & Hr & Hm & Hdec)]].
    + unfold base64_decode_text in Hd.
      destruct (base64_Decode _) as [o|]; [|done]. rewrite result_bind_Ok in Hd.
      rewrite Nat.mod_small in Hd by done.
      destruct (Nat.eqb_spec (length (stream_rest d)) 0) as [E|E]; [|done].
      by destruct (stream_rest d).
    + rewrite Hr in Hd.
      destruct (base64_decode_text_app _ _ _ Hm Hd) as (o1 & o2 & Ho1 & _). congruence.
Qed.

(** Text that the stream decoder accepts has only characters of the alphabet
    and padding, and whole quanta. *)
Lemma ReadAll_loop_Ok (fuel : nat) (d : decoder) (b : list byte) (cap : nat)
    (out : list byte) :
  decoder_ok d -> (length b < cap)%nat ->
  ReadAll_loop fuel d b cap = Ok out ->
  Forall (fun x => url_safe x = true) (stream_rest d)
  /\ (length (stream_rest d) mod 4 = 0)%nat.
Proof.
  revert d b cap. induction fuel as [|fuel IH]; intros d b cap Hok Hb H; [done|].
  cbn [ReadAll_loop] in H.
  pose proof (decoder_Read_cases (cap - length b) d ltac:(lia) Hok) as Hc.
  destruct (decoder_Read (cap - length b) d) as [[p| |e] d']; [| |done].
  - destruct Hc as (Hok' & Hs & Hp & [(Ho & Hr & Hpo)|(Ho & chunk & decoded & Hr & Hm & Hdec & Hpo)]).
    + rewrite <- Hr. by apply (IH d' (b ++ p) _ Hok' (ReadAll_capacity b p cap Hb Hp)).
    + destruct (IH d' (b ++ p) _ Hok' (ReadAll_capacity b p cap Hb Hp) H) as [F M].
      rewrite Hr. split.
      * apply Forall_app. split; [|done]. by eapply base64_Decode_Ok_chars.
      * rewrite length_app, <- Nat.Div0.add_mod_idemp_l, Hm. done.
  - destruct Hc as [_ ->]. by split; [constructor|].
Qed.

(** Every error of the stream decoder is a decoding error. *)
Lemma ReadAll_loop_Err (fuel : nat) (d : decoder) (b : list byte) (cap : nat) (e : error) :
  decoder_ok d -> (length b < cap)%nat ->
  ReadAll_loop fuel d b cap = Err e -> decoding_error e = true.
Proof.
  revert d b cap. induction fuel as [|fuel IH]; intros d b cap Hok Hb H;
    [by injection H as <-|].
  cbn [ReadAll_loop] in H.
  pose proof (decoder_Read_cases (cap - length b) d ltac:(lia) Hok) as Hc.
  destruct (decoder_Read (cap - length b) d) as [[p| |e'] d']; [|done|].
  - destruct Hc as (Hok' & _ & Hp & _).
    by apply (IH d' (b ++ p) _ Hok' (ReadAll_capacity b p cap Hb Hp)).
  - injection H as <-.
    destruct Hc as [_ [(-> & _)|(chunk & rest & _ & _ & Hdec)]]; [done|].
    by apply base64_Decode_Err in Hdec as ->.
Qed.

(** The fuel of [io.ReadAll] is enough: more changes nothing. *)
Lemma ReadAll_loop_fuel (fuel fuel' : nat) (d : decoder) (b : list byte) (cap : nat) :
  decoder_ok d -> (length b < cap)%nat ->
  (decoder_size d < fuel)%nat -> (decoder_size d < fuel')%nat ->
  ReadAll_loop fuel d b cap = ReadAll_loop fuel' d b cap.
Proof.
  revert fuel' d b cap. induction fuel as [|fuel IH]; intros fuel' d b cap Hok Hb Hf Hf';
    [lia|].
  destruct fuel' as [|fuel']; [lia|]. cbn [ReadAll_loop].
  pose proof (decoder_Read_cases (cap - length b) d ltac:(lia) Hok) as Hc.
  destruct (decoder_Read (cap - length b) d) as [[p| |e'] d']; [|done..].
  destruct Hc as (Hok' & Hs & Hp & _).
  apply IH; [done|by apply ReadAll_capacity|lia..].
Qed.

(** *** [io.ReadAll] of the decoder over a string *)

Lemma base64_decode_all_one_chunk (s : string) (out : list byte) :
  base64_decode_one_chunk s = Ok out -> base64_URLEncoding_decode_all s = Ok out.
Proof.
  intros H. unfold base64_URLEncoding_decode_all. cbn zeta.
  rewrite (ReadAll_loop_whole _ _ _ _ out); [done|done|simpl; lia| |done].
  unfold decoder_size. cbn. lia.
Qed.

(** [io.ReadAll] of the stream decoder gives back what the stream encoder
    was given. *)
Lemma base64_decode_all_EncodeToString (l : list byte) :
  base64_URLEncoding_decode_all (base64_URLEncoding_EncodeToString l) = Ok l.
Proof. apply base64_decode_all_one_chunk, base64_one_chunk_EncodeToString. Qed.

(** The stream decoder fails on text with a character that is neither of the
    alphabet, nor padding, nor a line break, and on text whose length, line
    breaks aside, is not a multiple of four. *)
Lemma base64_decode_all_invalid (s : string) :
  (exists c, In c (list_ascii_of_string s)
             /\ base64_decodeMap c = None /\ is_pad c = false /\ is_newline c = false)
  \/ (length (List.filter (fun c => negb (is_newline c)) (list_ascii_of_string s)) mod 4 <> 0)%nat ->
  exists e, base64_URLEncoding_decode_all s = Err e.
Proof.
  intros Hbad. destruct (base64_URLEncoding_decode_all s) as [out|e] eqn:E; [|by eauto].
  apply ReadAll_loop_Ok in E as [F M]; [|done|simpl; lia].
  unfold stream_rest in F, M. cbn [dec_buf dec_raw app] in F, M.
  destruct Hbad as [(c & Hin & Hc & Hp & Hn)|Hbad]; [|done].
  rewrite Forall_forall in F. specialize (F c).
  unfold url_safe in F. rewrite Hc, Hp in F. discriminate F.
  apply list_elem_of_In, filter_In. by rewrite Hn.
Qed.

Lemma base64_decode_all_Err (s : string) (e : error) :
  base64_URLEncoding_decode_all s = Err e -> decoding_error e = true.
Proof. apply ReadAll_loop_Err; [done|simpl; lia]. Qed.

(** *** Text of up to 680 characters *)

Lemma list_ascii_of_string_length (s : string) :
  length (list_ascii_of_string s) = String.length s.
Proof. induction s as [|c s IH]; [done|]. cbn. by rewrite IH. Qed.

Lemma filtered_Read_all (fuel k : nat) (raw : list ascii) :
  (length raw <= k)%nat -> (length raw <= fuel)%nat ->
  filtered_Read fuel k raw
  = match List.filter (fun c => negb (is_newline c)) raw with
    | [] => ([], true, [])
    | got => (got, false, [])
    end.
Proof.
  intros Hk Hf. destruct raw as [|x raw]; [by destruct fuel|].
  destruct fuel as [|fuel]; [simpl in Hf; lia|].
  cbn [filtered_Read]. rewrite take_ge, drop_ge by done.
  destruct (List.filter _ (x :: raw)); [by destruct fuel|done].
Qed.

(** The first refill takes the whole of a text that fits the buffer. *)
Lemma refill_short (nn : nat) (raw : list ascii) :
  (4 <= nn)%nat -> (length raw <= nn)%nat ->
  refill 4 nn (mkDecoder raw [] [] false)
  = mkDecoder [] (List.filter (fun c => negb (is_newline c)) raw) []
      (length (List.filter (fun c => negb (is_newline c)) raw) <? 4)%nat.
Proof.
  intros Hnn Hraw. cbn [refill dec_buf dec_eof dec_raw dec_out length Nat.ltb Nat.leb andb negb].
  rewrite filtered_Read_all by (rewrite ?Nat.sub_0_r; done).
  destruct (List.filter _ raw) as [|g got] eqn:Eg.
  - done.
  - cbn [app length filtered_Read dec_buf dec_eof dec_raw dec_out negb andb].
    rewrite ?andb_false_r, ?andb_true_r, ?app_nil_r.
    by destruct (_ <=? _)%nat.
Qed.

(** A [Read] at the end of the text reports the end, or the characters left
    over. *)
Lemma decoder_Read_end (L : nat) (r : list ascii) (eof : bool) :
  (length r < 4)%nat ->
  (decoder_Read L (mkDecoder [] r [] eof)).1
  = match r with
    | [] => read_EOF
    | _ => read_error io_ErrUnexpectedEOF
    end.
Proof.
  intros Hr. unfold decoder_Read. cbn [dec_out]. cbn zeta.
  set (nn := Nat.min 1024 _).
  assert (dec_buf (refill 4 nn (mkDecoder [] r [] eof)) = r) as ->.
  { destruct eof; [by rewrite refill_eof|].
    cbn [refill dec_buf dec_eof dec_raw dec_out length filtered_Read negb].
    destruct (Nat.ltb_spec (length r) 4); [|lia]. cbn [andb dec_buf negb].
    rewrite andb_false_r. cbn [dec_buf]. apply app_nil_r. }
  destruct (Nat.ltb_spec (length r) 4); [|lia]. by destruct r.
Qed.

(** For text of up to 680 characters, which the first [Read] takes whole,
    the stream decoder is the decoder of the text as one chunk. *)
Lemma base64_decode_all_short (s : string) :
  (String.length s <= 680)%nat ->
  base64_URLEncoding_decode_all s = base64_decode_one_chunk s.
Proof.
  intros Hs. rewrite <- list_ascii_of_string_length in Hs.
  unfold base64_URLEncoding_decode_all, base64_decode_one_chunk, base64_decode_text.
  cbn zeta. set (raw := list_ascii_of_string s) in *.
  pose proof (List.filter_length_le (fun c => negb (is_newline c)) raw) as Lf.
  set (src := List.filter (fun c => negb (is_newline c)) raw) in *.
  cbn [ReadAll_loop length]. unfold decoder_Read at 1. cbn [dec_out]. cbn zeta.
  change (Nat.min 1024 (Nat.max 4 ((512 - 0) / 3 * 4))) with 680%nat.
  rewrite refill_short by lia. fold src. cbn [dec_buf dec_raw dec_eof dec_out].
  clearbody src raw.
  pose proof (Nat.div_mod_eq (length src) 4) as D.
  pose proof (Nat.mod_upper_bound (length src) 4 ltac:(done)) as U.
  remember (length src / 4)%nat as q eqn:Eq.
  destruct (Nat.ltb_spec (length src) 4) as [Hlt|Hge].
  - assert (q = 0%nat) as -> by lia.
    rewrite take_0. cbn [base64_Decode]. change (Ok [] ≫= ?f) with (f (@nil byte)).
    cbn beta. rewrite Nat.mod_small by done.
    by destruct src as [|g got].
  - assert (length (take (q * 4) src) = (q * 4)%nat) as Lc by (rewrite length_take; lia).
    assert (length (take (q * 4) src) mod 4 = 0)%nat as Mc
      by (rewrite Lc; apply Nat.Div0.mod_mul).
    destruct (base64_Decode (take (q * 4) src)) as [decoded|e] eqn:Ed; [|done].
    pose proof (base64_Decode_length _ _ Mc Ed) as Ldec.
    rewrite Lc, Nat.div_mul in Ldec by done.
    change (Ok decoded ≫= ?f) with (f decoded). cbn beta.
    change (512 - 0)%nat with 512%nat.
    rewrite (take_ge decoded), (drop_ge decoded) by lia. cbn [app].
    destruct (Nat.eqb_spec (length decoded) 512) as [?|_]; [lia|].
    destruct (length raw) as [|fuel] eqn:Er; [lia|].
    cbn [ReadAll_loop].
    pose proof (decoder_Read_end (512 - length decoded) (drop (q * 4) src) false
                  ltac:(rewrite length_drop; lia)) as Hend.
    destruct (decoder_Read (512 - length decoded) _) as [res d'].
    cbn [fst] in Hend. subst res.
    destruct (Nat.eqb_spec (length src mod 4) 0) as [Hm|Hm].
    + rewrite (drop_ge src) by lia. done.
    + destruct (drop (q * 4) src) eqn:Edrop; [|done].
      apply (f_equal length) in Edrop. rewrite length_drop in Edrop.
      simpl in Edrop. lia.
Qed.

(** Short text with padding that does not end it is rejected. *)
Lemma base64_decode_all_misplaced_padding (s : string) :
  (String.length s <= 680)%nat -> misplaced_padding (text_of s) ->
  exists e, base64_URLEncoding_decode_all s = Err e.
Proof.
  intros Hs Hpad. rewrite base64_decode_all_short by done.
  unfold base64_decode_one_chunk, base64_decode_text. fold (text_of s).
  pose proof (Nat.div_mod_eq (length (text_of s)) 4) as D.
  destruct (Nat.eqb_spec (length (text_of s) mod 4) 0) as [Hm|Hm].
  - rewrite take_ge by lia.
    destruct (base64_Decode_misplaced_padding _ Hm Hpad) as [e ->]. eauto.
  - destruct (base64_Decode _); cbn; eauto.
Qed.


(** The fuel [base64_URLEncoding_decode_all] gives [io.ReadAll] is enough. *)
Lemma base64_decode_all_fuel (s : string) (fuel : nat) :
  (String.length s < fuel)%nat ->
  ReadAll_loop fuel (mkDecoder (list_ascii_of_string s) [] [] false) [] 512
  = base64_URLEncoding_decode_all s.
Proof.
  intros Hf. rewrite <- list_ascii_of_string_length in Hf.
  unfold base64_URLEncoding_decode_all. cbn zeta.
  apply ReadAll_loop_fuel; [done|simpl; lia|unfold decoder_size; cbn; lia..].
Qed.

End ReadAll.


(** * Running the program on a store *)

Lemma store_eta (σ : store) : mkStore (credentials σ) (envelopes σ) (managers σ) = σ.
Proof. by destruct σ. Qed.

(** A new pointer is to no object yet, so it differs from every pointer in
    use. *)
Lemma fresh_lookup {A} (m : gmap loc A) : m !! fresh (dom m) = None.
Proof. apply not_elem_of_dom, is_fresh. Qed.

Lemma fresh_ne {A} (m : gmap loc A) (l : loc) (x : A) :
  m !! l = Some x -> fresh (dom m) <> l /\ l <> fresh (dom m).
Proof.
  intros Hl. pose proof (fresh_lookup m) as Hf.
  split; intros E; rewrite E in *; congruence.
Qed.

Lemma read_envelope_Some (σ : store) (l : loc) (msg : AuthenticatedCredential_message) :
  read_envelope σ l = Some msg ->
  exists a, envelopes σ !! l = Some a /\ msg_mac msg = Mac a
    /\ msg_unknownFields msg = unknownFields a
    /\ match Credential a with
       | None => msg_credential msg = None
       | Some p => exists c, credentials σ !! p = Some c /\ msg_credential msg = Some c
       end.
Proof.
  unfold read_envelope. intros Hr.
  destruct (envelopes σ !! l) as [a|]; [|done]. exists a.
  destruct (Credential a) as [p|].
  - destruct (credentials σ !! p) as [c|]; [|done]. injection Hr as <-. eauto 10.
  - by injection Hr as <-.
Qed.

Section run.
Context {Sch : pb.schema} {Rt : proto_runtime} {Gr : go_runtime}.

Lemma Pool_Get_run (σ : store) (c : loc) (m : CredentialManager) :
  managers σ !! c = Some m ->
  Pool_Get c σ
  = Returns (pool_take m).1
      (mkStore (credentials σ) (envelopes σ)
         (<[c := mkCredentialManager (key m) (pool_take m).2]> (managers σ))).
Proof.
  intros Hm. unfold Pool_Get, pool_take. go_simpl.
  destruct (pool m) as [|x rest] eqn:Ep; go_simpl; [|done].
  rewrite insert_id; [by rewrite store_eta|].
  rewrite Hm. destruct m. cbn in *. by subst.
Qed.

Lemma proto_Marshal_Credential_run (σ : store) (p : option loc) (oc : option pb.Credential) :
  match p with
  | None => oc = None
  | Some l => exists c, credentials σ !! l = Some c /\ oc = Some c
  end ->
  proto_Marshal_Credential p σ
  = Returns (proto_Marshal_bytes (encode_Credential_ptr oc)) σ.
Proof.
  unfold proto_Marshal_Credential. destruct p as [l|].
  - intros (c & Hc & ->). by go_simpl.
  - by intros ->.
Qed.

(** [authenticateCredential] on a message that can be read: an error of
    [proto.Marshal] is wrapped and nothing changes; an item of the pool that is
    no hash is an error and leaves the pool; otherwise the MAC of the
    encoding of the inner message is stored and the hash goes back, reset. *)
Lemma authenticateCredential_run (σ : store) (c l : loc) (m : CredentialManager)
    (msg : AuthenticatedCredential_message) :
  managers σ !! c = Some m ->
  read_envelope σ l = Some msg ->
  authenticateCredential c l σ =
    match proto_Marshal_bytes (encode_Credential_ptr (msg_credential msg)) with
    | Err e => Returns (Some (errors_Wrap e "Error serializing HMAC protobuf body")) σ
    | Ok bytes =>
        match (pool_take m).1 with
        | any_other =>
            Returns (Some (errors_New "Couldn't retrieve available hash from pool"))
              (mkStore (credentials σ) (envelopes σ)
                 (<[c := mkCredentialManager (key m) (pool_take m).2]> (managers σ)))
        | any_Hash h =>
            Returns None
              (mkStore (credentials σ)
                 (<[l := mkAuthenticatedCredential
                           match envelopes σ !! l with
                           | Some a => Credential a
                           | None => None
                           end
                           (hmac_sha256 (hash_key h) (hash_written h ++ bytes))
                           (msg_unknownFields msg)]> (envelopes σ))
                 (<[c := mkCredentialManager (key m)
                           (any_Hash (HmacHash (hash_key h) []) :: (pool_take m).2)]>
                    (managers σ)))
        end
    end.
Proof.
  intros Hm Hr. apply read_envelope_Some in Hr as (a & Ha & _ & Hu & Hc).
  unfold authenticateCredential. go_simpl.
  rewrite (proto_Marshal_Credential_run _ _ _ Hc).
  destruct (proto_Marshal_bytes _) as [bytes|e]; [|done].
  rewrite (Pool_Get_run _ _ _ Hm).
  destruct (pool_take m).1 as [h|]; [|done].
  unfold Pool_Put. go_simpl. rewrite insert_insert_eq, Hu. done.
Qed.

End run.


Section run_manager.
Context {Sch : pb.schema} {Rt : proto_runtime} {Gr : go_runtime}.

Lemma delete_fresh_inserts {A} (m : gmap loc A) (x y : A) :
  delete (fresh (dom m)) (<[fresh (dom m) := x]> (<[fresh (dom m) := y]> m)) = m.
Proof.
  rewrite insert_insert_eq, delete_insert_eq. apply delete_id, fresh_lookup.
Qed.

(** [Verify] on a message that can be read: the errors of
    [authenticateCredential] are wrapped; otherwise the MAC computed into
    [tmp] is compared with the message's. Only the pool changes. *)
Lemma Verify_run (σ : store) (c ac : loc) (m : CredentialManager)
    (msg : AuthenticatedCredential_message) :
  managers σ !! c = Some m ->
  read_envelope σ ac = Some msg ->
  Verify c ac σ =
    match proto_Marshal_bytes (encode_Credential_ptr (msg_credential msg)) with
    | Err e =>
        Returns (Some (errors_Wrap (errors_Wrap e "Error serializing HMAC protobuf body")
                         "Error while re-creating the MAC")) σ
    | Ok bytes =>
        match (pool_take m).1 with
        | any_other =>
            Returns (Some (errors_Wrap
                             (errors_New "Couldn't retrieve available hash from pool")
                             "Error while re-creating the MAC"))
              (mkStore (credentials σ) (envelopes σ)
                 (<[c := mkCredentialManager (key m) (pool_take m).2]> (managers σ)))
        | any_Hash h =>
            Returns
              (if negb (hmac_Equal (hmac_sha256 (hash_key h) (hash_written h ++ bytes))
                          (msg_mac msg))
               then Some (errors_New "credential MAC mismatch") else None)
              (mkStore (credentials σ) (envelopes σ)
                 (<[c := mkCredentialManager (key m)
                           (any_Hash (HmacHash (hash_key h) []) :: (pool_take m).2)]>
                    (managers σ)))
        end
    end.
Proof.
  intros Hm Hr. pose proof Hr as Hr'.
  apply read_envelope_Some in Hr' as (a & Ha & Hmac & Hu & Hc).
  destruct (fresh_ne _ _ _ Ha) as [Hne1 Hne2].
  unfold Verify. go_simpl.
  set (tmp := fresh (dom (envelopes σ))) in *.
  rewrite (authenticateCredential_run _ c tmp m
             (mkMessage (msg_credential msg) [] [])); [|done|].
  - cbn [msg_credential msg_unknownFields].
    destruct (proto_Marshal_bytes _) as [bytes|e].
    + destruct (pool_take m).1 as [h|]; go_simpl.
      * unfold tmp. rewrite insert_insert_eq, delete_fresh_inserts, Hmac.
        by destruct (hmac_Equal _ _).
      * unfold tmp. by rewrite delete_fresh_inserts.
    + go_simpl. unfold tmp. by rewrite delete_fresh_inserts, store_eta.
  - unfold read_envelope. go_simpl.
    destruct (Credential a) as [p|].
    + destruct Hc as (cr & Hcr & ->). by go_simpl.
    + by rewrite Hc.
Qed.

(** [Create] with a node id of 20 bytes: the message and its inner message
    are new objects; the rest is [authenticateCredential]. *)
Lemma Create_run (σ : store) (c : loc) (m : CredentialManager)
    (timestamp : Time) (nodeID : list byte) (ot : Z) :
  managers σ !! c = Some m ->
  length nodeID = 20%nat ->
  let message := fresh (dom (envelopes σ)) in
  let p := fresh (dom (credentials σ)) in
  let cred := pb.mkCredential nodeID ot (Time_Unix timestamp) [] in
  let filled mac :=
    mkStore (<[p := cred]> (credentials σ))
      (<[message := mkAuthenticatedCredential (Some p) mac []]> (envelopes σ)) in
  Create c timestamp nodeID ot σ =
    match proto_Marshal_bytes (encode_Credential cred) with
    | Err e =>
        Returns (Err (errors_Wrap e "Error serializing HMAC protobuf body"))
          (filled [] (managers σ))
    | Ok bytes =>
        match (pool_take m).1 with
        | any_other =>
            Returns (Err (errors_New "Couldn't retrieve available hash from pool"))
              (filled [] (<[c := mkCredentialManager (key m) (pool_take m).2]> (managers σ)))
        | any_Hash h =>
            Returns (Ok message)
              (filled (hmac_sha256 (hash_key h) (hash_written h ++ bytes))
                 (<[c := mkCredentialManager (key m)
                           (any_Hash (HmacHash (hash_key h) []) :: (pool_take m).2)]>
                    (managers σ)))
        end
    end.
Proof.
  intros Hm Hlen message p cred filled. unfold Create.
  rewrite Hlen. cbn [Nat.eqb negb]. go_simpl.
  fold message p.
  rewrite !insert_insert_eq. fold cred.
  rewrite (authenticateCredential_run _ c message m (mkMessage (Some cred) [] []));
    [|done|].
  - cbn [msg_credential msg_unknownFields encode_Credential_ptr].
    destruct (proto_Marshal_bytes _) as [bytes|e]; [|done].
    destruct (pool_take m).1 as [h|]; go_simpl; [|done].
    by rewrite insert_insert_eq.
  - unfold read_envelope. by go_simpl.
Qed.

Lemma pool_ok_take (m : CredentialManager) :
  pool_ok m ->
  (pool_take m).1 = any_Hash (hmac_New (key m))
  /\ pool_ok (mkCredentialManager (key m)
                (any_Hash (HmacHash (key m) []) :: (pool_take m).2)).
Proof.
  unfold pool_ok, pool_take. intros Hp.
  destruct (pool m) as [|x rest]; cbn [fst snd key pool].
  - split; [done|]. by repeat constructor.
  - apply Forall_cons in Hp as [-> Hp]. split; [done|]. by repeat constructor.
Qed.

Lemma NewCredentialManager_run (σ : store) (k : list byte) :
  NewCredentialManager k σ
  = Returns (fresh (dom (managers σ)))
      (mkStore (credentials σ) (envelopes σ)
         (<[fresh (dom (managers σ)) := mkCredentialManager k []]> (managers σ))).
Proof. done. Qed.

Lemma pool_ok_new (k : list byte) : pool_ok (mkCredentialManager k []).
Proof. constructor. Qed.

End run_manager.


(** ** The codecs on a store *)

Section run_codec.
Context {Sch : pb.schema} {Rt : proto_runtime} {Gr : go_runtime}.

Lemma Credential_eta (c : pb.Credential) :
  pb.mkCredential (pb.NodeId c) (pb.OperatorType c) (pb.Timestamp c) (pb.unknownFields c) = c.
Proof. by destruct c. Qed.

Lemma Base64URLEncodeUsername_run (σ : store) (ac : loc) (a : AuthenticatedCredential)
    (p : loc) (c : pb.Credential) :
  envelopes σ !! ac = Some a -> Credential a = Some p -> credentials σ !! p = Some c ->
  Base64URLEncodeUsername ac σ
  = Returns (base64_URLEncoding_EncodeToString (pb.NodeId c)) σ.
Proof.
  intros Ha Hp Hc. destruct a as [pa mac unk]. cbn [Credential] in Hp. subst pa.
  unfold Base64URLEncodeUsername. by go_simpl.
Qed.

(** [Base64URLEncodePassword]: when [proto.Marshal] succeeds the store is as
    before; when it fails the inner message is left with no node id. *)
Lemma Base64URLEncodePassword_run (σ : store) (ac : loc) (a : AuthenticatedCredential)
    (p : loc) (c : pb.Credential) :
  envelopes σ !! ac = Some a -> Credential a = Some p -> credentials σ !! p = Some c ->
  Base64URLEncodePassword ac σ =
    match proto_Marshal_bytes
            (encode_AuthenticatedCredential
               (mkMessage (Some (blank c)) (Mac a) (unknownFields a))) with
    | Err e =>
        Returns (Err e)
          (mkStore (<[p := blank c]> (credentials σ)) (envelopes σ) (managers σ))
    | Ok marshaled => Returns (Ok (base64_URLEncoding_EncodeToString marshaled)) σ
    end.
Proof.
  intros Ha Hp Hc. destruct a as [pa mac unk]. cbn [Credential] in Hp. subst pa.
  unfold Base64URLEncodePassword, proto_Marshal, read_message.
  go_simpl. fold (blank c).
  destruct (proto_Marshal_bytes _) as [marshaled|e]; [|done].
  unfold blank. go_simpl.
  rewrite insert_insert_eq, Credential_eta, insert_id by done.
  by rewrite store_eta.
Qed.

Lemma merge_Credential_zero (c : pb.Credential) :
  merge_Credential pb.Credential_zero c = c.
Proof.
  destruct c as [n o t u]. unfold merge_Credential. cbn.
  f_equal.
  - by case_bool_decide.
  - by destruct (Z.eqb_spec o 0).
  - by destruct (Z.eqb_spec t 0).
Qed.

(** [Base64URLDecode] on text that decodes: with no inner message in the
    payload, the assignment of the node id panics; otherwise the receiver
    holds the payload's message with the node id of the username. *)
Lemma Base64URLDecode_run (σ : store) (ac : loc) (d : AuthenticatedCredential)
    (username password : string) (nodeID decoded : list byte)
    (m : AuthenticatedCredential_message) :
  envelopes σ !! ac = Some d ->
  base64_URLEncoding_decode_all username = Ok nodeID ->
  base64_URLEncoding_decode_all password = Ok decoded ->
  decode_AuthenticatedCredential decoded = Ok m ->
  match msg_credential m with
  | None => Base64URLDecode ac username password σ = Panics
  | Some c =>
      exists σ',
        Base64URLDecode ac username password σ = Returns None σ'
        /\ read_envelope σ' ac
           = Some (mkMessage
                     (Some (pb.mkCredential nodeID (pb.OperatorType c) (pb.Timestamp c)
                              (pb.unknownFields c)))
                     (msg_mac m) (msg_unknownFields m))
  end.
Proof.
  intros Hd Hu Hp Hm.
  destruct (fresh_ne _ _ _ Hd) as [Hne1 Hne2].
  unfold Base64URLDecode, proto_Unmarshal, proto_Merge, Reset.
  rewrite Hu, Hp. go_simpl. rewrite Hm.
  set (newCred := fresh (dom (envelopes σ))) in *.
  destruct (msg_credential m) as [c|] eqn:Ec.
  - go_simpl.
    set (p1 := fresh (dom (credentials σ))).
    set (p2 := fresh (dom (<[p1 := c]> (credentials σ)))).
    assert (p2 <> p1 /\ p1 <> p2) as [Hp21 Hp12].
    { apply (fresh_ne _ _ c). apply lookup_insert_eq. }
    go_simpl. eexists. split; [done|].
    unfold read_envelope. go_simpl.
    rewrite lookup_delete_ne by done. go_simpl.
    rewrite merge_Credential_zero. cbn [pb.OperatorType pb.Timestamp pb.unknownFields].
    by case_bool_decide as E; [rewrite E|].
  - by go_simpl.
Qed.

Lemma MarshalJSON_run (σ : store) (ac : loc) (a : AuthenticatedCredential)
    (p : loc) (c : pb.Credential) :
  envelopes σ !! ac = Some a -> Credential a = Some p -> credentials σ !! p = Some c ->
  MarshalJSON ac σ
  = Returns (Ok (json_Marshal
                   (mkJson ("0x" ++ hex_EncodeToString (pb.NodeId c)) (pb.Timestamp c)
                      (pb.OperatorType c) (base64_URLEncoding_EncodeToString (Mac a))))) σ.
Proof.
  intros Ha Hp Hc. destruct a as [pa mac unk]. cbn [Credential] in Hp. subst pa.
  unfold MarshalJSON. by go_simpl.
Qed.

(** [json.Unmarshal] of the document [json.Marshal] wrote gives the struct
    back, its integers being an [int64] and an [int32]. *)
Lemma json_Unmarshal_Marshal (j : jsonAuthenticatedCredential) :
  - 2 ^ 63 <= json_Timestamp j < 2 ^ 63 ->
  - 2 ^ 31 <= json_OperatorType j < 2 ^ 31 ->
  json_Unmarshal (Some (json_Marshal j)) = Ok j.
Proof.
  intros Ht Ho. destruct j as [n t o m]. cbn [json_Timestamp json_OperatorType] in *.
  unfold json_Unmarshal, json_Marshal. cbn [fold_left].
  assert (forall z bits lo hi name old, lo = - 2 ^ (bits - 1) -> hi = 2 ^ (bits - 1) ->
            lo <= z < hi -> decode_int_field name bits (JNumber (JInt z)) old = Ok z) as Hint.
  { intros z bits lo hi name old -> -> Hz. unfold decode_int_field.
    destruct (Z.leb_spec (- 2 ^ (bits - 1)) z); [|lia].
    destruct (Z.ltb_spec z (2 ^ (bits - 1))); [done|lia]. }
  unfold decode_member at 4.
  change (key_is "node_id" "node_id") with true. cbn iota beta.
  cbn [decode_string_field json_zero json_NodeID json_Timestamp json_OperatorType json_Mac].
  unfold decode_member at 3.
  change (key_is "timestamp" "node_id") with false.
  change (key_is "timestamp" "timestamp") with true. cbn iota beta.
  cbn [json_NodeID json_Timestamp json_OperatorType json_Mac].
  rewrite (Hint t 64 (- 2 ^ 63) (2 ^ 63)) by done.
  unfold decode_member at 2.
  change (key_is "operator_type" "node_id") with false.
  change (key_is "operator_type" "timestamp") with false.
  change (key_is "operator_type" "operator_type") with true. cbn iota beta.
  cbn [json_NodeID json_Timestamp json_OperatorType json_Mac].
  rewrite (Hint o 32 (- 2 ^ 31) (2 ^ 31)) by done.
  unfold decode_member.
  change (key_is "mac" "node_id") with false.
  change (key_is "mac" "timestamp") with false.
  change (key_is "mac" "operator_type") with false.
  change (key_is "mac" "mac") with true. cbn iota beta.
  done.
Qed.


End run_codec.


(** * The credential manager *)

Section manager.
Context {Sch : pb.schema} {Rt : proto_runtime} {Gr : go_runtime}.

Lemma proto_Marshal_bytes_Ok (b : list byte) :
  Marshal_error b = None -> proto_Marshal_bytes b = Ok b.
Proof. unfold proto_Marshal_bytes. by intros ->. Qed.

Lemma proto_Marshal_bytes_Err (b : list byte) (e : error) :
  Marshal_error b = Some e -> proto_Marshal_bytes b = Err e.
Proof. unfold proto_Marshal_bytes. by intros ->. Qed.

(** [Create] on a manager whose pool is in order, when [proto.Marshal]
    accepts the credential: the store it leaves. *)
Lemma Create_ok (σ : store) (c : loc) (m : CredentialManager)
    (timestamp : Time) (nodeID : list byte) (ot : Z) :
  managers σ !! c = Some m -> pool_ok m -> length nodeID = 20%nat ->
  let cred := pb.mkCredential nodeID ot (Time_Unix timestamp) [] in
  Marshal_error (encode_Credential cred) = None ->
  Create c timestamp nodeID ot σ =
    Returns (Ok (fresh (dom (envelopes σ))))
      (mkStore (<[fresh (dom (credentials σ)) := cred]> (credentials σ))
         (<[fresh (dom (envelopes σ)) :=
              mkAuthenticatedCredential (Some (fresh (dom (credentials σ))))
                (hmac_sha256 (key m) (encode_Credential cred)) []]> (envelopes σ))
         (<[c := mkCredentialManager (key m)
                   (any_Hash (HmacHash (key m) []) :: (pool_take m).2)]> (managers σ))).
Proof.
  intros Hm Hp Hlen cred Hmarshal.
  rewrite (Create_run σ c m) by done. cbn zeta. fold cred.
  rewrite (proto_Marshal_bytes_Ok _ Hmarshal).
  destruct (pool_ok_take m Hp) as [-> _]. done.
Qed.

(** After [Create], every manager of the store holds the key it held and a
    pool in order. *)
Lemma Create_ok_managers (σ : store) (c v : loc) (m mv : CredentialManager) :
  managers σ !! c = Some m -> pool_ok m ->
  managers σ !! v = Some mv -> pool_ok mv ->
  exists mv',
    <[c := mkCredentialManager (key m)
             (any_Hash (HmacHash (key m) []) :: (pool_take m).2)]> (managers σ) !! v
    = Some mv'
    /\ key mv' = key mv /\ pool_ok mv'.
Proof.
  intros Hm Hp Hv Hpv. destruct (decide (v = c)) as [->|Hne].
  - rewrite lookup_insert_eq. eexists. split; [done|].
    assert (mv = m) as -> by congruence.
    split; [done|]. by apply pool_ok_take.
  - rewrite lookup_insert_ne by done. eauto.
Qed.

(** C1. For every key and every node id of exactly 20 bytes, [Create]
    returns an authenticated credential whose inner credential holds the node
    id, the operator type and the Unix seconds of the timestamp, and whose MAC
    is HMAC-SHA256 under the manager's key of the serialization of the inner
    credential alone: the envelope and its [mac] field are no part of the
    authenticated bytes. The manager is one whose pool only
    [authenticateCredential] has used, and [proto.Marshal] accepts the
    credential. *)
Theorem Create_authenticates (σ : store) (c : loc) (m : CredentialManager)
    (timestamp : Time) (nodeID : list byte) (ot : Z) :
  managers σ !! c = Some m -> pool_ok m -> length nodeID = 20%nat ->
  let cred := pb.mkCredential nodeID ot (Time_Unix timestamp) [] in
  Marshal_error (encode_Credential cred) = None ->
  exists ac σ',
    Create c timestamp nodeID ot σ = Returns (Ok ac) σ'
    /\ read_envelope σ' ac
       = Some (mkMessage (Some cred) (hmac_sha256 (key m) (encode_Credential cred)) []).
Proof.
  intros Hm Hp Hlen cred Hmarshal.
  eexists _, _. split; [by apply Create_ok|].
  unfold read_envelope. by go_simpl.
Qed.

(** C2. [Create] with a node id whose length is not 20 fails with the
    invalid-length error and leaves the store as it was: no object is made and
    the pool is not used. With a node id of exactly 20 bytes it succeeds, and
    [Verify] by the same manager on the credential it returned gives no
    error. *)
Theorem Create_validity (σ : store) (c : loc) (timestamp : Time) (nodeID : list byte)
    (ot : Z) :
  (length nodeID <> 20%nat ->
   Create c timestamp nodeID ot σ
   = Returns (Err (fmt_Errorf "invalid nodeID length. Expected 20, got %d"
                     (Z.of_nat (length nodeID)))) σ)
  /\ (length nodeID = 20%nat ->
      forall m, managers σ !! c = Some m -> pool_ok m ->
      Marshal_error
        (encode_Credential (pb.mkCredential nodeID ot (Time_Unix timestamp) [])) = None ->
      exists ac σ' σ'',
        Create c timestamp nodeID ot σ = Returns (Ok ac) σ'
        /\ Verify c ac σ' = Returns None σ'').
Proof.
  split.
  - intros Hlen. unfold Create.
    by destruct (Nat.eqb_spec (length nodeID) 20).
  - intros Hlen m Hm Hp Hmarshal.
    eexists _, _, _. split; [by apply Create_ok|].
    destruct (pool_ok_take m Hp) as [_ Hp'].
    erewrite Verify_run; [| by go_simpl | unfold read_envelope; by go_simpl].
    cbn [msg_credential msg_mac encode_Credential_ptr].
    rewrite (proto_Marshal_bytes_Ok _ Hmarshal).
    cbn [pool_take pool key fst snd hash_key hash_written app].
    by rewrite hmac_Equal_refl.
Qed.

(** C3. [Verify] on a credential that can be read. When [proto.Marshal]
    fails, or the pool hands out something that is no hash, the error is the
    wrapped one of the recomputation, which is not the mismatch error. When
    the MAC is recomputed, [Verify] returns no error exactly when the supplied
    MAC is HMAC-SHA256 under the manager's key of the serialization of the
    inner credential, and the error "credential MAC mismatch" otherwise. *)
Theorem Verify_outcome (σ : store) (c ac : loc) (m : CredentialManager)
    (msg : AuthenticatedCredential_message) :
  managers σ !! c = Some m ->
  read_envelope σ ac = Some msg ->
  let bytes := encode_Credential_ptr (msg_credential msg) in
  let mismatch := errors_New "credential MAC mismatch" in
  (forall e, Marshal_error bytes = Some e ->
     exists r σ', Verify c ac σ = Returns (Some r) σ'
       /\ r = errors_Wrap (errors_Wrap e "Error serializing HMAC protobuf body")
                "Error while re-creating the MAC"
       /\ r <> mismatch)
  /\ (forall rest, Marshal_error bytes = None -> pool m = any_other :: rest ->
     exists r σ', Verify c ac σ = Returns (Some r) σ'
       /\ r = errors_Wrap (errors_New "Couldn't retrieve available hash from pool")
                "Error while re-creating the MAC"
       /\ r <> mismatch)
  /\ (Marshal_error bytes = None -> pool_ok m ->
     exists r σ', Verify c ac σ = Returns r σ'
       /\ (r = None <-> msg_mac msg = hmac_sha256 (key m) bytes)
       /\ (msg_mac msg <> hmac_sha256 (key m) bytes -> r = Some mismatch)).
Proof.
  intros Hm Hr bytes mismatch.
  rewrite (Verify_run σ c ac m msg Hm Hr). fold bytes.
  split; [|split].
  - intros e He. rewrite (proto_Marshal_bytes_Err _ _ He). by eexists _, _.
  - intros rest Hb Hpool. rewrite (proto_Marshal_bytes_Ok _ Hb).
    unfold pool_take. rewrite Hpool. cbn [fst snd]. by eexists _, _.
  - intros Hb Hp. rewrite (proto_Marshal_bytes_Ok _ Hb).
    destruct (pool_ok_take m Hp) as [-> _].
    cbn [hmac_New hash_key hash_written app].
    eexists _, _. split; [done|].
    destruct (hmac_Equal _ _) eqn:E; cbn [negb].
    + apply hmac_Equal_true in E. by rewrite E.
    + apply hmac_Equal_false in E.
      split; [split; [done|by intros E'; rewrite E' in E]|done].
Qed.

(** C9. [Verify] on a credential that can be read returns, with or without
    an error, and leaves every message and every inner message of the store as
    it was, the argument's among them: the MAC it computes goes into [tmp],
    which is gone when it returns. *)
Theorem Verify_frame (σ : store) (c ac : loc) (m : CredentialManager)
    (msg : AuthenticatedCredential_message) :
  managers σ !! c = Some m ->
  read_envelope σ ac = Some msg ->
  exists r σ',
    Verify c ac σ = Returns r σ'
    /\ envelopes σ' = envelopes σ
    /\ credentials σ' = credentials σ
    /\ read_envelope σ' ac = Some msg.
Proof.
  intros Hm Hr. rewrite (Verify_run σ c ac m msg Hm Hr).
  destruct (proto_Marshal_bytes _) as [bytes|e].
  - destruct (pool_take m).1 as [h|]; by eexists _, _.
  - by eexists _, _.
Qed.

(** C10. [Create] is deterministic. Two calls with the same timestamp,
    node id and operator type, one after the other in one store, on one
    manager or on two managers that hold the same key, give the same MAC, and
    so does a call on a manager with that key in any other store: the second
    call on one manager takes the hash that the first put back, reset, and
    the MAC is the HMAC-SHA256 of the serialized credential, which depends on
    nothing but the key and the three arguments. The pools are in order
    before the first call, and [proto.Marshal] accepts the credential. *)
Theorem Create_deterministic (σ σ' : store) (c1 c2 c' : loc)
    (m1 m2 m' : CredentialManager) (timestamp : Time) (nodeID : list byte) (ot : Z) :
  managers σ !! c1 = Some m1 -> managers σ !! c2 = Some m2 ->
  managers σ' !! c' = Some m' ->
  pool_ok m1 -> pool_ok m2 -> pool_ok m' ->
  key m2 = key m1 -> key m' = key m1 ->
  length nodeID = 20%nat ->
  let cred := pb.mkCredential nodeID ot (Time_Unix timestamp) [] in
  Marshal_error (encode_Credential cred) = None ->
  exists ac1 σ1 ac2 σ2 ac3 σ3 mac,
    Create c1 timestamp nodeID ot σ = Returns (Ok ac1) σ1
    /\ Create c2 timestamp nodeID ot σ1 = Returns (Ok ac2) σ2
    /\ Create c' timestamp nodeID ot σ' = Returns (Ok ac3) σ3
    /\ ac1 <> ac2
    /\ Mac <$> envelopes σ2 !! ac1 = Some mac
    /\ Mac <$> envelopes σ2 !! ac2 = Some mac
    /\ Mac <$> envelopes σ3 !! ac3 = Some mac
    /\ mac = hmac_sha256 (key m1) (encode_Credential cred).
Proof.
  intros Hm1 Hm2 Hm' Hp1 Hp2 Hp' Hk2 Hk' Hlen cred Hmarshal.
  pose proof (Create_ok σ c1 m1 timestamp nodeID ot Hm1 Hp1 Hlen Hmarshal) as H1.
  cbn zeta in H1. fold cred in H1.
  set (ac1 := fresh (dom (envelopes σ))) in *.
  set (σ1 := mkStore _ _ _) in H1.
  destruct (Create_ok_managers σ c1 c2 m1 m2 Hm1 Hp1 Hm2 Hp2) as (mv & Hmv & Hkv & Hpv).
  pose proof (Create_ok σ1 c2 mv timestamp nodeID ot Hmv Hpv Hlen Hmarshal) as H2.
  cbn zeta in H2. fold cred in H2.
  set (ac2 := fresh (dom (envelopes σ1))) in *.
  pose proof (Create_ok σ' c' m' timestamp nodeID ot Hm' Hp' Hlen Hmarshal) as H3.
  cbn zeta in H3. fold cred in H3.
  assert (envelopes σ1 !! ac1
          = Some (mkAuthenticatedCredential (Some (fresh (dom (credentials σ))))
                    (hmac_sha256 (key m1) (encode_Credential cred)) [])) as Ha1.
  { unfold σ1. cbn [envelopes]. apply lookup_insert_eq. }
  destruct (fresh_ne _ _ _ Ha1) as [Hne _]. fold ac2 in Hne.
  eexists ac1, σ1, ac2, _, _, _, _.
  split; [exact H1|]. split; [exact H2|]. split; [exact H3|].
  split; [done|]. cbn [envelopes].
  rewrite lookup_insert_ne by done. rewrite Ha1, !lookup_insert_eq.
  cbn [fmap option_fmap option_map Mac].
  by rewrite Hkv, Hk2, Hk'.
Qed.

End manager.


(** * The codecs *)

Section codec.
Context {Sch : pb.schema} {Rt : proto_runtime} {Gr : go_runtime}.

Lemma read_envelope_credential (σ : store) (ac : loc)
    (msg : AuthenticatedCredential_message) (c : pb.Credential) :
  read_envelope σ ac = Some msg -> msg_credential msg = Some c ->
  exists a p, envelopes σ !! ac = Some a /\ Credential a = Some p
    /\ credentials σ !! p = Some c
    /\ msg = mkMessage (Some c) (Mac a) (unknownFields a).
Proof.
  intros Hr Hc. apply read_envelope_Some in Hr as (a & Ha & Hmac & Hu & Hcr).
  exists a. destruct (Credential a) as [p|]; [|congruence].
  destruct Hcr as (c' & Hp & Hc'). exists p.
  assert (c' = c) as -> by congruence.
  destruct msg; cbn in *; by subst.
Qed.

(** C4. The token pair of a valid authenticated credential (one with an
    inner credential, values a Go program can hold, and no unknown fields)
    decodes to the same credential: the receiver of [Base64URLDecode] ends up
    with the node id, operator type, timestamp and MAC that the argument of
    the two encoders holds, and the encoders leave the store as it was.
    [proto.Marshal] is taken to accept the message. *)
Theorem token_pair_round_trip (σ : store) (ac dst : loc)
    (msg : AuthenticatedCredential_message) (c : pb.Credential)
    (d : AuthenticatedCredential) :
  pb.schema_ok Sch = true ->
  read_envelope σ ac = Some msg -> msg_credential msg = Some c -> wf_message msg ->
  envelopes σ !! dst = Some d ->
  Marshal_error
    (encode_AuthenticatedCredential
       (mkMessage (Some (blank c)) (msg_mac msg) (msg_unknownFields msg))) = None ->
  exists username password σ',
    Base64URLEncodeUsername ac σ = Returns username σ
    /\ Base64URLEncodePassword ac σ = Returns (Ok password) σ
    /\ Base64URLDecode dst username password σ = Returns None σ'
    /\ read_envelope σ' dst = Some msg.
Proof.
  intros Hok Hr Hc (Hwf & Hmac & Hunk) Hd Hmarshal.
  destruct (read_envelope_credential _ _ _ _ Hr Hc) as (a & p & Ha & Hp & Hcr & ->).
  cbn [msg_credential msg_mac msg_unknownFields] in *.
  destruct (Hwf c eq_refl) as [(Hn & Ho & Ht) Hu].
  eexists _, _.
  pose proof (Base64URLEncodePassword_run σ ac a p c Ha Hp Hcr) as Hpw.
  rewrite (proto_Marshal_bytes_Ok _ Hmarshal) in Hpw.
  set (wire := encode_AuthenticatedCredential
                 (mkMessage (Some (blank c)) (Mac a) (unknownFields a))) in *.
  pose proof (Base64URLDecode_run σ dst d _ _ _ _
                (mkMessage (Some (blank c)) (Mac a) (unknownFields a)) Hd
                (base64_decode_all_EncodeToString (pb.NodeId c))
                (base64_decode_all_EncodeToString wire)) as Hdec.
  cbn [msg_credential msg_mac msg_unknownFields blank
       pb.OperatorType pb.Timestamp pb.unknownFields] in Hdec.
  destruct Hdec as (σ' & Hrun & Hread).
  { apply decode_encode_AuthenticatedCredential; [done|].
    split; [|done]. intros c' [= <-]. cbn. split; [|done].
    split; [cbn; lia|done]. }
  exists σ'. split; [by eapply Base64URLEncodeUsername_run|].
  split; [done|]. split; [done|].
  by rewrite Hread, Credential_eta.
Qed.



(** [Base64URLDecode] panics on a password whose payload has no inner
    message, whatever the username decodes to. *)
Lemma Base64URLDecode_no_credential_panics (σ : store) (ac : loc)
    (d : AuthenticatedCredential) (username password : string)
    (nodeID decoded : list byte) (m : AuthenticatedCredential_message) :
  envelopes σ !! ac = Some d ->
  base64_URLEncoding_decode_all username = Ok nodeID ->
  base64_URLEncoding_decode_all password = Ok decoded ->
  decode_AuthenticatedCredential decoded = Ok m ->
  msg_credential m = None ->
  Base64URLDecode ac username password σ = Panics.
Proof.
  intros Hd Hu Hp Hm Hc.
  pose proof (Base64URLDecode_run σ ac d username password nodeID decoded m
                Hd Hu Hp Hm) as Hrun.
  by rewrite Hc in Hrun.
Qed.

(** [Base64URLEncodePassword] when [proto.Marshal] succeeds: the store is as
    it was. *)
Lemma Base64URLEncodePassword_restores (σ : store) (ac : loc)
    (msg : AuthenticatedCredential_message) (c : pb.Credential) :
  read_envelope σ ac = Some msg -> msg_credential msg = Some c ->
  Marshal_error
    (encode_AuthenticatedCredential
       (mkMessage (Some (blank c)) (msg_mac msg) (msg_unknownFields msg))) = None ->
  exists password, Base64URLEncodePassword ac σ = Returns (Ok password) σ.
Proof.
  intros Hr Hc Hmarshal.
  destruct (read_envelope_credential _ _ _ _ Hr Hc) as (a & p & Ha & Hp & Hcr & ->).
  cbn [msg_mac msg_unknownFields] in Hmarshal.
  rewrite (Base64URLEncodePassword_run σ ac a p c Ha Hp Hcr).
  rewrite (proto_Marshal_bytes_Ok _ Hmarshal). by eexists.
Qed.

(** [Base64URLEncodePassword] when [proto.Marshal] fails: the credential is
    left without its node id. *)
Lemma Base64URLEncodePassword_error_blank (σ : store) (ac : loc)
    (msg : AuthenticatedCredential_message) (c : pb.Credential) (e : error) :
  read_envelope σ ac = Some msg -> msg_credential msg = Some c ->
  Marshal_error
    (encode_AuthenticatedCredential
       (mkMessage (Some (blank c)) (msg_mac msg) (msg_unknownFields msg))) = Some e ->
  exists σ',
    Base64URLEncodePassword ac σ = Returns (Err e) σ'
    /\ read_envelope σ' ac
       = Some (mkMessage (Some (blank c)) (msg_mac msg) (msg_unknownFields msg)).
Proof.
  intros Hr Hc Hmarshal.
  destruct (read_envelope_credential _ _ _ _ Hr Hc) as (a & p & Ha & Hp & Hcr & ->).
  cbn [msg_mac msg_unknownFields] in *.
  rewrite (Base64URLEncodePassword_run σ ac a p c Ha Hp Hcr).
  rewrite (proto_Marshal_bytes_Err _ _ Hmarshal).
  eexists. split; [done|]. unfold read_envelope. go_simpl. rewrite Hp. by go_simpl.
Qed.

End codec.



(** * The scenario *)

(** The MAC of the example is the HMAC-SHA256 that an independent
    implementation computes for the key and the 28 bytes of the serialized
    credential. *)
Example example_mac_value :
  map byte_to_Z example_mac
  = [ 7; 58; 116; 174; 156; 122; 94; 12; 73; 29; 145; 6; 253; 93; 243; 186;
      223; 73; 180; 50; 103; 4; 73; 29; 73; 2; 119; 8; 74; 246; 71; 166 ].
Proof. by vm_compute. Qed.

(** The first and the last of the round constants and of the words of the
    initial hash value. *)
Example sha256_constants :
  length SHA256.K = 64%nat /\ head SHA256.K = Some 0x428a2f98
  /\ last SHA256.K = Some 0xc67178f2
  /\ length SHA256.H0 = 8%nat /\ head SHA256.H0 = Some 0x6a09e667
  /\ last SHA256.H0 = Some 0x5be0cd19.
Proof. by vm_compute. Qed.

(** [sha256("abc")], and case 2 of RFC 4231. *)
Example sha256_abc :
  map byte_to_Z (SHA256.sum256 (bytes_of_string "abc"))
  = [ 0xba; 0x78; 0x16; 0xbf; 0x8f; 0x01; 0xcf; 0xea; 0x41; 0x41; 0x40; 0xde;
      0x5d; 0xae; 0x22; 0x23; 0xb0; 0x03; 0x61; 0xa3; 0x96; 0x17; 0x7a; 0x9c;
      0xb4; 0x10; 0xff; 0x61; 0xf2; 0x00; 0x15; 0xad ].
Proof. by vm_compute. Qed.

Example hmac_sha256_rfc4231_2 :
  map byte_to_Z
    (hmac_sha256 (bytes_of_string "Jefe") (bytes_of_string "what do ya want for nothing?"))
  = [ 0x5b; 0xdc; 0xc1; 0x46; 0xbf; 0x60; 0x75; 0x4e; 0x6a; 0x04; 0x24; 0x26;
      0x08; 0x95; 0x75; 0xc7; 0x5a; 0x00; 0x3f; 0x08; 0x9d; 0x27; 0x39; 0x83;
      0x9d; 0xec; 0x58; 0xb9; 0x64; 0xec; 0x38; 0x43 ].
Proof. by vm_compute. Qed.

(** The stream decoder on short text: whole quanta, padding at the end,
    line breaks, characters left over, padding inside; and on text of 2668
    characters, which takes several reads and a grown buffer. *)
Example base64_stream_examples :
  base64_URLEncoding_decode_all (Gr := runtime_doubling) "AQID" = Ok [x01; x02; x03]
  /\ base64_URLEncoding_decode_all (Gr := runtime_doubling) "AQI=" = Ok [x01; x02]
  /\ base64_URLEncoding_decode_all (Gr := runtime_doubling)
       (String "A" (String "Q" (String (ascii_of_nat 10) "I="))) = Ok [x01; x02]
  /\ base64_URLEncoding_decode_all (Gr := runtime_doubling) "AQI"
     = Err io_ErrUnexpectedEOF
  /\ base64_URLEncoding_decode_all (Gr := runtime_doubling) "AQ=I"
     = Err base64_CorruptInputError
  /\ base64_URLEncoding_decode_all (Gr := runtime_doubling)
       (base64_URLEncoding_EncodeToString (repeat x2a 2000)) = Ok (repeat x2a 2000).
Proof. by vm_compute. Qed.

(** Keys of a JSON object are matched under case folding: capitals, and the
    long s of U+017F for the [s] of [timestamp]. *)
Example key_is_folds :
  key_is "TimeStamp" "timestamp" = true
  /\ key_is (String "t" (String "i" (String "m" (String "e"
              (String (ascii_of_nat 197) (String (ascii_of_nat 191) "tamp"))))))
       "timestamp" = true
  /\ key_is "time_stamp" "timestamp" = false.
Proof. by vm_compute. Qed.

(** The example run: the manager issues the credential, verifies it, and
    rejects it once the timestamp is changed. *)
Example example_run :
  let run :=
    r ← Create (Sch := pb.schema_in_order) (Rt := runtime_no_error)
          1%positive example_time example_node_id 0;
    match r with
    | Err e => mret (Some e, Some e)
    | Ok ac =>
        v1 ← Verify (Sch := pb.schema_in_order) (Rt := runtime_no_error) 1%positive ac;
        _ ← set_Timestamp ac 1700000001;
        v2 ← Verify (Sch := pb.schema_in_order) (Rt := runtime_no_error) 1%positive ac;
        mret (v1, v2)
    end in
  exists σ', run example_store
             = Returns (None, Some (errors_New "credential MAC mismatch")) σ'.
Proof. eexists. by vm_compute. Qed.

Lemma example_message_wf : wf_message example_message.
Proof.
  split; [|split]; [|by vm_compute|done].
  intros c [= <-]. split; [|done]. by vm_compute.
Qed.

Lemma issued_store_read : read_envelope issued_store 1%positive = Some example_message.
Proof. done. Qed.

(** ** Witnesses *)

Lemma Create_authenticates_witness :
  exists ac σ',
    Create (Sch := pb.schema_in_order) (Rt := runtime_no_error)
      1%positive example_time example_node_id 0 example_store = Returns (Ok ac) σ'
    /\ read_envelope σ' ac = Some example_message.
Proof.
  apply (Create_authenticates (Sch := pb.schema_in_order) (Rt := runtime_no_error)
           example_store 1%positive example_manager example_time example_node_id 0);
    [reflexivity | apply Forall_nil_2 | reflexivity | reflexivity].
Defined.

Lemma Create_validity_witness :
  Create (Sch := pb.schema_in_order) (Rt := runtime_no_error)
    1%positive example_time [x01; x02] 0 example_store
  = Returns (Err (fmt_Errorf "invalid nodeID length. Expected 20, got %d" 2)) example_store
  /\ exists ac σ' σ'',
       Create (Sch := pb.schema_in_order) (Rt := runtime_no_error)
         1%positive example_time example_node_id 0 example_store = Returns (Ok ac) σ'
       /\ Verify (Sch := pb.schema_in_order) (Rt := runtime_no_error) 1%positive ac σ'
          = Returns None σ''.
Proof.
  split.
  - apply (proj1 (Create_validity (Sch := pb.schema_in_order) (Rt := runtime_no_error)
                    example_store 1%positive example_time [x01; x02] 0)).
    simpl. lia.
  - apply (proj2 (Create_validity (Sch := pb.schema_in_order) (Rt := runtime_no_error)
                    example_store 1%positive example_time example_node_id 0)
             eq_refl example_manager);
      [reflexivity | apply Forall_nil_2 | reflexivity].
Defined.

Lemma Verify_outcome_witness :
  exists r σ',
    Verify (Sch := pb.schema_in_order) (Rt := runtime_no_error)
      1%positive 1%positive issued_store = Returns r σ'
    /\ (r = None
        <-> msg_mac example_message
            = hmac_sha256 (key example_manager)
                (encode_Credential_ptr (Sch := pb.schema_in_order)
                   (msg_credential example_message)))
    /\ (msg_mac example_message
        <> hmac_sha256 (key example_manager)
             (encode_Credential_ptr (Sch := pb.schema_in_order)
                (msg_credential example_message)) ->
        r = Some (errors_New "credential MAC mismatch")).
Proof.
  assert (managers issued_store !! 1%positive = Some example_manager) as Hm
    by reflexivity.
  assert (read_envelope issued_store 1%positive = Some example_message) as Hr
    by reflexivity.
  destruct (Verify_outcome (Sch := pb.schema_in_order) (Rt := runtime_no_error)
              issued_store 1%positive 1%positive example_manager example_message Hm Hr)
    as (_ & _ & Hrecomputed).
  apply Hrecomputed; [reflexivity | apply Forall_nil_2].
Defined.

Lemma Verify_frame_witness :
  exists r σ',
    Verify (Sch := pb.schema_in_order) (Rt := runtime_no_error)
      1%positive 1%positive issued_store = Returns r σ'
    /\ envelopes σ' = envelopes issued_store
    /\ credentials σ' = credentials issued_store
    /\ read_envelope σ' 1%positive = Some example_message.
Proof.
  apply (Verify_frame (Sch := pb.schema_in_order) (Rt := runtime_no_error)
           issued_store 1%positive 1%positive example_manager example_message);
    reflexivity.
Defined.

Lemma Create_deterministic_witness :
  let cred := pb.mkCredential example_node_id 0 (Time_Unix example_time) [] in
  exists ac1 σ1 ac2 σ2 ac3 σ3 mac,
    Create (Sch := pb.schema_in_order) (Rt := runtime_no_error)
      1%positive example_time example_node_id 0 example_store = Returns (Ok ac1) σ1
    /\ Create (Sch := pb.schema_in_order) (Rt := runtime_no_error)
         1%positive example_time example_node_id 0 σ1 = Returns (Ok ac2) σ2
    /\ Create (Sch := pb.schema_in_order) (Rt := runtime_no_error)
         1%positive example_time example_node_id 0 issued_store = Returns (Ok ac3) σ3
    /\ ac1 <> ac2
    /\ Mac <$> envelopes σ2 !! ac1 = Some mac
    /\ Mac <$> envelopes σ2 !! ac2 = Some mac
    /\ Mac <$> envelopes σ3 !! ac3 = Some mac
    /\ mac = hmac_sha256 (key example_manager)
               (encode_Credential (Sch := pb.schema_in_order) cred).
Proof.
  apply (Create_deterministic (Sch := pb.schema_in_order) (Rt := runtime_no_error)
           example_store issued_store 1%positive 1%positive 1%positive
           example_manager example_manager example_manager
           example_time example_node_id 0);
    [ reflexivity | reflexivity | reflexivity
    | apply Forall_nil_2 | apply Forall_nil_2 | apply Forall_nil_2
    | reflexivity | reflexivity | reflexivity | reflexivity ].
Defined.

Lemma token_pair_round_trip_witness :
  exists username password σ',
    Base64URLEncodeUsername 1%positive issued_store = Returns username issued_store
    /\ Base64URLEncodePassword (Sch := pb.schema_in_order) (Rt := runtime_no_error)
         1%positive issued_store = Returns (Ok password) issued_store
    /\ Base64URLDecode (Sch := pb.schema_in_order) (Gr := runtime_doubling) 2%positive username password issued_store
       = Returns None σ'
    /\ read_envelope σ' 2%positive = Some example_message.
Proof.
  apply (token_pair_round_trip (Sch := pb.schema_in_order) (Rt := runtime_no_error)
           (Gr := runtime_doubling)
           issued_store 1%positive 2%positive example_message example_credential
           AuthenticatedCredential_zero);
    [reflexivity | reflexivity | reflexivity | apply example_message_wf
    | reflexivity | reflexivity].
Defined.


(** * Where the code departs from the specification *)

(** C6. [Base64URLDecode] of the username [""] and the password [""] panics:
    the payload decodes to a message with no inner credential, the receiver is
    reset and merged with it, and the assignment of the node id goes through
    the nil pointer. The call returns neither a credential nor an error. *)
Theorem Base64URLDecode_empty_password_panics (Sch : pb.schema) (Gr : go_runtime) :
  Base64URLDecode (Sch := Sch) (Gr := Gr) 2%positive "" "" issued_store = Panics.
Proof.
  by apply (Base64URLDecode_no_credential_panics issued_store 2%positive
              AuthenticatedCredential_zero "" "" [] [] message_zero).
Qed.

(** C8. [Base64URLEncodePassword] on the issued credential, when
    [proto.Marshal] returns an error: the function returns the error and the
    credential, which held the node id of 20 bytes before the call, holds no
    node id after it. *)
Theorem Base64URLEncodePassword_error_loses_node_id :
  exists σ',
    Base64URLEncodePassword (Sch := pb.schema_in_order)
      (Rt := runtime_error (proto_Error "size mismatch")) 1%positive issued_store
    = Returns (Err (proto_Error "size mismatch")) σ'
    /\ pb.NodeId <$> credentials issued_store !! 1%positive = Some example_node_id
    /\ pb.NodeId <$> credentials σ' !! 1%positive = Some []
    /\ example_node_id <> [].
Proof.
  rewrite (Base64URLEncodePassword_run issued_store 1%positive
             (mkAuthenticatedCredential (Some 1%positive) example_mac [])
             1%positive example_credential eq_refl eq_refl eq_refl).
  unfold proto_Marshal_bytes. cbn [Marshal_error runtime_error].
  eexists. split; [reflexivity|]. cbn [credentials].
  rewrite lookup_insert_eq. by vm_compute.
Qed.


(** * The fuel of the protobuf decoder *)

(** The decoding functions recurse on fuel. Each step takes at least one
    byte of the input, so the fuel they are given, a bound in the length of
    the input, never runs out: with any fuel above the bound the result is
    the same. *)

Lemma ConsumeVarint_from_shorter (more : nat) (shift : Z) (b rest : list byte) (v : Z) :
  protowire.ConsumeVarint_from more shift b = Ok (v, rest) ->
  (length rest < length b)%nat.
Proof.
  revert shift b v. induction more as [|more IH]; intros shift [|y b] v H;
    cbn [protowire.ConsumeVarint_from] in H; try done.
  - destruct (byte_to_Z y <? 2); [|done]. injection H as _ <-. simpl. lia.
  - destruct (byte_to_Z y <? 128).
    + injection H as _ <-. simpl. lia.
    + destruct (protowire.ConsumeVarint_from more (shift + 7) b) as [[v' r]|e] eqn:E;
        [|done].
      rewrite result_bind_Ok in H. injection H as _ <-.
      apply IH in E. simpl. lia.
Qed.

Lemma ConsumeVarint_shorter (b rest : list byte) (v : Z) :
  protowire.ConsumeVarint b = Ok (v, rest) -> (length rest < length b)%nat.
Proof. apply ConsumeVarint_from_shorter. Qed.

Lemma ConsumeBytes_shorter (b rest v : list byte) :
  protowire.ConsumeBytes b = Ok (v, rest) -> (length rest < length b)%nat.
Proof.
  unfold protowire.ConsumeBytes. intros H.
  destruct (protowire.ConsumeVarint b) as [[m r]|e] eqn:E; [|done].
  rewrite result_bind_Ok in H. apply ConsumeVarint_shorter in E.
  destruct (Z.of_nat (length r) <? m); [done|]. injection H as _ <-.
  rewrite length_drop. lia.
Qed.

Lemma ConsumeFixed_shorter (n : nat) (b rest : list byte) :
  protowire.ConsumeFixed n b = Ok rest -> (length rest <= length b)%nat.
Proof.
  unfold protowire.ConsumeFixed. destruct (length b <? n)%nat; [done|].
  intros [= <-]. rewrite length_drop. lia.
Qed.

Lemma ConsumeTag_shorter (b rest : list byte) (num typ : Z) :
  protowire.ConsumeTag b = Ok (num, typ, rest) -> (length rest < length b)%nat.
Proof.
  unfold protowire.ConsumeTag. intros H.
  destruct (protowire.ConsumeVarint b) as [[m r]|e] eqn:E; [|done].
  rewrite result_bind_Ok in H. apply ConsumeVarint_shorter in E.
  destruct (_ || _); [done|]. by injection H as _ _ <-.
Qed.

Lemma consumeFieldValueD_shorter (fuel : nat) :
  (forall num typ b depth rest,
     protowire.consumeFieldValueD fuel num typ b depth = Ok rest ->
     (length rest <= length b)%nat)
  /\ (forall num b depth rest,
        protowire.consumeGroup fuel num b depth = Ok rest ->
        (length rest <= length b)%nat).
Proof.
  induction fuel as [|fuel [IHD IHG]]; [done|]. split.
  - intros num typ b depth rest H. cbn [protowire.consumeFieldValueD] in H.
    destruct (typ =? protowire.VarintType).
    { destruct (protowire.ConsumeVarint b) as [[? r]|e] eqn:E; [|done].
      rewrite result_bind_Ok in H. injection H as <-.
      apply ConsumeVarint_shorter in E. lia. }
    destruct (typ =? protowire.Fixed32Type); [by apply ConsumeFixed_shorter in H|].
    destruct (typ =? protowire.Fixed64Type); [by apply ConsumeFixed_shorter in H|].
    destruct (typ =? protowire.BytesType).
    { destruct (protowire.ConsumeBytes b) as [[? r]|e] eqn:E; [|done].
      rewrite result_bind_Ok in H. injection H as <-.
      apply ConsumeBytes_shorter in E. lia. }
    destruct (typ =? protowire.StartGroupType); [|done].
    destruct (depth <? 0); [done|]. by apply IHG in H.
  - intros num b depth rest H. cbn [protowire.consumeGroup] in H.
    destruct (protowire.ConsumeTag b) as [[[num2 typ2] b1]|e] eqn:E; [|done].
    rewrite result_bind_Ok in H. cbn beta iota in H.
    apply ConsumeTag_shorter in E.
    destruct (typ2 =? protowire.EndGroupType).
    { destruct (num =? num2); [|done]. injection H as <-. lia. }
    destruct (protowire.consumeFieldValueD fuel num2 typ2 b1 (depth - 1)) as [b2|e] eqn:E2;
      [|done].
    rewrite result_bind_Ok in H. apply IHD in E2. apply IHG in H. lia.
Qed.

(** The fuel of [ConsumeFieldValue] is enough: more changes nothing. *)
Lemma consumeFieldValueD_fuel (fuel : nat) :
  (forall fuel' num typ b depth,
     (2 * length b + 2 <= fuel)%nat -> (2 * length b + 2 <= fuel')%nat ->
     protowire.consumeFieldValueD fuel num typ b depth
     = protowire.consumeFieldValueD fuel' num typ b depth)
  /\ (forall fuel' num b depth,
        (2 * length b + 1 <= fuel)%nat -> (2 * length b + 1 <= fuel')%nat ->
        protowire.consumeGroup fuel num b depth
        = protowire.consumeGroup fuel' num b depth).
Proof.
  induction fuel as [|fuel [IHD IHG]]; [split; intros; lia|]. split.
  - intros [|fuel'] num typ b depth Hf Hf'; [lia|].
    cbn [protowire.consumeFieldValueD].
    repeat match goal with
           | |- (if ?c then _ else _) = _ => destruct c; [done|]
           end.
    destruct (typ =? protowire.StartGroupType); [|done].
    destruct (depth <? 0); [done|]. apply IHG; lia.
  - intros [|fuel'] num b depth Hf Hf'; [lia|].
    cbn [protowire.consumeGroup].
    destruct (protowire.ConsumeTag b) as [[[num2 typ2] b1]|e] eqn:E; [|done].
    rewrite !result_bind_Ok. cbn beta iota.
    apply ConsumeTag_shorter in E.
    destruct (typ2 =? protowire.EndGroupType); [done|].
    rewrite (IHD fuel' num2 typ2 b1 (depth - 1)) by lia.
    destruct (protowire.consumeFieldValueD fuel' num2 typ2 b1 (depth - 1)) as [b2|e] eqn:E2;
      [|done].
    rewrite !result_bind_Ok.
    apply (proj1 (consumeFieldValueD_shorter fuel')) in E2.
    apply IHG; lia.
Qed.

Lemma ConsumeFieldValue_fuel (fuel : nat) (num typ : Z) (b : list byte) :
  (2 * length b + 2 <= fuel)%nat ->
  protowire.consumeFieldValueD fuel num typ b protowire.DefaultRecursionLimit
  = protowire.ConsumeFieldValue num typ b.
Proof. intros Hf. by apply consumeFieldValueD_fuel. Qed.

(** A decoding loop whose step shortens the input gives the same result with
    any fuel of at least the length of the input. *)
Lemma decode_loop_fuel {M : Type} (step : list byte -> M -> result (M * list byte))
    (fuel fuel' : nat) (b : list byte) (m : M) :
  (forall b m m' rest, step b m = Ok (m', rest) -> (length rest < length b)%nat) ->
  (length b <= fuel)%nat -> (length b <= fuel')%nat ->
  decode_loop step fuel b m = decode_loop step fuel' b m.
Proof.
  intros Hstep. revert fuel' b m.
  induction fuel as [|fuel IH]; intros fuel' [|x b] m Hf Hf';
    try done; try (by destruct fuel'); try (simpl in Hf; lia).
  destruct fuel' as [|fuel']; [simpl in Hf'; lia|].
  cbn [decode_loop].
  destruct (step (x :: b) m) as [[m' rest]|e] eqn:E; [|done].
  rewrite !result_bind_Ok. cbn beta iota.
  apply Hstep in E. simpl in *. apply IH; lia.
Qed.

Section fuel.
Context {Sch : pb.schema}.

Lemma consume_field_tag_shorter (b rest : list byte) (num wtyp : Z) :
  consume_field_tag b = Ok (num, wtyp, rest) -> (length rest < length b)%nat.
Proof.
  unfold consume_field_tag. intros H.
  destruct (protowire.ConsumeVarint b) as [[tag b1]|e] eqn:E; [|done].
  rewrite result_bind_Ok in H. cbn beta iota in H. apply ConsumeVarint_shorter in E.
  destruct (negb _); [done|]. destruct (_ =? _); [done|]. by injection H as _ _ <-.
Qed.

Lemma consume_unknown_shorter (num wtyp : Z) (b1 u rest : list byte) :
  consume_unknown num wtyp b1 = Ok (u, rest) -> (length rest <= length b1)%nat.
Proof.
  unfold consume_unknown. intros H.
  destruct (protowire.ConsumeFieldValue num wtyp b1) as [b2|e] eqn:E; [|done].
  rewrite result_bind_Ok in H. injection H as _ <-.
  by apply consumeFieldValueD_shorter in E.
Qed.

Lemma unmarshal_Credential_field_shorter (b rest : list byte) (c c' : pb.Credential) :
  unmarshal_Credential_field b c = Ok (c', rest) -> (length rest < length b)%nat.
Proof.
  unfold unmarshal_Credential_field. intros H.
  destruct (consume_field_tag b) as [[[num wtyp] b1]|e] eqn:E; [|done].
  rewrite result_bind_Ok in H. cbn beta iota in H.
  apply consume_field_tag_shorter in E.
  repeat match type of H with
         | (if ?c then _ else _) = _ => destruct c
         end.
  - destruct (protowire.ConsumeBytes b1) as [[? r]|e] eqn:E1; [|done].
    rewrite result_bind_Ok in H. injection H as _ <-.
    apply ConsumeBytes_shorter in E1. lia.
  - destruct (protowire.ConsumeVarint b1) as [[? r]|e] eqn:E1; [|done].
    rewrite result_bind_Ok in H. injection H as _ <-.
    apply ConsumeVarint_shorter in E1. lia.
  - destruct (protowire.ConsumeVarint b1) as [[? r]|e] eqn:E1; [|done].
    rewrite result_bind_Ok in H. injection H as _ <-.
    apply ConsumeVarint_shorter in E1. lia.
  - destruct (consume_unknown num wtyp b1) as [[? r]|e] eqn:E1; [|done].
    rewrite result_bind_Ok in H. injection H as _ <-.
    apply consume_unknown_shorter in E1. lia.
Qed.

Lemma unmarshal_AuthenticatedCredential_field_shorter (b rest : list byte)
    (m m' : AuthenticatedCredential_message) :
  unmarshal_AuthenticatedCredential_field b m = Ok (m', rest) ->
  (length rest < length b)%nat.
Proof.
  unfold unmarshal_AuthenticatedCredential_field. intros H.
  destruct (consume_field_tag b) as [[[num wtyp] b1]|e] eqn:E; [|done].
  rewrite result_bind_Ok in H. cbn beta iota in H.
  apply consume_field_tag_shorter in E.
  repeat match type of H with
         | (if ?c then _ else _) = _ => destruct c
         end.
  - destruct (protowire.ConsumeBytes b1) as [[v r]|e] eqn:E1; [|done].
    rewrite result_bind_Ok in H. cbn beta iota in H.
    destruct (unmarshal_Credential v _) as [c|e]; [|done].
    rewrite result_bind_Ok in H. injection H as _ <-.
    apply ConsumeBytes_shorter in E1. lia.
  - destruct (protowire.ConsumeBytes b1) as [[? r]|e] eqn:E1; [|done].
    rewrite result_bind_Ok in H. injection H as _ <-.
    apply ConsumeBytes_shorter in E1. lia.
  - destruct (consume_unknown num wtyp b1) as [[? r]|e] eqn:E1; [|done].
    rewrite result_bind_Ok in H. injection H as _ <-.
    apply consume_unknown_shorter in E1. lia.
Qed.

(** [proto.Unmarshal] of a credential and of an authenticated credential:
    the fuel the definitions use, the length of the input, is enough. *)
Lemma unmarshal_Credential_fuel (fuel : nat) (b : list byte) (c : pb.Credential) :
  (length b <= fuel)%nat ->
  unmarshal_Credential_fields fuel b c = unmarshal_Credential b c.
Proof.
  intros Hf. unfold unmarshal_Credential.
  rewrite !unmarshal_Credential_fields_loop.
  apply decode_loop_fuel; [|done..].
  intros ? ? ? ?. apply unmarshal_Credential_field_shorter.
Qed.

Lemma decode_AuthenticatedCredential_fuel (fuel : nat) (b : list byte) :
  (length b <= fuel)%nat ->
  unmarshal_AuthenticatedCredential_fields fuel b message_zero
  = decode_AuthenticatedCredential b.
Proof.
  intros Hf. unfold decode_AuthenticatedCredential.
  rewrite !unmarshal_AuthenticatedCredential_fields_loop.
  apply decode_loop_fuel; [|done..].
  intros ? ? ? ?. apply unmarshal_AuthenticatedCredential_field_shorter.
Qed.

End fuel.


(** * Further properties of the program *)

(** ** The length of a MAC *)

Lemma be_bytes_length (n : nat) (z : Z) : length (be_bytes n z) = n.
Proof. induction n as [|n IH]; [done|]. cbn [be_bytes length]. by rewrite IH. Qed.

Lemma compress_length (h : list Z) (block : list byte) :
  length h = 8%nat -> length (SHA256.compress h block) = 8%nat.
Proof.
  intros Hh. unfold SHA256.compress.
  do 8 (destruct h as [|? h]; [done|]). by destruct h.
Qed.

Lemma blocks_length (n : nat) (h : list Z) (data : list byte) :
  length h = 8%nat -> length (SHA256.blocks n h data) = 8%nat.
Proof.
  revert h data. induction n as [|n IH]; intros h data Hh; [done|].
  cbn [SHA256.blocks]. by apply IH, compress_length.
Qed.

(** A SHA-256 digest, and so an HMAC-SHA256, is 32 bytes long. *)
Lemma sum256_length (msg : list byte) : length (SHA256.sum256 msg) = 32%nat.
Proof.
  unfold SHA256.sum256.
  pose proof (blocks_length (length (SHA256.pad msg) / 64) SHA256.H0 (SHA256.pad msg)
                eq_refl) as Hb.
  destruct (SHA256.blocks _ _ _) as [|a h]; [done|].
  do 7 (destruct h as [|? h]; [done|]). destruct h; [|done].
  cbn [flat_map]. rewrite !length_app, !be_bytes_length. done.
Qed.

Lemma hmac_sha256_length (k msg : list byte) : length (hmac_sha256 k msg) = 32%nat.
Proof. apply sum256_length. Qed.

Lemma hmac_Equal_length (x y : list byte) :
  length x <> length y -> hmac_Equal x y = false.
Proof. intros Hl. apply hmac_Equal_false. by intros ->. Qed.

(** ** Errors of the protobuf decoder *)

(** The functions of [protowire] report [errDecode]. *)
Lemma ConsumeVarint_from_Err (more : nat) (shift : Z) (b : list byte) (e : error) :
  protowire.ConsumeVarint_from more shift b = Err e -> e = proto_errDecode.
Proof.
  revert shift b. induction more as [|more IH]; intros shift [|y b] H;
    cbn [protowire.ConsumeVarint_from] in H.
  - congruence.
  - err_cases H. congruence.
  - congruence.
  - destruct (byte_to_Z y <? 128); [done|].
    destruct (protowire.ConsumeVarint_from more (shift + 7) b) as [[v r]|e'] eqn:E.
    + done.
    + injection H as <-. by apply IH in E.
Qed.

Lemma ConsumeVarint_Err (b : list byte) (e : error) :
  protowire.ConsumeVarint b = Err e -> e = proto_errDecode.
Proof. apply ConsumeVarint_from_Err. Qed.

Lemma ConsumeBytes_Err (b : list byte) (e : error) :
  protowire.ConsumeBytes b = Err e -> e = proto_errDecode.
Proof.
  unfold protowire.ConsumeBytes. intros H.
  destruct (protowire.ConsumeVarint b) as [[m rest]|e'] eqn:E.
  - cbn in H. err_cases H. congruence.
  - injection H as <-. by apply ConsumeVarint_Err in E.
Qed.

Lemma ConsumeFixed_Err (n : nat) (b : list byte) (e : error) :
  protowire.ConsumeFixed n b = Err e -> e = proto_errDecode.
Proof. unfold protowire.ConsumeFixed. intros H. err_cases H. congruence. Qed.

Lemma ConsumeTag_Err (b : list byte) (e : error) :
  protowire.ConsumeTag b = Err e -> e = proto_errDecode.
Proof.
  unfold protowire.ConsumeTag. intros H.
  destruct (protowire.ConsumeVarint b) as [[m rest]|e'] eqn:E.
  - cbn in H. err_cases H. congruence.
  - injection H as <-. by apply ConsumeVarint_Err in E.
Qed.

Lemma consumeFieldValueD_Err (fuel : nat) :
  (forall num typ b depth e,
     protowire.consumeFieldValueD fuel num typ b depth = Err e -> e = proto_errDecode)
  /\ (forall num b depth e,
        protowire.consumeGroup fuel num b depth = Err e -> e = proto_errDecode).
Proof.
  induction fuel as [|fuel [IHD IHG]]; [split; intros; simpl in *; congruence|].
  split.
  - intros num typ b depth e H. cbn [protowire.consumeFieldValueD] in H.
    destruct (typ =? protowire.VarintType).
    { destruct (protowire.ConsumeVarint b) as [[? ?]|e'] eqn:E; [done|].
      injection H as <-. by apply ConsumeVarint_Err in E. }
    destruct (typ =? protowire.Fixed32Type); [by apply ConsumeFixed_Err in H|].
    destruct (typ =? protowire.Fixed64Type); [by apply ConsumeFixed_Err in H|].
    destruct (typ =? protowire.BytesType).
    { destruct (protowire.ConsumeBytes b) as [[? ?]|e'] eqn:E; [done|].
      injection H as <-. by apply ConsumeBytes_Err in E. }
    destruct (typ =? protowire.StartGroupType); [|congruence].
    destruct (depth <? 0); [congruence|]. by apply IHG in H.
  - intros num b depth e H. cbn [protowire.consumeGroup] in H.
    destruct (protowire.ConsumeTag b) as [[[num2 typ2] b1]|e'] eqn:E.
    + cbn in H. destruct (typ2 =? protowire.EndGroupType).
      { destruct (num =? num2); congruence. }
      destruct (protowire.consumeFieldValueD fuel num2 typ2 b1 (depth - 1)) as [b2|e'] eqn:E2.
      * by apply IHG in H.
      * injection H as <-. by apply IHD in E2.
    + injection H as <-. by apply ConsumeTag_Err in E.
Qed.

Lemma ConsumeFieldValue_Err (num typ : Z) (b : list byte) (e : error) :
  protowire.ConsumeFieldValue num typ b = Err e -> e = proto_errDecode.
Proof. apply consumeFieldValueD_Err. Qed.

Section decoder_errors.
Context {Sch : pb.schema}.

Lemma consume_field_tag_Err (b : list byte) (e : error) :
  consume_field_tag b = Err e -> decoding_error e = true.
Proof.
  unfold consume_field_tag. intros H.
  destruct (protowire.ConsumeVarint b) as [[tag b1]|e'] eqn:E.
  - cbn in H. err_cases H; by injection H as <-.
  - injection H as <-. by apply ConsumeVarint_Err in E as ->.
Qed.

Lemma consume_unknown_Err (num wtyp : Z) (b1 : list byte) (e : error) :
  consume_unknown num wtyp b1 = Err e -> decoding_error e = true.
Proof.
  unfold consume_unknown. intros H.
  destruct (protowire.ConsumeFieldValue num wtyp b1) as [b2|e'] eqn:E; [by rewrite result_bind_Ok in H|].
  injection H as <-. by apply ConsumeFieldValue_Err in E as ->.
Qed.

Lemma unmarshal_Credential_field_Err (b : list byte) (c : pb.Credential) (e : error) :
  unmarshal_Credential_field b c = Err e -> decoding_error e = true.
Proof.
  unfold unmarshal_Credential_field. intros H.
  destruct (consume_field_tag b) as [[[num wtyp] b1]|e'] eqn:E;
    [|injection H as <-; by apply consume_field_tag_Err in E].
  rewrite result_bind_Ok in H. cbn beta iota in H.
  repeat match type of H with
         | (if ?c then _ else _) = _ => destruct c
         end.
  - destruct (protowire.ConsumeBytes b1) as [[? ?]|e'] eqn:E1; [by rewrite result_bind_Ok in H|].
    injection H as <-. by apply ConsumeBytes_Err in E1 as ->.
  - destruct (protowire.ConsumeVarint b1) as [[? ?]|e'] eqn:E1; [by rewrite result_bind_Ok in H|].
    injection H as <-. by apply ConsumeVarint_Err in E1 as ->.
  - destruct (protowire.ConsumeVarint b1) as [[? ?]|e'] eqn:E1; [by rewrite result_bind_Ok in H|].
    injection H as <-. by apply ConsumeVarint_Err in E1 as ->.
  - destruct (consume_unknown num wtyp b1) as [[? ?]|e'] eqn:E1; [by rewrite result_bind_Ok in H|].
    injection H as <-. by apply consume_unknown_Err in E1.
Qed.

Lemma unmarshal_Credential_Err (b : list byte) (c : pb.Credential) (e : error) :
  unmarshal_Credential b c = Err e -> decoding_error e = true.
Proof.
  unfold unmarshal_Credential. generalize (length b) as fuel. intros fuel.
  revert b c. induction fuel as [|fuel IH]; intros [|x b] c H;
    cbn [unmarshal_Credential_fields] in H; try congruence.
  - by injection H as <-.
  - destruct (unmarshal_Credential_field (x :: b) c) as [[c' rest]|e'] eqn:E.
    + by apply IH in H.
    + injection H as <-. by apply unmarshal_Credential_field_Err in E.
Qed.

Lemma unmarshal_AuthenticatedCredential_field_Err (b : list byte)
    (m : AuthenticatedCredential_message) (e : error) :
  unmarshal_AuthenticatedCredential_field b m = Err e -> decoding_error e = true.
Proof.
  unfold unmarshal_AuthenticatedCredential_field. intros H.
  destruct (consume_field_tag b) as [[[num wtyp] b1]|e'] eqn:E;
    [|injection H as <-; by apply consume_field_tag_Err in E].
  rewrite result_bind_Ok in H. cbn beta iota in H.
  repeat match type of H with
         | (if ?c then _ else _) = _ => destruct c
         end.
  - destruct (protowire.ConsumeBytes b1) as [[v b2]|e'] eqn:E1;
      [|injection H as <-; by apply ConsumeBytes_Err in E1 as ->].
    rewrite result_bind_Ok in H. cbn beta iota in H.
    destruct (unmarshal_Credential v _) as [c|e'] eqn:E2; [by rewrite result_bind_Ok in H|].
    injection H as <-. by apply unmarshal_Credential_Err in E2.
  - destruct (protowire.ConsumeBytes b1) as [[? ?]|e'] eqn:E1; [by rewrite result_bind_Ok in H|].
    injection H as <-. by apply ConsumeBytes_Err in E1 as ->.
  - destruct (consume_unknown num wtyp b1) as [[? ?]|e'] eqn:E1; [by rewrite result_bind_Ok in H|].
    injection H as <-. by apply consume_unknown_Err in E1.
Qed.

(** Every error of [proto.Unmarshal] is a decoding error. *)
Lemma decode_AuthenticatedCredential_Err (b : list byte) (e : error) :
  decode_AuthenticatedCredential b = Err e -> decoding_error e = true.
Proof.
  unfold decode_AuthenticatedCredential. generalize (length b) as fuel.
  generalize message_zero as m. intros m fuel.
  revert b m. induction fuel as [|fuel IH]; intros [|x b] m H;
    cbn [unmarshal_AuthenticatedCredential_fields] in H; try congruence.
  - by injection H as <-.
  - destruct (unmarshal_AuthenticatedCredential_field (x :: b) m) as [[m' rest]|e'] eqn:E.
    + by apply IH in H.
    + injection H as <-. by apply unmarshal_AuthenticatedCredential_field_Err in E.
Qed.

End decoder_errors.

(** ** Errors of [json.Unmarshal] *)

Lemma decode_member_error (st : jsonAuthenticatedCredential * option error)
    (kv : string * json) :
  (forall e, st.2 = Some e -> decoding_error e = true) ->
  forall e, (decode_member st kv).2 = Some e -> decoding_error e = true.
Proof.
  destruct st as [j err], kv as [k v]. cbn [snd]. intros Hst e.
  assert (forall name s, match decode_string_field name v s with
                         | Ok _ => True | Err e' => decoding_error e' = true end) as Hs.
  { intros name s. unfold decode_string_field. by destruct v. }
  assert (forall name bits z, match decode_int_field name bits v z with
                              | Ok _ => True | Err e' => decoding_error e' = true end) as Hi.
  { intros name bits z. unfold decode_int_field.
    destruct v as [| |[n|]| | |]; try done. by destruct (_ && _). }
  unfold decode_member.
  repeat match goal with
         | |- context [if key_is ?a ?b then _ else _] => destruct (key_is a b)
         end; [ | | | |by apply Hst].
  - specialize (Hs "node_id"%string (json_NodeID j)).
    destruct (decode_string_field _ _ _); cbn [snd]; [by apply Hst|].
    destruct err; [by apply Hst|]. by intros [= <-].
  - specialize (Hi "timestamp"%string 64 (json_Timestamp j)).
    destruct (decode_int_field _ _ _ _); cbn [snd]; [by apply Hst|].
    destruct err; [by apply Hst|]. by intros [= <-].
  - specialize (Hi "operator_type"%string 32 (json_OperatorType j)).
    destruct (decode_int_field _ _ _ _); cbn [snd]; [by apply Hst|].
    destruct err; [by apply Hst|]. by intros [= <-].
  - specialize (Hs "mac"%string (json_Mac j)).
    destruct (decode_string_field _ _ _); cbn [snd]; [by apply Hst|].
    destruct err; [by apply Hst|]. by intros [= <-].
Qed.

Lemma json_Unmarshal_Err (data : option json) (e : error) :
  json_Unmarshal data = Err e -> decoding_error e = true.
Proof.
  unfold json_Unmarshal.
  destruct data as [[| | | | |members]|]; try (by intros [= <-]); try done.
  assert (forall st, (forall e, st.2 = Some e -> decoding_error e = true) ->
            forall e, (fold_left decode_member members st).2 = Some e ->
                      decoding_error e = true) as G.
  { induction members as [|kv members IH]; intros st Hst; [done|].
    cbn [fold_left]. apply IH. by apply decode_member_error. }
  specialize (G (json_zero, None) ltac:(done) e).
  destruct (fold_left decode_member members (json_zero, None)) as [j [e'|]]; [|done].
  intros [= <-]. by apply G.
Qed.

(** ** The serialization of a credential determines it *)

Lemma encode_Credential_inj {Sch : pb.schema} (c c' : pb.Credential) :
  pb.schema_ok Sch = true ->
  wf_Credential c -> pb.unknownFields c = [] ->
  wf_Credential c' -> pb.unknownFields c' = [] ->
  encode_Credential c = encode_Credential c' -> c = c'.
Proof.
  intros Hok Hwf Hu Hwf' Hu' E.
  pose proof (unmarshal_encode_Credential Hok c Hwf Hu) as H.
  pose proof (unmarshal_encode_Credential Hok c' Hwf' Hu') as H'.
  rewrite E in H. congruence.
Qed.

(** ** The decoders on a store, with what they leave alone *)

Section more_runs.
Context {Sch : pb.schema} {Rt : proto_runtime} {Gr : go_runtime}.

(** Every outcome of [Base64URLDecode]: the three decoders' errors come back
    with the store as it was; on a receiver that is an object, a payload with
    no inner message is a panic, and otherwise the receiver is filled and
    every other object is as before. *)
Lemma Base64URLDecode_cases (σ : store) (ac : loc) (username password : string) :
  match base64_URLEncoding_decode_all username with
  | Err e => Base64URLDecode ac username password σ = Returns (Some e) σ
  | Ok nodeID =>
      match base64_URLEncoding_decode_all password with
      | Err e => Base64URLDecode ac username password σ = Returns (Some e) σ
      | Ok decoded =>
          match decode_AuthenticatedCredential decoded with
          | Err e => Base64URLDecode ac username password σ = Returns (Some e) σ
          | Ok m =>
              match envelopes σ !! ac, msg_credential m with
              | None, _ => True
              | Some _, None => Base64URLDecode ac username password σ = Panics
              | Some _, Some c =>
                  exists σ',
                    Base64URLDecode ac username password σ = Returns None σ'
                    /\ read_envelope σ' ac
                       = Some (mkMessage
                                 (Some (pb.mkCredential nodeID (pb.OperatorType c)
                                          (pb.Timestamp c) (pb.unknownFields c)))
                                 (msg_mac m) (msg_unknownFields m))
                    /\ managers σ' = managers σ
                    /\ (forall l, l <> ac -> envelopes σ' !! l = envelopes σ !! l)
                    /\ (forall l x, credentials σ !! l = Some x ->
                                    credentials σ' !! l = Some x)
              end
          end
      end
  end.
Proof.
  unfold Base64URLDecode, proto_Unmarshal, proto_Merge, Reset.
  destruct (base64_URLEncoding_decode_all username) as [nodeID|e]; [|done].
  destruct (base64_URLEncoding_decode_all password) as [decoded|e]; [|done].
  go_simpl.
  set (newCred := fresh (dom (envelopes σ))) in *.
  destruct (decode_AuthenticatedCredential decoded) as [m|e].
  2:{ go_simpl. unfold newCred. by rewrite delete_fresh_inserts, store_eta. }
  destruct (envelopes σ !! ac) as [d|] eqn:Hd.
  2:{ by destruct (msg_credential m). }
  destruct (fresh_ne _ _ _ Hd) as [Hne1 Hne2]. fold newCred in Hne1, Hne2.
  destruct (msg_credential m) as [c|] eqn:Ec.
  - go_simpl.
    set (p1 := fresh (dom (credentials σ))).
    set (p2 := fresh (dom (<[p1 := c]> (credentials σ)))).
    assert (p2 <> p1 /\ p1 <> p2) as [Hp21 Hp12].
    { apply (fresh_ne _ _ c). apply lookup_insert_eq. }
    go_simpl. eexists. split; [done|].
    split; [|split; [done|split]].
    + unfold read_envelope. go_simpl.
      rewrite lookup_delete_ne by done. go_simpl.
      rewrite merge_Credential_zero. cbn [pb.OperatorType pb.Timestamp pb.unknownFields].
      by case_bool_decide as E; [rewrite E|].
    + intros l Hl. cbn [envelopes].
      destruct (decide (l = newCred)) as [->|Hn].
      * rewrite lookup_delete_eq. symmetry. apply fresh_lookup.
      * rewrite lookup_delete_ne by done. by rewrite !lookup_insert_ne by done.
    + intros l x Hl. cbn [credentials].
      assert (l <> p1) as H1 by (intros ->; unfold p1 in Hl; by rewrite fresh_lookup in Hl).
      assert (l <> p2) as H2.
      { intros ->. pose proof (fresh_lookup (<[p1 := c]> (credentials σ))) as F.
        fold p2 in F. rewrite lookup_insert_ne in F by done. congruence. }
      by rewrite !lookup_insert_ne by done.
  - by go_simpl.
Qed.

(** Every outcome of [UnmarshalJSON] on a receiver that is an object: it
    returns; an error of [json.Unmarshal] leaves the receiver reset, an error
    of the base64 or the hexadecimal decoder leaves it with a new, empty inner
    message; every other object is as before. *)
Lemma UnmarshalJSON_cases (σ : store) (ac : loc) (d : AuthenticatedCredential)
    (data : option json) :
  envelopes σ !! ac = Some d ->
  exists r σ',
    UnmarshalJSON ac data σ = Returns r σ'
    /\ managers σ' = managers σ
    /\ (forall l, l <> ac -> envelopes σ' !! l = envelopes σ !! l)
    /\ (forall l x, credentials σ !! l = Some x -> credentials σ' !! l = Some x)
    /\ match json_Unmarshal data with
       | Err e => r = Some e /\ read_envelope σ' ac = Some message_zero
       | Ok j =>
           match base64_URLEncoding_decode_all (json_Mac j),
                 hex_DecodeString (TrimPrefix_0x (json_NodeID j)) with
           | Ok decoded, Ok nodeID =>
               r = None
               /\ read_envelope σ' ac
                  = Some (mkMessage
                            (Some (pb.mkCredential nodeID (json_OperatorType j)
                                     (json_Timestamp j) []))
                            decoded [])
           | Err e, _ | Ok _, Err e =>
               r = Some e
               /\ read_envelope σ' ac = Some (mkMessage (Some pb.Credential_zero) [] [])
           end
       end.
Proof.
  intros Hd. unfold UnmarshalJSON, Reset. go_simpl.
  assert (forall (l : loc) (x : pb.Credential) (y : pb.Credential),
            credentials σ !! l = Some x ->
            <[fresh (dom (credentials σ)) := y]> (credentials σ) !! l = Some x) as Hfr.
  { intros l x y Hl. destruct (fresh_ne _ _ _ Hl). by rewrite lookup_insert_ne. }
  destruct (json_Unmarshal data) as [j|e].
  2:{ eexists _, _. split; [done|]. cbn [managers envelopes credentials].
      split; [done|]. split; [by intros l Hl; rewrite lookup_insert_ne|].
      split; [done|]. split; [done|]. unfold read_envelope. by go_simpl. }
  go_simpl.
  destruct (base64_URLEncoding_decode_all (json_Mac j)) as [decoded|e].
  2:{ eexists _, _. split; [done|]. cbn [managers envelopes credentials].
      split; [done|]. split; [by intros l Hl; rewrite !lookup_insert_ne|].
      split; [by intros; apply Hfr|]. split; [done|].
      unfold read_envelope. by go_simpl. }
  destruct (hex_DecodeString _) as [nodeID|e].
  2:{ eexists _, _. split; [done|]. cbn [managers envelopes credentials].
      split; [done|]. split; [by intros l Hl; rewrite !lookup_insert_ne|].
      split; [by intros; apply Hfr|]. split; [done|].
      unfold read_envelope. by go_simpl. }
  unfold pb.Credential_zero. go_simpl.
  eexists _, _. split; [done|]. cbn [managers envelopes credentials].
  split; [done|]. split; [by intros l Hl; rewrite !lookup_insert_ne|].
  split; [|split; [done|unfold read_envelope; by go_simpl]].
  intros l x Hl. rewrite !insert_insert_eq. by apply Hfr.
Qed.

End more_runs.

(** ** The text of a token *)

Lemma base64_encode_url_safe (l : list byte) :
  Forall (fun c => url_safe c = true) (base64_encode l).
Proof.
  assert (forall n (l : list byte), (length l <= n)%nat ->
            Forall (fun c => url_safe c = true) (base64_encode l)) as G;
    [|by apply (G (length l))].
  clear l.
  assert (forall x, url_safe (base64_char (Z.land x 0x3f)) = true) as C.
  { intros x. unfold url_safe. by rewrite base64_decodeMap_char. }
  assert (url_safe "="%char = true) as P by done.
  induction n as [|n IH]; intros l Hl.
  { destruct l; [constructor | simpl in Hl; lia]. }
  destruct l as [|a [|b [|c rest]]]; cbn [base64_encode];
    repeat (apply Forall_cons_2; [by rewrite ?C, ?P|]); try apply Forall_nil_2.
  apply IH. simpl in Hl. lia.
Qed.

Lemma base64_encode_length_eq (l : list byte) :
  length (base64_encode l) = (4 * ((length l + 2) / 3))%nat.
Proof.
  assert (forall n (l : list byte), (length l <= n)%nat ->
            length (base64_encode l) = (4 * ((length l + 2) / 3))%nat) as G;
    [|by apply (G (length l))].
  clear l. induction n as [|n IH]; intros l Hl.
  { destruct l; [done | simpl in Hl; lia]. }
  destruct l as [|a [|b [|c rest]]]; [done..|].
  cbn [base64_encode length]. rewrite IH by (simpl in Hl; lia).
  replace (S (S (S (length rest))) + 2)%nat with (1 * 3 + (length rest + 2))%nat by lia.
  rewrite Nat.div_add_l by done. lia.
Qed.

Lemma string_of_list_ascii_length (l : list ascii) :
  String.length (string_of_list_ascii l) = length l.
Proof. induction l as [|c l IH]; [done|]. cbn. by rewrite IH. Qed.


(** ** Issuing, transporting and verifying *)

Section flows.
Context {Sch : pb.schema} {Rt : proto_runtime} {Gr : go_runtime}.

(** The message [Create] leaves behind its result is well formed. *)
Lemma issued_message_wf (k nodeID : list byte) (ot : Z) (timestamp : Time) :
  length nodeID = 20%nat -> - 2 ^ 31 <= ot < 2 ^ 31 ->
  let cred := pb.mkCredential nodeID ot (Time_Unix timestamp) [] in
  wf_message (mkMessage (Some cred) (hmac_sha256 k (encode_Credential cred)) []).
Proof.
  intros Hlen Hot cred. split; [|split; [|done]].
  - intros c [= <-]. split; [|done]. split; [|split; [done|]].
    + cbn [cred pb.NodeId]. rewrite Hlen. by vm_compute.
    + apply int64_range.
  - cbn [msg_mac]. rewrite hmac_sha256_length. by vm_compute.
Qed.

(** [Verify] accepts a message whose MAC is the HMAC of its inner message
    under the manager's key. *)
Lemma Verify_accepts (σ : store) (v ac : loc) (mv : CredentialManager)
    (msg : AuthenticatedCredential_message) :
  managers σ !! v = Some mv -> pool_ok mv ->
  read_envelope σ ac = Some msg ->
  Marshal_error (encode_Credential_ptr (msg_credential msg)) = None ->
  msg_mac msg = hmac_sha256 (key mv) (encode_Credential_ptr (msg_credential msg)) ->
  exists σ', Verify v ac σ = Returns None σ'.
Proof.
  intros Hv Hp Hr Hmarshal Hmac.
  rewrite (Verify_run σ v ac mv msg Hv Hr), (proto_Marshal_bytes_Ok _ Hmarshal).
  destruct (pool_ok_take mv Hp) as [-> _].
  cbn [hmac_New hash_key hash_written app].
  rewrite Hmac, hmac_Equal_refl. by eexists.
Qed.

(** The two tokens, taken from two messages, decode into a third: the node
    id is the one behind the username, the rest the one behind the
    password. *)
Lemma tokens_decode (σ : store) (acU acP dst : loc)
    (msgU msgP : AuthenticatedCredential_message) (cU cP : pb.Credential)
    (d : AuthenticatedCredential) :
  pb.schema_ok Sch = true ->
  read_envelope σ acU = Some msgU -> msg_credential msgU = Some cU ->
  read_envelope σ acP = Some msgP -> msg_credential msgP = Some cP -> wf_message msgP ->
  envelopes σ !! dst = Some d ->
  Marshal_error
    (encode_AuthenticatedCredential
       (mkMessage (Some (blank cP)) (msg_mac msgP) (msg_unknownFields msgP))) = None ->
  exists username password σ',
    Base64URLEncodeUsername acU σ = Returns username σ
    /\ Base64URLEncodePassword acP σ = Returns (Ok password) σ
    /\ Base64URLDecode dst username password σ = Returns None σ'
    /\ read_envelope σ' dst
       = Some (mkMessage
                 (Some (pb.mkCredential (pb.NodeId cU) (pb.OperatorType cP)
                          (pb.Timestamp cP) []))
                 (msg_mac msgP) [])
    /\ others_kept dst σ σ'.
Proof.
  intros Hok HrU HcU HrP HcP (Hwf & Hmac & Hunk) Hd Hmarshal.
  destruct (read_envelope_credential _ _ _ _ HrU HcU) as (aU & pU & HaU & HpU & HcrU & ->).
  destruct (read_envelope_credential _ _ _ _ HrP HcP) as (aP & pP & HaP & HpP & HcrP & ->).
  cbn [msg_credential msg_mac msg_unknownFields] in *.
  destruct (Hwf cP eq_refl) as [(Hn & Ho & Ht) Hu].
  pose proof (Base64URLEncodePassword_run σ acP aP pP cP HaP HpP HcrP) as Hpw.
  rewrite (proto_Marshal_bytes_Ok _ Hmarshal) in Hpw.
  set (wire := encode_AuthenticatedCredential
                 (mkMessage (Some (blank cP)) (Mac aP) (unknownFields aP))) in *.
  pose proof (Base64URLDecode_cases σ dst
                (base64_URLEncoding_EncodeToString (pb.NodeId cU))
                (base64_URLEncoding_EncodeToString wire)) as Hdec.
  rewrite !base64_decode_all_EncodeToString in Hdec.
  unfold wire in Hdec. rewrite decode_encode_AuthenticatedCredential in Hdec.
  2: done.
  2:{ split; [|done]. intros c' [= <-]. cbn. split; [|done].
      split; [cbn; lia|done]. }
  rewrite Hd in Hdec.
  cbn [msg_credential msg_mac msg_unknownFields blank
       pb.OperatorType pb.Timestamp pb.unknownFields] in Hdec.
  destruct Hdec as (σ' & Hrun & Hread & Hfr).
  eexists _, _, σ'. split; [by eapply Base64URLEncodeUsername_run|].
  split; [done|]. split; [done|]. split; [|done].
  by rewrite Hread, Hu, Hunk.
Qed.

(** X1. A credential that [Create] issued, carried as the two tokens and
    decoded into another message, is accepted by [Verify] of any manager that
    holds the key of the issuing one, the issuing one included.
    [proto.Marshal] is taken not to fail. *)
Theorem issued_tokens_verify (σ : store) (c v dst : loc) (m mv : CredentialManager)
    (d : AuthenticatedCredential) (timestamp : Time) (nodeID : list byte) (ot : Z) :
  pb.schema_ok Sch = true ->
  (forall b, Marshal_error b = None) ->
  managers σ !! c = Some m -> pool_ok m ->
  managers σ !! v = Some mv -> pool_ok mv -> key mv = key m ->
  envelopes σ !! dst = Some d ->
  length nodeID = 20%nat -> - 2 ^ 31 <= ot < 2 ^ 31 ->
  exists ac username password σ1 σ2 σ3,
    Create c timestamp nodeID ot σ = Returns (Ok ac) σ1
    /\ Base64URLEncodeUsername ac σ1 = Returns username σ1
    /\ Base64URLEncodePassword ac σ1 = Returns (Ok password) σ1
    /\ Base64URLDecode dst username password σ1 = Returns None σ2
    /\ Verify v dst σ2 = Returns None σ3.
Proof.
  intros Hok Hmarshal Hm Hp Hv Hpv Hkey Hd Hlen Hot.
  set (cred := pb.mkCredential nodeID ot (Time_Unix timestamp) []).
  set (msg := mkMessage (Some cred) (hmac_sha256 (key m) (encode_Credential cred)) []).
  pose proof (Create_ok σ c m timestamp nodeID ot Hm Hp Hlen (Hmarshal _)) as Hcreate.
  cbn zeta in Hcreate. fold cred in Hcreate.
  set (ac := fresh (dom (envelopes σ))) in *.
  set (σ1 := mkStore _ _ _) in Hcreate.
  assert (read_envelope σ1 ac = Some msg) as Hr.
  { unfold read_envelope, σ1. by go_simpl. }
  assert (envelopes σ1 !! dst = Some d) as Hd1.
  { unfold σ1. cbn [envelopes]. destruct (fresh_ne _ _ _ Hd).
    by rewrite lookup_insert_ne. }
  destruct (tokens_decode σ1 ac ac dst msg msg cred cred d Hok Hr eq_refl Hr eq_refl
              (issued_message_wf (key m) nodeID ot timestamp Hlen Hot) Hd1 (Hmarshal _))
    as (username & password & σ2 & HU & HP & HD & Hr2 & Hmgr & _).
  destruct (Create_ok_managers σ c v m mv Hm Hp Hv Hpv) as (mv' & Hv1 & Hk' & Hp').
  destruct (Verify_accepts σ2 v dst mv' _ ltac:(by rewrite Hmgr) Hp' Hr2 (Hmarshal _))
    as (σ3 & HV).
  { cbn [msg_credential msg_mac encode_Credential_ptr]. by rewrite Hk', Hkey. }
  by exists ac, username, password, σ1, σ2, σ3.
Qed.

(** X2. A credential that [Create] issued, written by [MarshalJSON] and
    read by [UnmarshalJSON] into another message, is accepted by [Verify] of
    any manager that holds the key of the issuing one. [proto.Marshal] is
    taken not to fail. *)
Theorem issued_json_verifies (σ : store) (c v dst : loc) (m mv : CredentialManager)
    (d : AuthenticatedCredential) (timestamp : Time) (nodeID : list byte) (ot : Z) :
  (forall b, Marshal_error b = None) ->
  managers σ !! c = Some m -> pool_ok m ->
  managers σ !! v = Some mv -> pool_ok mv -> key mv = key m ->
  envelopes σ !! dst = Some d ->
  length nodeID = 20%nat -> - 2 ^ 31 <= ot < 2 ^ 31 ->
  exists ac doc σ1 σ2 σ3,
    Create c timestamp nodeID ot σ = Returns (Ok ac) σ1
    /\ MarshalJSON ac σ1 = Returns (Ok doc) σ1
    /\ UnmarshalJSON dst (Some doc) σ1 = Returns None σ2
    /\ Verify v dst σ2 = Returns None σ3.
Proof.
  intros Hmarshal Hm Hp Hv Hpv Hkey Hd Hlen Hot.
  set (cred := pb.mkCredential nodeID ot (Time_Unix timestamp) []).
  set (mac := hmac_sha256 (key m) (encode_Credential cred)).
  pose proof (Create_ok σ c m timestamp nodeID ot Hm Hp Hlen (Hmarshal _)) as Hcreate.
  cbn zeta in Hcreate. fold cred mac in Hcreate.
  set (ac := fresh (dom (envelopes σ))) in *.
  set (p := fresh (dom (credentials σ))) in *.
  set (σ1 := mkStore _ _ _) in Hcreate.
  assert (envelopes σ1 !! dst = Some d) as Hd1.
  { unfold σ1. cbn [envelopes]. destruct (fresh_ne _ _ _ Hd).
    by rewrite lookup_insert_ne. }
  pose proof (MarshalJSON_run σ1 ac (mkAuthenticatedCredential (Some p) mac []) p cred
                ltac:(unfold σ1; by go_simpl) eq_refl ltac:(unfold σ1; by go_simpl))
    as Hjson.
  cbn [pb.NodeId pb.Timestamp pb.OperatorType cred Mac] in Hjson.
  set (j := mkJson _ _ _ _) in Hjson.
  destruct (UnmarshalJSON_cases σ1 dst d (Some (json_Marshal j)) Hd1)
    as (r & σ2 & HU & Hmgr & _ & _ & Hcase).
  rewrite json_Unmarshal_Marshal in Hcase;
    [|apply int64_range|done].
  cbn [j json_Mac json_NodeID json_Timestamp json_OperatorType] in Hcase.
  rewrite base64_decode_all_EncodeToString, TrimPrefix_0x_prefixed,
    hex_DecodeString_EncodeToString in Hcase.
  destruct Hcase as [-> Hr2]. fold cred in Hr2.
  destruct (Create_ok_managers σ c v m mv Hm Hp Hv Hpv) as (mv' & Hv1 & Hk' & Hp').
  destruct (Verify_accepts σ2 v dst mv' _ ltac:(by rewrite Hmgr) Hp' Hr2 (Hmarshal _))
    as (σ3 & HV).
  { cbn [msg_credential msg_mac encode_Credential_ptr]. by rewrite Hk', Hkey. }
  by exists ac, (json_Marshal j), σ1, σ2, σ3.
Qed.

(** X3. A manager that [NewCredentialManager] made for a key issues
    credentials under that key: [Create] with a node id of 20 bytes returns a
    message whose MAC is the HMAC-SHA256, under the key given to the
    constructor, of the serialized inner message, and [Verify] accepts it.
    The manager is a new object. [proto.Marshal] is taken not to fail. *)
Theorem NewCredentialManager_issues (σ : store) (k : list byte) (timestamp : Time)
    (nodeID : list byte) (ot : Z) :
  (forall b, Marshal_error b = None) ->
  length nodeID = 20%nat ->
  let cred := pb.mkCredential nodeID ot (Time_Unix timestamp) [] in
  exists c ac σ0 σ1 σ2,
    NewCredentialManager k σ = Returns c σ0
    /\ managers σ !! c = None
    /\ Create c timestamp nodeID ot σ0 = Returns (Ok ac) σ1
    /\ read_envelope σ1 ac
       = Some (mkMessage (Some cred) (hmac_sha256 k (encode_Credential cred)) [])
    /\ Verify c ac σ1 = Returns None σ2.
Proof.
  intros Hmarshal Hlen cred.
  set (c := fresh (dom (managers σ))).
  set (σ0 := mkStore (credentials σ) (envelopes σ)
               (<[c := mkCredentialManager k []]> (managers σ))).
  assert (managers σ0 !! c = Some (mkCredentialManager k [])) as Hm
    by (unfold σ0; by go_simpl).
  pose proof (Create_ok σ0 c _ timestamp nodeID ot Hm (pool_ok_new k) Hlen (Hmarshal _))
    as Hcreate.
  cbn zeta in Hcreate. fold cred in Hcreate. cbn [key] in Hcreate.
  set (ac := fresh (dom (envelopes σ0))) in *.
  set (σ1 := mkStore _ _ _) in Hcreate.
  assert (read_envelope σ1 ac
          = Some (mkMessage (Some cred) (hmac_sha256 k (encode_Credential cred)) []))
    as Hr.
  { unfold read_envelope, σ1. by go_simpl. }
  destruct (Verify_accepts σ1 c ac
              (mkCredentialManager k (any_Hash (HmacHash k []) :: []))
              _ ltac:(unfold σ1; by go_simpl)
              ltac:(by repeat constructor) Hr (Hmarshal _) eq_refl) as (σ2 & HV).
  exists c, ac, σ0, σ1, σ2.
  split; [done|]. split; [apply fresh_lookup|]. done.
Qed.

End flows.

(** ** The manager *)

Section manager_more.
Context {Sch : pb.schema} {Rt : proto_runtime} {Gr : go_runtime}.

(** X4. The MAC binds the three fields. Two different credentials have
    different serializations, so when a message carries the MAC of the
    credential [c] over another credential [c'], [Verify] reports the
    mismatch unless HMAC-SHA256 under the key takes the same value on two
    different byte strings. [proto.Marshal] is taken not to fail. *)
Theorem Verify_modified_credential (σ : store) (v ac : loc) (mv : CredentialManager)
    (msg : AuthenticatedCredential_message) (c c' : pb.Credential) :
  pb.schema_ok Sch = true ->
  (forall b, Marshal_error b = None) ->
  managers σ !! v = Some mv -> pool_ok mv ->
  read_envelope σ ac = Some msg -> msg_credential msg = Some c' ->
  msg_mac msg = hmac_sha256 (key mv) (encode_Credential c) ->
  wf_Credential c -> pb.unknownFields c = [] ->
  wf_Credential c' -> pb.unknownFields c' = [] ->
  c' <> c ->
  encode_Credential c' <> encode_Credential c
  /\ exists r σ',
       Verify v ac σ = Returns r σ'
       /\ (r = None
           <-> hmac_sha256 (key mv) (encode_Credential c')
               = hmac_sha256 (key mv) (encode_Credential c))
       /\ (r <> None -> r = Some (errors_New "credential MAC mismatch")).
Proof.
  intros Hok Hmarshal Hv Hp Hr Hc Hmac Hwf Hu Hwf' Hu' Hne.
  split; [intros E; by apply Hne, encode_Credential_inj|].
  rewrite (Verify_run σ v ac mv msg Hv Hr), Hc.
  cbn [encode_Credential_ptr]. rewrite (proto_Marshal_bytes_Ok _ (Hmarshal _)).
  destruct (pool_ok_take mv Hp) as [-> _].
  cbn [hmac_New hash_key hash_written app]. rewrite Hmac.
  eexists _, _. split; [done|].
  destruct (hmac_Equal _ _) eqn:E; cbn [negb].
  - apply hmac_Equal_true in E. by rewrite E.
  - apply hmac_Equal_false in E. split; [|done]. split; [done|]. by intros E'.
Qed.

(** X5. The hash goes back reset. When [Create] returns a credential, and
    when [Verify] gets as far as recomputing the MAC, the hash that [Get]
    handed out is on top of the pool afterwards, with its key and nothing
    written, over what [Get] left of the pool; the manager's key is unchanged
    by every call. So a pool that holds only reset hashes of the manager's
    key holds only such hashes after the call, whatever the call returns. *)
Theorem calls_keep_pool (σ : store) (c : loc) (m : CredentialManager) :
  managers σ !! c = Some m ->
  (forall timestamp nodeID ot, exists r σ' m',
      Create c timestamp nodeID ot σ = Returns r σ'
      /\ managers σ' !! c = Some m' /\ key m' = key m
      /\ (forall ac, r = Ok ac ->
            exists h, (pool_take m).1 = any_Hash h
              /\ pool m' = any_Hash (HmacHash (hash_key h) []) :: (pool_take m).2)
      /\ (pool_ok m -> pool_ok m'))
  /\ (forall ac msg, read_envelope σ ac = Some msg -> exists r σ' m',
      Verify c ac σ = Returns r σ'
      /\ managers σ' !! c = Some m' /\ key m' = key m
      /\ (forall h,
            Marshal_error (encode_Credential_ptr (msg_credential msg)) = None ->
            (pool_take m).1 = any_Hash h ->
            pool m' = any_Hash (HmacHash (hash_key h) []) :: (pool_take m).2)
      /\ (pool_ok m -> pool_ok m')).
Proof.
  intros Hm.
  assert (forall h, (pool_take m).1 = any_Hash h -> pool_ok m ->
            pool_ok (mkCredentialManager (key m)
                       (any_Hash (HmacHash (hash_key h) []) :: (pool_take m).2))) as Hback.
  { intros h Hh Hp. destruct (pool_ok_take m Hp) as [Htake Hp'].
    rewrite Htake in Hh. injection Hh as <-. exact Hp'. }
  assert ((pool_take m).1 = any_other -> pool_ok m -> False) as Hother.
  { intros Ho Hp. destruct (pool_ok_take m Hp) as [Htake _]. congruence. }
  split.
  - intros timestamp nodeID ot.
    destruct (decide (length nodeID = 20%nat)) as [Hlen|Hlen].
    + rewrite (Create_run σ c m timestamp nodeID ot Hm Hlen). cbn zeta.
      destruct (proto_Marshal_bytes _) as [bytes|e].
      * destruct (pool_take m).1 as [h|] eqn:Eh.
        -- eexists _, _, _. split; [done|]. cbn [managers].
           rewrite lookup_insert_eq. split; [done|]. split; [done|].
           split; [|by apply Hback]. intros ac _. by exists h.
        -- eexists _, _, _. split; [done|]. cbn [managers].
           rewrite lookup_insert_eq. split; [done|]. split; [done|].
           split; [done|]. intros Hp. by destruct Hother.
      * eexists _, _, m. split; [done|]. done.
    + exists (Err (fmt_Errorf "invalid nodeID length. Expected 20, got %d"
                     (Z.of_nat (length nodeID)))), σ, m.
      split; [|done]. unfold Create. by destruct (Nat.eqb_spec (length nodeID) 20).
  - intros ac msg Hr. rewrite (Verify_run σ c ac m msg Hm Hr).
    unfold proto_Marshal_bytes.
    destruct (Marshal_error _) as [e|].
    + eexists _, _, m. split; [done|]. done.
    + destruct (pool_take m).1 as [h|] eqn:Eh.
      * eexists _, _, _. split; [done|]. cbn [managers].
        rewrite lookup_insert_eq. split; [done|]. split; [done|].
        split; [|by apply Hback]. by intros h' _ [= <-].
      * eexists _, _, _. split; [done|]. cbn [managers].
        rewrite lookup_insert_eq. split; [done|]. split; [done|].
        split; [done|]. intros Hp. by destruct Hother.
Qed.

(** X6. [Create] on a manager that is an object returns, with a credential
    or an error, and changes no object that was there: every message and every
    inner message of the store is as before, and so is every other manager.
    The message it returns, and the inner message of that, are new objects. *)
Theorem Create_frame (σ : store) (c : loc) (m : CredentialManager)
    (timestamp : Time) (nodeID : list byte) (ot : Z) :
  managers σ !! c = Some m ->
  exists r σ',
    Create c timestamp nodeID ot σ = Returns r σ'
    /\ (forall l a, envelopes σ !! l = Some a -> envelopes σ' !! l = Some a)
    /\ (forall l x, credentials σ !! l = Some x -> credentials σ' !! l = Some x)
    /\ (forall l, l <> c -> managers σ' !! l = managers σ !! l)
    /\ (forall ac, r = Ok ac ->
          envelopes σ !! ac = None
          /\ exists a p, envelopes σ' !! ac = Some a /\ Credential a = Some p
               /\ credentials σ !! p = None
               /\ exists x, credentials σ' !! p = Some x).
Proof.
  intros Hm.
  assert (forall (A : Type) (g : gmap loc A) (l : loc) (x y : A), g !! l = Some x ->
            <[fresh (dom g) := y]> g !! l = Some x) as Hfr.
  { intros A g l x y Hl. destruct (fresh_ne _ _ _ Hl). by rewrite lookup_insert_ne. }
  destruct (decide (length nodeID = 20%nat)) as [Hlen|Hlen].
  - rewrite (Create_run σ c m timestamp nodeID ot Hm Hlen). cbn zeta.
    destruct (proto_Marshal_bytes _) as [bytes|e].
    + destruct (pool_take m).1 as [h|].
      * eexists _, _. split; [done|]. cbn [envelopes credentials managers].
        split; [by intros; apply Hfr|]. split; [by intros; apply Hfr|].
        split; [by intros; rewrite lookup_insert_ne|].
        intros ac [= <-]. split; [apply fresh_lookup|].
        eexists _, _. rewrite !lookup_insert_eq.
        split; [done|]. split; [done|]. split; [apply fresh_lookup|]. by eexists.
      * eexists _, _. split; [done|]. cbn [envelopes credentials managers].
        split; [by intros; apply Hfr|]. split; [by intros; apply Hfr|].
        split; [by intros; rewrite lookup_insert_ne|]. done.
    + eexists _, _. split; [done|]. cbn [envelopes credentials managers].
      split; [by intros; apply Hfr|]. split; [by intros; apply Hfr|]. done.
  - exists (Err (fmt_Errorf "invalid nodeID length. Expected 20, got %d"
                   (Z.of_nat (length nodeID)))), σ.
    split; [|done]. unfold Create. by destruct (Nat.eqb_spec (length nodeID) 20).
Qed.

(** X7. The MAC of a credential that [Create] returned is 32 bytes long,
    whatever the key, the node id, the operator type and the timestamp. *)
Theorem Create_mac_length (σ : store) (c : loc) (m : CredentialManager)
    (timestamp : Time) (nodeID : list byte) (ot : Z) (ac : loc) (σ' : store) :
  managers σ !! c = Some m ->
  Create c timestamp nodeID ot σ = Returns (Ok ac) σ' ->
  exists a, envelopes σ' !! ac = Some a /\ length (Mac a) = 32%nat.
Proof.
  intros Hm. destruct (decide (length nodeID = 20%nat)) as [Hlen|Hlen].
  - rewrite (Create_run σ c m timestamp nodeID ot Hm Hlen). cbn zeta.
    destruct (proto_Marshal_bytes _) as [bytes|e]; [|done].
    destruct (pool_take m).1 as [h|]; [|done].
    intros [= <- <-]. cbn [envelopes]. rewrite lookup_insert_eq.
    eexists. split; [done|]. apply hmac_sha256_length.
  - unfold Create. by destruct (Nat.eqb_spec (length nodeID) 20).
Qed.

(** X8. [Verify] reports the mismatch for every message whose MAC is not 32
    bytes long, an empty or a truncated MAC among them. The manager's pool is
    in order and [proto.Marshal] does not fail. *)
Theorem Verify_rejects_other_lengths (σ : store) (v ac : loc) (mv : CredentialManager)
    (msg : AuthenticatedCredential_message) :
  (forall b, Marshal_error b = None) ->
  managers σ !! v = Some mv -> pool_ok mv ->
  read_envelope σ ac = Some msg ->
  length (msg_mac msg) <> 32%nat ->
  exists σ', Verify v ac σ = Returns (Some (errors_New "credential MAC mismatch")) σ'.
Proof.
  intros Hmarshal Hv Hp Hr Hlen.
  rewrite (Verify_run σ v ac mv msg Hv Hr), (proto_Marshal_bytes_Ok _ (Hmarshal _)).
  destruct (pool_ok_take mv Hp) as [-> _].
  cbn [hmac_New hash_key hash_written app].
  rewrite hmac_Equal_length; [by eexists|].
  by rewrite hmac_sha256_length.
Qed.

End manager_more.


(** ** The codecs *)

Section codec_more.
Context {Sch : pb.schema} {Rt : proto_runtime} {Gr : go_runtime}.

(** X9. An error of [Base64URLDecode] changes nothing: when the call
    returns an error, the store is as it was, the receiver included, and the
    error is one of the base64 or the protobuf decoder. Such an error comes
    for a username or a password with a character that is neither of the
    alphabet, nor padding, nor a line break, for one whose length, line breaks
    aside, is no multiple of four, and for one of up to 680 characters in
    which a padding character is followed by one that is no padding. *)
Theorem Base64URLDecode_error_keeps_store (σ : store) (ac : loc)
    (d : AuthenticatedCredential) (username password : string) :
  envelopes σ !! ac = Some d ->
  (forall e σ', Base64URLDecode ac username password σ = Returns (Some e) σ' ->
                σ' = σ /\ decoding_error e = true)
  /\ (malformed_base64 username \/ malformed_base64 password
      \/ ((String.length username <= 680)%nat /\ misplaced_padding (text_of username))
      \/ ((String.length password <= 680)%nat /\ misplaced_padding (text_of password)) ->
      exists e, Base64URLDecode ac username password σ = Returns (Some e) σ).
Proof.
  intros Hd. pose proof (Base64URLDecode_cases σ ac username password) as Hc.
  destruct (base64_URLEncoding_decode_all username) as [nodeID|e1] eqn:Eu.
  2:{ rewrite Hc. split; [|by eauto]. intros e σ' [= <- <-].
      split; [done|]. by apply base64_decode_all_Err in Eu. }
  destruct (base64_URLEncoding_decode_all password) as [decoded|e2] eqn:Ep.
  2:{ rewrite Hc. split; [|by eauto]. intros e σ' [= <- <-].
      split; [done|]. by apply base64_decode_all_Err in Ep. }
  split.
  - destruct (decode_AuthenticatedCredential decoded) as [m|e3] eqn:Em.
    + rewrite Hd in Hc. destruct (msg_credential m) as [c|].
      * destruct Hc as (σ'' & -> & _). by intros e σ' [=].
      * rewrite Hc. by intros e σ' [=].
    + rewrite Hc. intros e σ' [= <- <-]. split; [done|].
      by apply decode_AuthenticatedCredential_Err in Em.
  - intros [Hbad|[Hbad|[[Hlen Hbad]|[Hlen Hbad]]]].
    + apply base64_decode_all_invalid in Hbad as [e He]; congruence.
    + apply base64_decode_all_invalid in Hbad as [e He]; congruence.
    + apply base64_decode_all_misplaced_padding in Hbad as [e He]; [congruence|done].
    + apply base64_decode_all_misplaced_padding in Hbad as [e He]; [congruence|done].
Qed.

(** X10. [Base64URLDecode] on a receiver that is an object panics exactly
    when both tokens are base64 text, the payload is a protobuf message, and
    that message has no inner credential. *)
Theorem Base64URLDecode_panics_iff (σ : store) (ac : loc)
    (d : AuthenticatedCredential) (username password : string) :
  envelopes σ !! ac = Some d ->
  Base64URLDecode ac username password σ = Panics
  <-> exists nodeID decoded m,
        base64_URLEncoding_decode_all username = Ok nodeID
        /\ base64_URLEncoding_decode_all password = Ok decoded
        /\ decode_AuthenticatedCredential decoded = Ok m
        /\ msg_credential m = None.
Proof.
  intros Hd. pose proof (Base64URLDecode_cases σ ac username password) as Hc.
  destruct (base64_URLEncoding_decode_all username) as [nodeID|e1].
  2:{ rewrite Hc. split; [done|]. by intros (? & ? & ? & ? & _). }
  destruct (base64_URLEncoding_decode_all password) as [decoded|e2].
  2:{ rewrite Hc. split; [done|]. by intros (? & ? & ? & _ & ? & _). }
  destruct (decode_AuthenticatedCredential decoded) as [m|e3] eqn:Em.
  2:{ rewrite Hc. split; [done|]. intros (? & ? & ? & _ & [= <-] & ? & _). congruence. }
  rewrite Hd in Hc. destruct (msg_credential m) as [c|] eqn:Ec.
  - destruct Hc as (σ' & -> & _). split; [done|].
    intros (? & ? & m' & _ & [= <-] & Em' & ?). congruence.
  - split; [|done]. intros _. by exists nodeID, decoded, m.
Qed.

(** X11. [UnmarshalJSON] on a receiver that is an object returns, and when
    it returns an error the receiver has lost what it held: it is the zero
    message, or a message with an empty MAC and a new, empty inner message.
    The error is one of the JSON, the base64 or the hexadecimal decoder; bytes
    that are not JSON give the syntax error. *)
Theorem UnmarshalJSON_error_resets (σ : store) (ac : loc) (d : AuthenticatedCredential)
    (data : option json) :
  envelopes σ !! ac = Some d ->
  exists r σ',
    UnmarshalJSON ac data σ = Returns r σ'
    /\ (forall e, r = Some e ->
          decoding_error e = true
          /\ (read_envelope σ' ac = Some message_zero
              \/ read_envelope σ' ac = Some (mkMessage (Some pb.Credential_zero) [] [])))
    /\ (data = None -> r = Some json_SyntaxError).
Proof.
  intros Hd.
  destruct (UnmarshalJSON_cases σ ac d data Hd) as (r & σ' & Hrun & _ & _ & _ & Hc).
  exists r, σ'. split; [done|].
  destruct (json_Unmarshal data) as [j|e0] eqn:Ej.
  - split; [|by intros ->].
    destruct (base64_URLEncoding_decode_all (json_Mac j)) as [decoded|e1] eqn:Em.
    + destruct (hex_DecodeString _) as [nodeID|e2] eqn:En.
      * destruct Hc as [-> _]. by intros e [=].
      * destruct Hc as [-> Hr]. intros e [= <-]. split; [|by right].
        by apply hex_DecodeString_Err in En.
    + destruct Hc as [-> Hr]. intros e [= <-]. split; [|by right].
      by apply base64_decode_all_Err in Em.
  - destruct Hc as [-> Hr]. split.
    + intros e [= <-]. split; [|by left]. by apply json_Unmarshal_Err in Ej.
    + intros ->. by injection Ej as <-.
Qed.

(** X12. The decoders write to the receiver only. When [UnmarshalJSON] or
    [Base64URLDecode] returns, with or without an error, the managers, every
    other message and every inner message that existed before the call are as
    they were; the inner message the receiver pointed to is among them, since
    the receiver gets a new one. *)
Theorem decoders_keep_others (σ : store) (ac : loc) (d : AuthenticatedCredential) :
  envelopes σ !! ac = Some d ->
  (forall data, exists r σ',
      UnmarshalJSON ac data σ = Returns r σ' /\ others_kept ac σ σ')
  /\ (forall username password r σ',
        Base64URLDecode ac username password σ = Returns r σ' -> others_kept ac σ σ').
Proof.
  intros Hd. split.
  - intros data.
    destruct (UnmarshalJSON_cases σ ac d data Hd) as (r & σ' & Hrun & H1 & H2 & H3 & _).
    by exists r, σ'.
  - intros username password r σ'.
    pose proof (Base64URLDecode_cases σ ac username password) as Hc.
    assert (others_kept ac σ σ) as Hrefl by done.
    destruct (base64_URLEncoding_decode_all username) as [nodeID|e1];
      [|rewrite Hc; by intros [= <- <-]].
    destruct (base64_URLEncoding_decode_all password) as [decoded|e2];
      [|rewrite Hc; by intros [= <- <-]].
    destruct (decode_AuthenticatedCredential decoded) as [m|e3];
      [|rewrite Hc; by intros [= <- <-]].
    rewrite Hd in Hc. destruct (msg_credential m) as [c|]; [|by rewrite Hc].
    destruct Hc as (σ'' & -> & _ & Hk). by intros [= <- <-].
Qed.

(** X13. The three encoders need the inner message. On a message that can
    be read, [MarshalJSON], [Base64URLEncodeUsername] and
    [Base64URLEncodePassword] each panic exactly when its [Credential]
    pointer is nil, as it is in a zero [AuthenticatedCredential]. *)
Theorem encoders_panic_iff_nil (σ : store) (ac : loc)
    (msg : AuthenticatedCredential_message) :
  read_envelope σ ac = Some msg ->
  (MarshalJSON ac σ = Panics <-> msg_credential msg = None)
  /\ (Base64URLEncodeUsername ac σ = Panics <-> msg_credential msg = None)
  /\ (Base64URLEncodePassword ac σ = Panics <-> msg_credential msg = None).
Proof.
  intros Hr. pose proof Hr as Hr'.
  apply read_envelope_Some in Hr' as (a & Ha & _ & _ & Hc).
  destruct (Credential a) as [p|] eqn:Ep.
  - destruct Hc as (c & Hp & Hc).
    rewrite (MarshalJSON_run σ ac a p c Ha Ep Hp),
      (Base64URLEncodeUsername_run σ ac a p c Ha Ep Hp),
      (Base64URLEncodePassword_run σ ac a p c Ha Ep Hp), Hc.
    by destruct (proto_Marshal_bytes _).
  - rewrite Hc. destruct a as [pa mac unk]. cbn [Credential] in Ep. subst pa.
    unfold MarshalJSON, Base64URLEncodeUsername, Base64URLEncodePassword.
    by go_simpl.
Qed.

(** X14. The username carries the node id and nothing else, the password
    everything else. The username of one message and the password of another
    decode to a credential with the node id of the first and the operator
    type, the timestamp and the MAC of the second; so the password does not
    depend on the node id. [proto.Marshal] is taken to accept the second
    message. *)
Theorem tokens_split_credential (σ : store) (acU acP dst : loc)
    (msgU msgP : AuthenticatedCredential_message) (cU cP : pb.Credential)
    (d : AuthenticatedCredential) :
  pb.schema_ok Sch = true ->
  read_envelope σ acU = Some msgU -> msg_credential msgU = Some cU ->
  read_envelope σ acP = Some msgP -> msg_credential msgP = Some cP -> wf_message msgP ->
  envelopes σ !! dst = Some d ->
  Marshal_error
    (encode_AuthenticatedCredential
       (mkMessage (Some (blank cP)) (msg_mac msgP) (msg_unknownFields msgP))) = None ->
  exists username password σ',
    Base64URLEncodeUsername acU σ = Returns username σ
    /\ Base64URLEncodePassword acP σ = Returns (Ok password) σ
    /\ Base64URLDecode dst username password σ = Returns None σ'
    /\ read_envelope σ' dst
       = Some (mkMessage
                 (Some (pb.mkCredential (pb.NodeId cU) (pb.OperatorType cP)
                          (pb.Timestamp cP) []))
                 (msg_mac msgP) []).
Proof.
  intros Hok HrU HcU HrP HcP Hwf Hd Hmarshal.
  destruct (tokens_decode σ acU acP dst msgU msgP cU cP d Hok HrU HcU HrP HcP Hwf Hd
              Hmarshal) as (username & password & σ' & HU & HP & HD & Hr & _).
  by exists username, password, σ'.
Qed.

(** X15. The tokens are text of the URL alphabet and the padding character,
    and the username of a node id of [n] bytes has four characters for every
    three bytes or part of that: 28 characters for the 20 bytes of a
    credential that [Create] issued. *)
Theorem tokens_url_safe (σ : store) (ac : loc) (msg : AuthenticatedCredential_message)
    (c : pb.Credential) :
  read_envelope σ ac = Some msg -> msg_credential msg = Some c ->
  (exists username,
     Base64URLEncodeUsername ac σ = Returns username σ
     /\ Forall (fun x => url_safe x = true) (list_ascii_of_string username)
     /\ String.length username = (4 * ((length (pb.NodeId c) + 2) / 3))%nat
     /\ (length (pb.NodeId c) = 20%nat -> String.length username = 28%nat))
  /\ (exists r σ',
        Base64URLEncodePassword ac σ = Returns r σ'
        /\ forall password, r = Ok password ->
             Forall (fun x => url_safe x = true) (list_ascii_of_string password)).
Proof.
  intros Hr Hc.
  destruct (read_envelope_credential _ _ _ _ Hr Hc) as (a & p & Ha & Hp & Hcr & ->).
  split.
  - eexists. split; [by eapply Base64URLEncodeUsername_run|].
    unfold base64_URLEncoding_EncodeToString.
    rewrite list_ascii_of_string_of_list_ascii, string_of_list_ascii_length,
      base64_encode_length_eq.
    split; [apply base64_encode_url_safe|]. split; [done|]. by intros ->.
  - rewrite (Base64URLEncodePassword_run σ ac a p c Ha Hp Hcr).
    destruct (proto_Marshal_bytes _) as [marshaled|e]; eexists _, _; (split; [done|]).
    + intros password [= <-]. unfold base64_URLEncoding_EncodeToString.
      rewrite list_ascii_of_string_of_list_ascii. apply base64_encode_url_safe.
    + by intros password [=].
Qed.

(** X16. What [Base64URLDecode] makes of any two tokens that decode to a
    payload with an inner credential: the receiver holds the operator type,
    the timestamp and the MAC of the payload and the node id of the username.
    A node id inside the payload is dropped, and so is whatever the receiver
    held before. *)
Theorem Base64URLDecode_payload (σ : store) (ac : loc) (d : AuthenticatedCredential)
    (username password : string) (nodeID decoded : list byte)
    (m : AuthenticatedCredential_message) (c : pb.Credential) :
  envelopes σ !! ac = Some d ->
  base64_URLEncoding_decode_all username = Ok nodeID ->
  base64_URLEncoding_decode_all password = Ok decoded ->
  decode_AuthenticatedCredential decoded = Ok m ->
  msg_credential m = Some c ->
  exists σ',
    Base64URLDecode ac username password σ = Returns None σ'
    /\ read_envelope σ' ac
       = Some (mkMessage
                 (Some (pb.mkCredential nodeID (pb.OperatorType c) (pb.Timestamp c)
                          (pb.unknownFields c)))
                 (msg_mac m) (msg_unknownFields m)).
Proof.
  intros Hd Hu Hp Hm Hc.
  pose proof (Base64URLDecode_cases σ ac username password) as Hcases.
  rewrite Hu, Hp, Hm, Hd, Hc in Hcases.
  destruct Hcases as (σ' & Hrun & Hr & _). by exists σ'.
Qed.

(** X17. A password is bound to its username. The password of a credential
    whose MAC the manager's key gives, sent with the username of a message for
    another node id, decodes without an error, and [Verify] then reports the
    mismatch unless HMAC-SHA256 under the key takes the same value on two
    different byte strings. [proto.Marshal] is taken not to fail. *)
Theorem password_bound_to_username (σ : store) (v acU acP dst : loc)
    (mv : CredentialManager) (msgU msgP : AuthenticatedCredential_message)
    (cU cP : pb.Credential) (d : AuthenticatedCredential) :
  pb.schema_ok Sch = true ->
  (forall b, Marshal_error b = None) ->
  managers σ !! v = Some mv -> pool_ok mv ->
  read_envelope σ acU = Some msgU -> msg_credential msgU = Some cU ->
  read_envelope σ acP = Some msgP -> msg_credential msgP = Some cP -> wf_message msgP ->
  msg_mac msgP = hmac_sha256 (key mv) (encode_Credential cP) ->
  Z.of_nat (length (pb.NodeId cU)) < 2 ^ 63 ->
  pb.NodeId cU <> pb.NodeId cP ->
  envelopes σ !! dst = Some d ->
  let c' := pb.mkCredential (pb.NodeId cU) (pb.OperatorType cP) (pb.Timestamp cP) [] in
  exists username password σ1 r σ2,
    Base64URLEncodeUsername acU σ = Returns username σ
    /\ Base64URLEncodePassword acP σ = Returns (Ok password) σ
    /\ Base64URLDecode dst username password σ = Returns None σ1
    /\ Verify v dst σ1 = Returns r σ2
    /\ encode_Credential c' <> encode_Credential cP
    /\ (r = None
        <-> hmac_sha256 (key mv) (encode_Credential c')
            = hmac_sha256 (key mv) (encode_Credential cP))
    /\ (r <> None -> r = Some (errors_New "credential MAC mismatch")).
Proof.
  intros Hok Hmarshal Hv Hp HrU HcU HrP HcP Hwf Hmac HlenU Hne Hd c'.
  destruct (tokens_decode σ acU acP dst msgU msgP cU cP d Hok HrU HcU HrP HcP Hwf Hd
              (Hmarshal _))
    as (username & password & σ1 & HU & HP & HD & Hr & Hmgr & _).
  fold c' in Hr. destruct Hwf as (Hwf & _ & _).
  destruct (Hwf cP HcP) as [(HnP & HoP & HtP) HuP].
  exists username, password, σ1.
  rewrite (Verify_run σ1 v dst mv _ ltac:(by rewrite Hmgr) Hr).
  cbn [msg_credential msg_mac encode_Credential_ptr].
  rewrite (proto_Marshal_bytes_Ok _ (Hmarshal _)).
  destruct (pool_ok_take mv Hp) as [-> _].
  cbn [hmac_New hash_key hash_written app]. rewrite Hmac.
  eexists _, _.
  split; [done|]. split; [done|]. split; [done|]. split; [done|].
  split.
  { intros E. apply encode_Credential_inj in E; [|done..].
    apply Hne. by rewrite <- E. }
  destruct (hmac_Equal _ _) eqn:E; cbn [negb].
  - apply hmac_Equal_true in E. by rewrite E.
  - apply hmac_Equal_false in E. split; [|done]. split; [done|]. by intros E'.
Qed.

End codec_more.


(** ** Witnesses of the further properties *)

Lemma example_credential_wf : wf_Credential example_credential.
Proof. by vm_compute. Qed.

Lemma example_modified_wf : wf_Credential example_modified.
Proof. by vm_compute. Qed.

Lemma issued_tokens_verify_witness :
  exists ac username password σ1 σ2 σ3,
    Create (Sch := pb.schema_in_order) (Rt := runtime_no_error)
      1%positive example_time example_node_id 0 issued_store = Returns (Ok ac) σ1
    /\ Base64URLEncodeUsername ac σ1 = Returns username σ1
    /\ Base64URLEncodePassword (Sch := pb.schema_in_order) (Rt := runtime_no_error) ac σ1
       = Returns (Ok password) σ1
    /\ Base64URLDecode (Sch := pb.schema_in_order) (Gr := runtime_doubling) 2%positive username password σ1
       = Returns None σ2
    /\ Verify (Sch := pb.schema_in_order) (Rt := runtime_no_error) 1%positive 2%positive σ2
       = Returns None σ3.
Proof.
  apply (issued_tokens_verify (Sch := pb.schema_in_order) (Rt := runtime_no_error)
           issued_store 1%positive 1%positive 2%positive example_manager example_manager
           AuthenticatedCredential_zero example_time example_node_id 0);
    [ reflexivity | intros b; reflexivity | reflexivity | apply Forall_nil_2
    | reflexivity | apply Forall_nil_2 | reflexivity | reflexivity | reflexivity
    | split; [discriminate | reflexivity] ].
Defined.

Lemma issued_json_verifies_witness :
  exists ac doc σ1 σ2 σ3,
    Create (Sch := pb.schema_in_order) (Rt := runtime_no_error)
      1%positive example_time example_node_id 0 issued_store = Returns (Ok ac) σ1
    /\ MarshalJSON ac σ1 = Returns (Ok doc) σ1
    /\ UnmarshalJSON (Gr := runtime_doubling) 2%positive (Some doc) σ1 = Returns None σ2
    /\ Verify (Sch := pb.schema_in_order) (Rt := runtime_no_error) 1%positive 2%positive σ2
       = Returns None σ3.
Proof.
  apply (issued_json_verifies (Sch := pb.schema_in_order) (Rt := runtime_no_error)
           issued_store 1%positive 1%positive 2%positive example_manager example_manager
           AuthenticatedCredential_zero example_time example_node_id 0);
    [ intros b; reflexivity | reflexivity | apply Forall_nil_2
    | reflexivity | apply Forall_nil_2 | reflexivity | reflexivity | reflexivity
    | split; [discriminate | reflexivity] ].
Defined.

Lemma NewCredentialManager_issues_witness :
  let cred := pb.mkCredential example_node_id 0 (Time_Unix example_time) [] in
  exists c ac σ0 σ1 σ2,
    NewCredentialManager example_key store_empty = Returns c σ0
    /\ managers store_empty !! c = None
    /\ Create (Sch := pb.schema_in_order) (Rt := runtime_no_error)
         c example_time example_node_id 0 σ0 = Returns (Ok ac) σ1
    /\ read_envelope σ1 ac
       = Some (mkMessage (Some cred)
                 (hmac_sha256 example_key
                    (encode_Credential (Sch := pb.schema_in_order) cred)) [])
    /\ Verify (Sch := pb.schema_in_order) (Rt := runtime_no_error) c ac σ1
       = Returns None σ2.
Proof.
  apply (NewCredentialManager_issues (Sch := pb.schema_in_order) (Rt := runtime_no_error)
           store_empty example_key example_time example_node_id 0);
    [ intros b; reflexivity | reflexivity ].
Defined.

Lemma Verify_modified_credential_witness :
  encode_Credential (Sch := pb.schema_in_order) example_modified
  <> encode_Credential (Sch := pb.schema_in_order) example_credential
  /\ exists r σ',
       Verify (Sch := pb.schema_in_order) (Rt := runtime_no_error)
         1%positive 1%positive modified_store = Returns r σ'
       /\ (r = None
           <-> hmac_sha256 (key example_manager)
                 (encode_Credential (Sch := pb.schema_in_order) example_modified)
               = hmac_sha256 (key example_manager)
                   (encode_Credential (Sch := pb.schema_in_order) example_credential))
       /\ (r <> None -> r = Some (errors_New "credential MAC mismatch")).
Proof.
  apply (Verify_modified_credential (Sch := pb.schema_in_order) (Rt := runtime_no_error)
           modified_store 1%positive 1%positive example_manager
           (mkMessage (Some example_modified) example_mac [])
           example_credential example_modified);
    [ reflexivity | intros b; reflexivity | reflexivity | apply Forall_nil_2
    | reflexivity | reflexivity | reflexivity
    | apply example_credential_wf | reflexivity
    | apply example_modified_wf | reflexivity
    | unfold example_modified, example_credential; intros E; discriminate E ].
Defined.

Lemma calls_keep_pool_witness :
  (forall timestamp nodeID ot, exists r σ' m',
      Create (Sch := pb.schema_in_order) (Rt := runtime_no_error)
        1%positive timestamp nodeID ot issued_store = Returns r σ'
      /\ managers σ' !! 1%positive = Some m' /\ key m' = key example_manager
      /\ (forall ac, r = Ok ac ->
            exists h, (pool_take example_manager).1 = any_Hash h
              /\ pool m'
                 = any_Hash (HmacHash (hash_key h) []) :: (pool_take example_manager).2)
      /\ (pool_ok example_manager -> pool_ok m'))
  /\ (forall ac msg, read_envelope issued_store ac = Some msg -> exists r σ' m',
      Verify (Sch := pb.schema_in_order) (Rt := runtime_no_error)
        1%positive ac issued_store = Returns r σ'
      /\ managers σ' !! 1%positive = Some m' /\ key m' = key example_manager
      /\ (forall h,
            Marshal_error (proto_runtime := runtime_no_error)
              (encode_Credential_ptr (Sch := pb.schema_in_order) (msg_credential msg))
            = None ->
            (pool_take example_manager).1 = any_Hash h ->
            pool m'
            = any_Hash (HmacHash (hash_key h) []) :: (pool_take example_manager).2)
      /\ (pool_ok example_manager -> pool_ok m')).
Proof.
  apply (calls_keep_pool (Sch := pb.schema_in_order) (Rt := runtime_no_error)
           issued_store 1%positive example_manager).
  reflexivity.
Defined.

Lemma Create_frame_witness :
  exists r σ',
    Create (Sch := pb.schema_in_order) (Rt := runtime_no_error)
      1%positive example_time example_node_id 0 issued_store = Returns r σ'
    /\ (forall l a, envelopes issued_store !! l = Some a -> envelopes σ' !! l = Some a)
    /\ (forall l x, credentials issued_store !! l = Some x -> credentials σ' !! l = Some x)
    /\ (forall l, l <> 1%positive -> managers σ' !! l = managers issued_store !! l)
    /\ (forall ac, r = Ok ac ->
          envelopes issued_store !! ac = None
          /\ exists a p, envelopes σ' !! ac = Some a /\ Credential a = Some p
               /\ credentials issued_store !! p = None
               /\ exists x, credentials σ' !! p = Some x).
Proof.
  apply (Create_frame (Sch := pb.schema_in_order) (Rt := runtime_no_error)
           issued_store 1%positive example_manager example_time example_node_id 0).
  reflexivity.
Defined.

Lemma Create_mac_length_witness :
  exists a, envelopes created_store !! 1%positive = Some a /\ length (Mac a) = 32%nat.
Proof.
  apply (Create_mac_length (Sch := pb.schema_in_order) (Rt := runtime_no_error)
           example_store 1%positive example_manager example_time example_node_id 0
           1%positive created_store);
    [ reflexivity | vm_compute; reflexivity ].
Defined.

Lemma Verify_rejects_other_lengths_witness :
  exists σ',
    Verify (Sch := pb.schema_in_order) (Rt := runtime_no_error)
      1%positive 2%positive issued_store
    = Returns (Some (errors_New "credential MAC mismatch")) σ'.
Proof.
  apply (Verify_rejects_other_lengths (Sch := pb.schema_in_order)
           (Rt := runtime_no_error) issued_store 1%positive 2%positive example_manager
           message_zero);
    [ intros b; reflexivity | reflexivity | apply Forall_nil_2 | reflexivity
    | simpl; lia ].
Defined.

Lemma Base64URLDecode_error_keeps_store_witness :
  (forall e σ',
     Base64URLDecode (Sch := pb.schema_in_order) (Gr := runtime_doubling)
       1%positive "AA=A" "" issued_store
     = Returns (Some e) σ' -> σ' = issued_store /\ decoding_error e = true)
  /\ (malformed_base64 "AA=A" \/ malformed_base64 ""
      \/ ((String.length "AA=A" <= 680)%nat /\ misplaced_padding (text_of "AA=A"))
      \/ ((String.length "" <= 680)%nat /\ misplaced_padding (text_of "")) ->
      exists e,
        Base64URLDecode (Sch := pb.schema_in_order) (Gr := runtime_doubling)
          1%positive "AA=A" "" issued_store
        = Returns (Some e) issued_store).
Proof.
  apply (Base64URLDecode_error_keeps_store (Sch := pb.schema_in_order)
           (Gr := runtime_doubling) issued_store 1%positive
           (mkAuthenticatedCredential (Some 1%positive) example_mac []) "AA=A" "").
  reflexivity.
Defined.

Lemma Base64URLDecode_panics_iff_witness :
  Base64URLDecode (Sch := pb.schema_in_order) (Gr := runtime_doubling)
    2%positive padded_chunk_text "" issued_store = Panics
  <-> exists nodeID decoded m,
        base64_URLEncoding_decode_all (Gr := runtime_doubling) padded_chunk_text
        = Ok nodeID
        /\ base64_URLEncoding_decode_all (Gr := runtime_doubling) "" = Ok decoded
        /\ decode_AuthenticatedCredential (Sch := pb.schema_in_order) decoded = Ok m
        /\ msg_credential m = None.
Proof.
  apply (Base64URLDecode_panics_iff (Sch := pb.schema_in_order) (Gr := runtime_doubling)
           issued_store 2%positive AuthenticatedCredential_zero padded_chunk_text "").
  reflexivity.
Defined.

Lemma UnmarshalJSON_error_resets_witness :
  exists r σ',
    UnmarshalJSON (Gr := runtime_doubling) 1%positive None issued_store = Returns r σ'
    /\ (forall e, r = Some e ->
          decoding_error e = true
          /\ (read_envelope σ' 1%positive = Some message_zero
              \/ read_envelope σ' 1%positive
                 = Some (mkMessage (Some pb.Credential_zero) [] [])))
    /\ (@None json = None -> r = Some json_SyntaxError).
Proof.
  apply (UnmarshalJSON_error_resets issued_store 1%positive
           (mkAuthenticatedCredential (Some 1%positive) example_mac []) None).
  reflexivity.
Defined.

Lemma decoders_keep_others_witness :
  (forall data, exists r σ',
      UnmarshalJSON (Gr := runtime_doubling) 2%positive data issued_store = Returns r σ'
      /\ others_kept 2%positive issued_store σ')
  /\ (forall username password r σ',
        Base64URLDecode (Sch := pb.schema_in_order) (Gr := runtime_doubling) 2%positive username password
          issued_store = Returns r σ' ->
        others_kept 2%positive issued_store σ').
Proof.
  apply (decoders_keep_others (Sch := pb.schema_in_order) issued_store 2%positive
           AuthenticatedCredential_zero).
  reflexivity.
Defined.

Lemma encoders_panic_iff_nil_witness :
  (MarshalJSON 2%positive issued_store = Panics <-> msg_credential message_zero = None)
  /\ (Base64URLEncodeUsername 2%positive issued_store = Panics
      <-> msg_credential message_zero = None)
  /\ (Base64URLEncodePassword (Sch := pb.schema_in_order) (Rt := runtime_no_error)
        2%positive issued_store = Panics
      <-> msg_credential message_zero = None).
Proof.
  apply (encoders_panic_iff_nil (Sch := pb.schema_in_order) (Rt := runtime_no_error)
           issued_store 2%positive message_zero).
  reflexivity.
Defined.

Lemma tokens_split_credential_witness :
  exists username password σ',
    Base64URLEncodeUsername 1%positive issued_store = Returns username issued_store
    /\ Base64URLEncodePassword (Sch := pb.schema_in_order) (Rt := runtime_no_error)
         1%positive issued_store = Returns (Ok password) issued_store
    /\ Base64URLDecode (Sch := pb.schema_in_order) (Gr := runtime_doubling) 2%positive username password issued_store
       = Returns None σ'
    /\ read_envelope σ' 2%positive
       = Some (mkMessage
                 (Some (pb.mkCredential (pb.NodeId example_credential)
                          (pb.OperatorType example_credential)
                          (pb.Timestamp example_credential) []))
                 (msg_mac example_message) []).
Proof.
  apply (tokens_split_credential (Sch := pb.schema_in_order) (Rt := runtime_no_error)
           issued_store 1%positive 1%positive 2%positive example_message example_message
           example_credential example_credential AuthenticatedCredential_zero);
    [ reflexivity | reflexivity | reflexivity | reflexivity | reflexivity
    | apply example_message_wf | reflexivity | reflexivity ].
Defined.

Lemma tokens_url_safe_witness :
  (exists username,
     Base64URLEncodeUsername 1%positive issued_store = Returns username issued_store
     /\ Forall (fun x => url_safe x = true) (list_ascii_of_string username)
     /\ String.length username
        = (4 * ((length (pb.NodeId example_credential) + 2) / 3))%nat
     /\ (length (pb.NodeId example_credential) = 20%nat ->
         String.length username = 28%nat))
  /\ (exists r σ',
        Base64URLEncodePassword (Sch := pb.schema_in_order) (Rt := runtime_no_error)
          1%positive issued_store = Returns r σ'
        /\ forall password, r = Ok password ->
             Forall (fun x => url_safe x = true) (list_ascii_of_string password)).
Proof.
  apply (tokens_url_safe (Sch := pb.schema_in_order) (Rt := runtime_no_error)
           issued_store 1%positive example_message example_credential);
    reflexivity.
Defined.

Lemma Base64URLDecode_payload_witness :
  exists σ',
    Base64URLDecode (Sch := pb.schema_in_order) (Gr := runtime_doubling) 1%positive "AQI=" "CgQKAv__" issued_store
    = Returns None σ'
    /\ read_envelope σ' 1%positive
       = Some (mkMessage (Some (pb.mkCredential [x01; x02] 0 0 [])) [] []).
Proof.
  apply (Base64URLDecode_payload (Sch := pb.schema_in_order) issued_store 1%positive
           (mkAuthenticatedCredential (Some 1%positive) example_mac [])
           "AQI=" "CgQKAv__" [x01; x02] [x0a; x04; x0a; x02; xff; xff]
           (mkMessage (Some (pb.mkCredential [xff; xff] 0 0 [])) [] [])
           (pb.mkCredential [xff; xff] 0 0 []));
    [ reflexivity | vm_compute; reflexivity | vm_compute; reflexivity
    | vm_compute; reflexivity | reflexivity ].
Defined.

Lemma example_node_ids_differ : example_other_node_id <> example_node_id.
Proof. intros E. vm_compute in E. discriminate E. Qed.

Lemma password_bound_to_username_witness :
  let c' := pb.mkCredential (pb.NodeId example_other)
              (pb.OperatorType example_credential) (pb.Timestamp example_credential) [] in
  exists username password σ1 r σ2,
    Base64URLEncodeUsername 2%positive two_store = Returns username two_store
    /\ Base64URLEncodePassword (Sch := pb.schema_in_order) (Rt := runtime_no_error)
         1%positive two_store = Returns (Ok password) two_store
    /\ Base64URLDecode (Sch := pb.schema_in_order) (Gr := runtime_doubling) 3%positive username password two_store
       = Returns None σ1
    /\ Verify (Sch := pb.schema_in_order) (Rt := runtime_no_error) 1%positive 3%positive σ1
       = Returns r σ2
    /\ encode_Credential (Sch := pb.schema_in_order) c'
       <> encode_Credential (Sch := pb.schema_in_order) example_credential
    /\ (r = None
        <-> hmac_sha256 (key example_manager)
              (encode_Credential (Sch := pb.schema_in_order) c')
            = hmac_sha256 (key example_manager)
                (encode_Credential (Sch := pb.schema_in_order) example_credential))
    /\ (r <> None -> r = Some (errors_New "credential MAC mismatch")).
Proof.
  apply (password_bound_to_username (Sch := pb.schema_in_order) (Rt := runtime_no_error)
           two_store 1%positive 2%positive 1%positive 3%positive example_manager
           (mkMessage (Some example_other) [] []) example_message
           example_other example_credential AuthenticatedCredential_zero);
    [ reflexivity | intros b; reflexivity | reflexivity | apply Forall_nil_2
    | reflexivity | reflexivity | reflexivity | reflexivity
    | apply example_message_wf | reflexivity | reflexivity
    | apply example_node_ids_differ | reflexivity ].
Defined.
